(** * Red_Star: the Lisp core of [plugins/rs_lisp.py]

    A shallow embedding of the escaper, the tokenizer, the reader, the
    environment chain and the evaluator of [rs_lisp.py], and the properties
    of the specification stated over it.

    Conventions of the embedding.
    - A Python [str] is a list of Unicode code points ([list N]); [lit]
      turns an ASCII literal into one.
    - A Python exception is a class and a message; a computation that can
      raise returns an [outcome], which also has two results that are not
      Python behaviours: [OutOfFuel] (the recursion bound of the model was
      reached) and [Unsupported] (the program left the fragment of Python
      that is modelled: floating point arithmetic, reflection with [>>],
      in-place mutation of list objects, Unicode tables, the builtins that
      are bound only to an opaque value).
    - Mutable objects shared through references ([Env] instances, the token
      list of the reader) live in an explicit state. *)

From Stdlib Require Import ZArith String Ascii DecimalString.
From stdpp Require Import gmap list.

Open Scope Z_scope.
Open Scope list_scope.

(* ===================================================================== *)
(** ** Strings *)

Abbreviation char := N (only parsing).
Abbreviation str := (list N).

Definition lit (s : string) : str :=
  map (fun a => N_of_ascii a) (list_ascii_of_string s).

Definition c_tab : char := 9%N.
Definition c_newline : char := 10%N.
Definition c_space : char := 32%N.
Definition c_dquote : char := 34%N.
Definition c_lparen : char := 40%N.
Definition c_rparen : char := 41%N.
Definition c_backslash : char := 92%N.
Definition c_n : char := 110%N.

Definition char_eqb (a b : char) : bool := N.eqb a b.

Fixpoint str_eqb (a b : str) : bool :=
  match a, b with
  | [], [] => true
  | x :: a', y :: b' => char_eqb x y && str_eqb a' b'
  | _, _ => false
  end.

(** [s.startswith(p)] *)
Fixpoint starts_with (p s : str) : bool :=
  match p, s with
  | [], _ => true
  | x :: p', y :: s' => char_eqb x y && starts_with p' s'
  | _ :: _, [] => false
  end.

(** [p in s] for two strings *)
Fixpoint contains (p s : str) : bool :=
  starts_with p s ||
  match s with
  | [] => false
  | _ :: s' => contains p s'
  end.

(** [c in s] for one character *)
Definition has_char (c : char) (s : str) : bool := existsb (char_eqb c) s.

(** [str.replace(old, new)]: the occurrences of [old] are replaced from left
    to right, without overlap.  [skip] counts the characters of a match that
    are still to be passed over. *)
Fixpoint replace_from (old new : str) (skip : nat) (s : str) : str :=
  match s with
  | [] => []
  | c :: r =>
    match skip with
    | S k => replace_from old new k r
    | O =>
      if starts_with old s
      then new ++ replace_from old new (length old - 1) r
      else c :: replace_from old new 0 r
    end
  end.

Definition replace (old new s : str) : str :=
  match old with
  | [] => new ++ flat_map (fun c => c :: new) s
  | _ :: _ => replace_from old new 0 s
  end.

(** [sep.join(l)] *)
Fixpoint join (sep : str) (l : list str) : str :=
  match l with
  | [] => []
  | [a] => a
  | a :: l' => a ++ sep ++ join sep l'
  end.

(** [s.split(sep)] for a separator of one character: never empty. *)
Fixpoint split_char (sep : char) (s : str) : list str :=
  match s with
  | [] => [[]]
  | c :: r =>
    if char_eqb c sep then [] :: split_char sep r
    else match split_char sep r with
         | [] => [[c]]
         | w :: ws => (c :: w) :: ws
         end
  end.

Definition is_ascii (c : char) : bool := (c <? 128)%N.
Definition is_ascii_digit (c : char) : bool := (48 <=? c)%N && (c <=? 57)%N.
Definition is_ascii_upper (c : char) : bool := (65 <=? c)%N && (c <=? 90)%N.

(** [Py_UNICODE_ISSPACE] on the ASCII range: what [\s] and [int()] strip. *)
Definition is_ascii_space (c : char) : bool :=
  ((9 <=? c)%N && (c <=? 13)%N) || ((28 <=? c)%N && (c <=? 32)%N).

Definition lower_char (c : char) : char :=
  if is_ascii_upper c then (c + 32)%N else c.

(** [s.lower()] on ASCII text *)
Definition lower (s : str) : str := map lower_char s.

(** [str(z)] for an [int] *)
Definition str_of_Z (z : Z) : str := lit (NilZero.string_of_int (Z.to_int z)).

Definition str_of_nat (n : nat) : str := str_of_Z (Z.of_nat n).

(* ===================================================================== *)
(** ** Exceptions and outcomes *)

(** Modelled from the spec: [CustomCommandSyntaxError] is declared in
    [rs_errors], which is not among the sources; the spec describes it as an
    error that carries a human-readable message, and it is taken as an
    exception class like Python's own, whose text is its message. *)
Inductive exn_class :=
  | CustomCommandSyntaxError
  | IndexError
  | ValueError
  | TypeError
  | AttributeError.

Record exn := Exn { exn_cls : exn_class; exn_msg : str }.

Definition exn_class_name (c : exn_class) : string :=
  match c with
  | CustomCommandSyntaxError => "CustomCommandSyntaxError"
  | IndexError => "IndexError"
  | ValueError => "ValueError"
  | TypeError => "TypeError"
  | AttributeError => "AttributeError"
  end.

Definition exn_class_eqb (a b : exn_class) : bool :=
  match a, b with
  | CustomCommandSyntaxError, CustomCommandSyntaxError
  | IndexError, IndexError
  | ValueError, ValueError
  | TypeError, TypeError
  | AttributeError, AttributeError => true
  | _, _ => false
  end.

(** The result of running a computation over a state of type [S]. *)
Inductive outcome (S A : Type) :=
  | Ret (a : A) (s : S)
  | Raise (e : exn) (s : S)
  | OutOfFuel
  | Unsupported.

Arguments Ret {S A} a s.
Arguments Raise {S A} e s.
Arguments OutOfFuel {S A}.
Arguments Unsupported {S A}.

Definition M (S A : Type) : Type := S -> outcome S A.

Definition ret {S A} (a : A) : M S A := fun s => Ret a s.
Definition raise {S A} (e : exn) : M S A := fun s => Raise e s.
Definition unsupported {S A} : M S A := fun _ => Unsupported.
Definition out_of_fuel {S A} : M S A := fun _ => OutOfFuel.

Definition bind {S A B} (m : M S A) (k : A -> M S B) : M S B :=
  fun s =>
    match m s with
    | Ret a s' => k a s'
    | Raise e s' => Raise e s'
    | OutOfFuel => OutOfFuel
    | Unsupported => Unsupported
    end.

(** [try: m  except Exception as e: h e] *)
Definition try_except {S A} (m : M S A) (h : exn -> M S A) : M S A :=
  fun s =>
    match m s with
    | Raise e s' => h e s'
    | r => r
    end.

(** [try: m  except cls: h] *)
Definition try_except_cls {S A} (cls : exn_class) (m : M S A) (h : M S A) : M S A :=
  try_except m (fun e => if exn_class_eqb (exn_cls e) cls then h else raise e).

Notation "x <- m ;; k" := (bind m (fun x => k))
  (at level 100, m at level 99, k at level 200, right associativity).
Notation "m ;;; k" := (bind m (fun _ => k))
  (at level 100, k at level 200, right associativity).

Definition ccse {S A} (msg : str) : M S A :=
  raise (Exn CustomCommandSyntaxError msg).

(* ===================================================================== *)
(** ** Escaper: [escapes], [l_escape], [l_restore] *)

Definition ph_backslash : char := 65280%N.  (* U+FF00 *)
Definition ph_dquote : char := 65281%N.     (* U+FF01 *)
Definition ph_newline : char := 65282%N.    (* U+FF02 *)

Definition escapes : list (str * str * str) :=
  [ ([c_backslash; c_backslash], [ph_backslash], [c_backslash]);
    ([c_backslash; c_dquote], [ph_dquote], [c_dquote]);
    ([c_backslash; c_n], [ph_newline], [c_newline]) ].

Definition l_escape (string : str) : str :=
  fold_left (fun acc '(p, r, _) => replace p r acc) escapes string.

Definition l_restore (string : str) : str :=
  fold_left (fun acc '(_, p, r) => replace p r acc) escapes string.

Definition is_placeholder (c : char) : bool :=
  char_eqb c ph_backslash || char_eqb c ph_dquote || char_eqb c ph_newline.

(** No placeholder character occurs in [s]. *)
Definition placeholder_free (s : str) : bool := negb (existsb is_placeholder s).

(** None of the three escape sequences occurs in [s]. *)
Definition escape_free (s : str) : bool :=
  forallb (fun '(p, _, _) => negb (contains p s)) escapes.

(** What an escape sequence stands for, read from left to right. *)
Fixpoint decode (s : str) : str :=
  match s with
  | [] => []
  | c :: r =>
    match r with
    | d :: r' =>
      if char_eqb c c_backslash && char_eqb d c_backslash then c_backslash :: decode_skip r
      else if char_eqb c c_backslash && char_eqb d c_dquote then c_dquote :: decode_skip r
      else if char_eqb c c_backslash && char_eqb d c_n then c_newline :: decode_skip r
      else c :: decode r
    | [] => [c]
    end
  end
with decode_skip (s : str) : str :=
  match s with
  | [] => []
  | _ :: r => decode r
  end.

(* ===================================================================== *)
(** ** Values

    The reader builds Python values and the evaluator computes with them, so
    expressions and values share one type. *)

Abbreviation addr := nat (only parsing).

(** The entries of [standard_env] whose behaviour is modelled. *)
Inductive builtin :=
  | BAdd | BSub | BMul                             (* [+] [-] [*] *)
  | BGt | BLt | BGe | BLe | BEq | BNe              (* [>] [<] [>=] [<=] [==] [!=] *)
  | BNot                                           (* [not] *)
  | BItem                                          (* [#] *)
  | BCar | BCdr | BCons | BDo | BLen | BList | BPass | BNull
  | BTranscode.

#[warnings="-register-all"]
Inductive value :=
  | VNone
  | VBool (b : bool)
  | VInt (z : Z)
  | VFloat (literal : str)                         (* a float, kept as read *)
  | VStr (s : str)
  | VList (l : list value)
  | VProc (parms body : value) (env : addr)        (* [Procedure] *)
  | VBuiltin (b : builtin)                         (* an entry of [standard_env] *)
  | VOpaque (name : str)                           (* an entry that is not modelled *)
  | VStructPos                                     (* [lambda arr, index: arr[index]] *)
  | VStructCheck (create : str)                    (* [lambda arr: len(arr) == lisp_eval(create)] *)
  | VExn (e : exn).                                (* an exception object *)

(** [v == s] for a string [s] *)
Definition is_str (v : value) (s : str) : bool :=
  match v with
  | VStr s' => str_eqb s' s
  | _ => false
  end.

(* ===================================================================== *)
(** ** Tokenizer

    [re.findall(pattern, l_escape(string), re.DOTALL)], where the pattern has
    four alternatives, tried in this order: a double quote, as few characters
    as possible, a double quote; an opening parenthesis; a closing
    parenthesis; a run, as long as possible, of characters other than the
    parentheses, the double quote and the space.  The text is scanned from
    left to right; at each position the first alternative that matches gives a
    token and the scan goes on after it, and a position where none matches is
    passed over. *)

Definition is_delim (c : char) : bool :=
  char_eqb c c_lparen || char_eqb c c_rparen || char_eqb c c_dquote || char_eqb c c_space.

Fixpoint scan (s : str) : list str :=
  match s with
  | [] => []
  | c :: r =>
    if char_eqb c c_dquote then
      (* first alternative: up to the next double quote; without one, no
         alternative matches at this position *)
      (fix quoted (acc : str) (t : str) {struct t} : list str :=
         match t with
         | [] => scan r
         | d :: t' =>
           if char_eqb d c_dquote then (c_dquote :: acc ++ [c_dquote]) :: scan t'
           else quoted (acc ++ [d]) t'
         end) [] r
    else if char_eqb c c_lparen then [c_lparen] :: scan r
    else if char_eqb c c_rparen then [c_rparen] :: scan r
    else if char_eqb c c_space then scan r
    else
      (* fourth alternative: a maximal run *)
      (fix run (acc : str) (t : str) {struct t} : list str :=
         match t with
         | [] => [acc]
         | d :: t' =>
           if is_delim d then acc :: scan t
           else run (acc ++ [d]) t'
         end) [c] r
  end.

Definition tokenize (string : str) : list str := scan (l_escape string).

(* ===================================================================== *)
(** ** Reader: [atom], [read_from_tokens], [parse] *)

(** Modelled from the spec: [rs_utils.is_positive] is imported by
    [rs_lisp.py] and is not among the sources.  The spec describes it as the
    parse of a boolean literal, the words true and false in any case; any
    other token makes it raise [CommandSyntaxError], here [None]. *)
Definition is_positive (token : str) : option bool :=
  if str_eqb (lower token) (lit "true") then Some true
  else if str_eqb (lower token) (lit "false") then Some false
  else None.

Definition is_sign (c : char) : bool := char_eqb c 43%N || char_eqb c 45%N.
Definition c_underscore : char := 95%N.
Definition c_dot : char := 46%N.

Definition digit_val (c : char) : Z := Z.of_N (c - 48)%N.

(** Digits, with single underscores between them, at the start of [s]: the
    value read, when [acc] was read before, and the rest of [s]. *)
Fixpoint digitpart_from (acc : Z) (s : str) : Z * str :=
  match s with
  | c :: r =>
    if is_ascii_digit c then digitpart_from (10 * acc + digit_val c) r
    else if char_eqb c c_underscore then
      match r with
      | d :: r' =>
        if is_ascii_digit d then digitpart_from (10 * acc + digit_val d) r'
        else (acc, s)
      | [] => (acc, s)
      end
    else (acc, s)
  | [] => (acc, s)
  end.

Definition digitpart (s : str) : option (Z * str) :=
  match s with
  | c :: r => if is_ascii_digit c then Some (digitpart_from (digit_val c) r) else None
  | [] => None
  end.

Definition strip_sign (s : str) : bool * str :=
  match s with
  | c :: r => if is_sign c then (char_eqb c 45%N, r) else (false, s)
  | [] => (false, s)
  end.

(** [int(token)] on ASCII text without surrounding whitespace; [None] is
    [ValueError]. *)
Definition py_int (token : str) : option Z :=
  let '(neg, body) := strip_sign token in
  match digitpart body with
  | Some (z, []) => Some (if neg then - z else z)
  | _ => None
  end.

Definition exponent_ok (s : str) : bool :=
  match s with
  | [] => true
  | c :: r =>
    if char_eqb (lower_char c) 101%N then
      match digitpart (snd (strip_sign r)) with
      | Some (_, []) => true
      | _ => false
      end
    else false
  end.

(** Whether [float(token)] returns, on ASCII text without surrounding
    whitespace. *)
Definition py_float_ok (token : str) : bool :=
  let body := snd (strip_sign token) in
  let low := lower body in
  if str_eqb low (lit "inf") || str_eqb low (lit "infinity") || str_eqb low (lit "nan")
  then true
  else
    match digitpart body with
    | Some (_, rest) =>
      match rest with
      | c :: r =>
        if char_eqb c c_dot then
          match digitpart r with
          | Some (_, rest') => exponent_ok rest'
          | None => exponent_ok r
          end
        else exponent_ok rest
      | [] => true
      end
    | None =>
      match body with
      | c :: r =>
        if char_eqb c c_dot then
          match digitpart r with
          | Some (_, rest') => exponent_ok rest'
          | None => false
          end
        else false
      | [] => false
      end
    end.

(** The longest integer text [int()] converts (Python 3.11 and later refuse
    more digits); longer tokens are left out of the model. *)
Definition max_str_digits : nat := 4300.

Definition atom (token : str) : option value :=
  if negb (forallb is_ascii token) || (max_str_digits <? length token)%nat then None
  else
    match py_int token with
    | Some z => Some (VInt z)
    | None =>
      if py_float_ok token then Some (VFloat token)
      else
        match is_positive token with
        | Some b => Some (VBool b)
        | None => Some (VStr (lower token))
        end
    end.

(** [re.sub] of the whitespace at both ends of the token by the empty
    string, on ASCII text *)
Fixpoint lstrip (s : str) : str :=
  match s with
  | c :: r => if is_ascii_space c then lstrip r else s
  | [] => []
  end.

Definition strip (s : str) : str := rev (lstrip (rev (lstrip s))).

(** [type(v).__name__] for the values the reader builds *)
Definition type_name (v : value) : str :=
  match v with
  | VNone => lit "NoneType"
  | VBool _ => lit "bool"
  | VInt _ => lit "int"
  | VFloat _ => lit "float"
  | VStr _ => lit "str"
  | VList _ => lit "list"
  | VProc _ _ _ => lit "Procedure"
  | VBuiltin _ | VOpaque _ => lit "builtin_function_or_method"
  | VStructPos | VStructCheck _ => lit "function"
  | VExn e => lit (exn_class_name (exn_cls e))
  end.

Definition index_error {S A} : M S A :=
  raise (Exn IndexError (lit "list index out of range")).

(** [re.match] of the quoted-token pattern: a double quote first and
    another one later. *)
Definition quoted_re (token : str) : bool :=
  match token with
  | c :: r => char_eqb c c_dquote && has_char c_dquote r
  | [] => false
  end.

(** [token[1:-1]] *)
Definition inner (token : str) : str := removelast (tail token).

(** The join, with a space, of the comment branch: every item has to be a
    [str]. *)
Fixpoint join_items (i : nat) (l : list value) : exn + list str :=
  match l with
  | [] => inr []
  | VStr s :: l' =>
    match join_items (S i) l' with
    | inr ss => inr (s :: ss)
    | inl e => inl e
    end
  | v :: _ =>
    inl (Exn TypeError (lit "sequence item " ++ str_of_nat i ++ lit ": expected str instance, "
                        ++ type_name v ++ lit " found"))
  end.

Section Reader.
(** [rd] is [read_from_tokens] for the recursive calls.  The token list is
    one object shared by all the calls: it is the state, and
    [tokens.pop(0)] removes its head. *)
Variable rd : M (list str) value.

(** The loop of the parenthesis branch: [while tokens[0] != ')'], then the
    [pop] of the closing parenthesis; [n] bounds the iterations. *)
Fixpoint read_list (n : nat) (l : list value) : M (list str) value :=
  match n with
  | O => out_of_fuel
  | S n' =>
    fun tokens =>
      match tokens with
      | [] => index_error tokens
      | t0 :: rest =>
        if str_eqb t0 (lit ")") then Ret (VList l) rest
        else
          (t <- rd ;;
           read_list n' (if is_str t [] then l else l ++ [t])) tokens
      end
  end.

(** The loop of the semicolon branch: up to a token that is a newline *)
Fixpoint read_comment (n : nat) (l : list value) : M (list str) value :=
  match n with
  | O => out_of_fuel
  | S n' =>
    fun tokens =>
      match tokens with
      | [] => index_error tokens
      | t0 :: rest =>
        if str_eqb t0 [c_newline] then
          match join_items 0 (l ++ [VStr t0]) with
          | inr ss =>
            Ret (VList [VStr (lit "quote"); VStr (l_restore (join [c_space] ss))]) rest
          | inl e => Raise e rest
          end
        else
          (t <- rd ;; read_comment n' (l ++ [t])) tokens
      end
  end.

Definition read_step (n : nat) : M (list str) value :=
  fun tokens =>
    match tokens with
    | [] => ccse (lit "unexpected EOF while reading") tokens
    | token :: tokens =>
      if quoted_re token then
        Ret (VList [VStr (lit "quote"); VStr (l_restore (inner token))]) tokens
      else if str_eqb (lit "(") token then read_list n [] tokens
      else if str_eqb (lit ";") token then read_comment n [VStr token] tokens
      else if str_eqb (lit ")") token then ccse (lit "unexpected )") tokens
      else
        match atom (strip token) with
        | Some v => Ret v tokens
        | None => Unsupported
        end
    end.
End Reader.

(** [read_from_tokens(tokens)]: [fuel] bounds the depth of the recursion and
    the iterations of each loop. *)
Fixpoint read_from_tokens (fuel : nat) : M (list str) value :=
  match fuel with
  | O => out_of_fuel
  | S fuel' => read_step (read_from_tokens fuel') fuel'
  end.

(** [parse]: the result carries the tokens that were left unread. *)
Definition parse (program : str) : outcome (list str) value :=
  let tokens := tokenize program in
  read_from_tokens (S (length tokens)) tokens.


(* ===================================================================== *)
(** ** Python operations on values used by the evaluator

    Error messages of built-in exceptions are those of CPython 3.10 and
    later.  An operation answers [Unsupported] on the operands that are left
    out of the model. *)

Section PyOps.
Context {S : Type}.

Definition type_error {A} (msg : str) : M S A := raise (Exn TypeError msg).
Definition value_error {A} (msg : str) : M S A := raise (Exn ValueError msg).

(** [int] and [bool] operands as integers *)
Definition as_int (v : value) : option Z :=
  match v with
  | VInt z => Some z
  | VBool b => Some (if b then 1 else 0)
  | _ => None
  end.

(** [bool(v)]; [None] where the model does not know *)
Definition truthy (v : value) : option bool :=
  match v with
  | VNone => Some false
  | VBool b => Some b
  | VInt z => Some (negb (z =? 0))
  | VFloat _ | VOpaque _ => None
  | VStr s => Some (negb (str_eqb s []))
  | VList l => Some (match l with [] => false | _ => true end)
  | VProc _ _ _ | VBuiltin _ | VStructPos | VStructCheck _ | VExn _ => Some true
  end.

(** [a == b]; [None] where the model does not know (floats, opaque values,
    identity of objects) *)
Definition plain (v : value) : bool :=
  match v with
  | VNone | VBool _ | VInt _ | VStr _ | VList _ => true
  | _ => false
  end.

(** Procedures, functions and exception objects: equal to themselves only *)
Definition by_identity (v : value) : bool :=
  match v with
  | VProc _ _ _ | VBuiltin _ | VStructPos | VStructCheck _ | VExn _ => true
  | _ => false
  end.

Fixpoint py_eq (a b : value) : option bool :=
  match a, b with
  | VNone, VNone => Some true
  | VStr x, VStr y => Some (str_eqb x y)
  | VList x, VList y =>
    if negb (length x =? length y)%nat then Some false
    else
      (fix eq_list (x y : list value) {struct x} : option bool :=
         match x, y with
         | u :: x', v :: y' =>
           match py_eq u v with
           | Some true => eq_list x' y'
           | r => r
           end
         | _, _ => Some true
         end) x y
  | _, _ =>
    match as_int a, as_int b with
    | Some x, Some y => Some (x =? y)
    | _, _ =>
      if (plain a && (plain b || by_identity b)) || (by_identity a && plain b)
      then Some false else None
    end
  end.

(** [type(v).__name__], where it does not depend on the builtin *)
Definition type_name_opt (v : value) : option str :=
  match v with
  | VBuiltin _ | VOpaque _ | VExn _ => None
  | _ => Some (type_name v)
  end.

(** [seq[i]] for an integer [i] on a sequence of length [length l] *)
Definition index_in {A} (l : list A) (i : Z) : option A :=
  let n := Z.of_nat (length l) in
  if (0 <=? i) && (i <? n) then l !! Z.to_nat i
  else if (- n <=? i) && (i <? 0) then l !! Z.to_nat (i + n)
  else None.

(** [v[i]] *)
Definition py_getitem (v i : value) : M S value :=
  match v with
  | VList l =>
    match as_int i with
    | Some z =>
      match index_in l z with
      | Some a => ret a
      | None => index_error
      end
    | None =>
      match type_name_opt i with
      | Some t => type_error (lit "list indices must be integers or slices, not " ++ t)
      | None => unsupported
      end
    end
  | VStr s =>
    match as_int i with
    | Some z =>
      match index_in s z with
      | Some c => ret (VStr [c])
      | None => raise (Exn IndexError (lit "string index out of range"))
      end
    | None => unsupported
    end
  | VNone | VBool _ | VInt _ | VFloat _ | VProc _ _ _ =>
    type_error (lit "'" ++ type_name v ++ lit "' object is not subscriptable")
  | _ => unsupported
  end.

(** A slice bound: an integer, or [None] for an open end *)
Definition slice_bound (v : option value) : option (option Z) :=
  match v with
  | None | Some VNone => Some None
  | Some b =>
    match as_int b with
    | Some z => Some (Some z)
    | None => None
    end
  end.

Definition clamp (n : Z) (b : Z) : Z :=
  let b := if b <? 0 then b + n else b in
  Z.max 0 (Z.min n b).

(** [l[lo:hi]] *)
Definition slice {A} (l : list A) (lo hi : option Z) : list A :=
  let n := Z.of_nat (length l) in
  let a := match lo with Some z => clamp n z | None => 0 end in
  let b := match hi with Some z => clamp n z | None => n end in
  take (Z.to_nat (b - a)) (drop (Z.to_nat a) l).

(** [v[lo:hi]] *)
Definition py_slice (v : value) (lo hi : option value) : M S value :=
  match v with
  | VList _ | VStr _ =>
    match slice_bound lo, slice_bound hi with
    | Some a, Some b =>
      match v with
      | VList l => ret (VList (slice l a b))
      | VStr s => ret (VStr (slice s a b))
      | _ => unsupported
      end
    | _, _ =>
      type_error (lit "slice indices must be integers or None or have an __index__ method")
    end
  | VNone | VBool _ | VInt _ | VFloat _ | VProc _ _ _ =>
    type_error (lit "'" ++ type_name v ++ lit "' object is not subscriptable")
  | _ => unsupported
  end.

(** [len(v)] *)
Definition py_len (v : value) : M S Z :=
  match v with
  | VList l => ret (Z.of_nat (length l))
  | VStr s => ret (Z.of_nat (length s))
  | VNone | VBool _ | VInt _ | VFloat _ | VProc _ _ _ =>
    type_error (lit "object of type '" ++ type_name v ++ lit "' has no len()")
  | _ => unsupported
  end.

(** Whether [repr] of a string is the string between single quotes:
    printable ASCII without quote and backslash *)
Definition plain_char (c : char) : bool :=
  (32 <=? c)%N && (c <=? 126)%N && negb (char_eqb c 39%N) && negb (char_eqb c c_backslash).

(** [repr(v)]; [None] where the text is not modelled *)
Fixpoint py_repr (v : value) : option str :=
  match v with
  | VNone => Some (lit "None")
  | VBool b => Some (if b then lit "True" else lit "False")
  | VInt z => Some (str_of_Z z)
  | VStr s => if forallb plain_char s then Some (lit "'" ++ s ++ lit "'") else None
  | VList l =>
    (fix items (l : list value) : option (list str) :=
       match l with
       | [] => Some []
       | a :: l' =>
         match py_repr a, items l' with
         | Some r, Some rs => Some (r :: rs)
         | _, _ => None
         end
       end) l ≫= fun rs => Some (lit "[" ++ join (lit ", ") rs ++ lit "]")
  | _ => None
  end.

(** [str(v)] *)
Definition py_str (v : value) : option str :=
  match v with
  | VStr s => Some s
  | VExn e => Some (exn_msg e)
  | _ => py_repr v
  end.

Definition lift_opt {A} (o : option A) : M S A :=
  match o with
  | Some a => ret a
  | None => unsupported
  end.

End PyOps.

(* ===================================================================== *)
(** ** Environments: [Env]

    An [Env] is a dictionary with three attributes.  Environments are
    referred to by address in a heap, so that a procedure and the frames
    created from it share the environment they were defined in.  Address 0 is
    the module-level [global_env]. *)

Record Env := mkEnv {
  vars : gmap str value;
  outer : option addr;
  timestamp : Z;
  max_runtime : Z
}.

(** [time()] reads an external clock: [clock st n] is the value of the n-th
    reading and [ticks st] counts the readings made so far.  Time is counted
    in whole units, whatever the unit. *)
Record state := mkState {
  heap : list Env;
  clock : nat -> Z;
  ticks : nat;
  stdout : list str
}.

Definition global_env : addr := 0%nat.

Definition set_heap (h : list Env) (st : state) : state :=
  mkState h (clock st) (ticks st) (stdout st).

Definition time : M state Z :=
  fun st => Ret (clock st (ticks st)) (mkState (heap st) (clock st) (S (ticks st)) (stdout st)).

(** Python's [print]: a line on the standard output. *)
Definition py_print (line : str) : M state unit :=
  fun st => Ret tt (mkState (heap st) (clock st) (ticks st) (stdout st ++ [line])).

Definition get_env (a : addr) : M state Env :=
  fun st =>
    match heap st !! a with
    | Some e => Ret e st
    | None => Unsupported
    end.

Definition env_insert (k : str) (v : value) (e : Env) : Env :=
  mkEnv (<[k := v]> (vars e)) (outer e) (timestamp e) (max_runtime e).

(** [env[k] = v] for a string key *)
Definition env_set (a : addr) (k : str) (v : value) : M state unit :=
  fun st =>
    match heap st !! a with
    | Some e => Ret tt (set_heap (<[a := env_insert k v e]> (heap st)) st)
    | None => Unsupported
    end.

(** [env[key] = v]: a list is not hashable; keys that are not strings are
    left out of the model. *)
Definition set_item (a : addr) (key v : value) : M state unit :=
  match key with
  | VStr k => env_set a k v
  | VList _ => raise (Exn TypeError (lit "unhashable type: 'list'"))
  | _ => unsupported
  end.

(** [self.update(zip(parms, args))]: a later pair overwrites an earlier one. *)
Definition update (m : gmap str value) (pairs : list (str * value)) : gmap str value :=
  fold_left (fun m '(k, v) => <[k := v]> m) pairs m.

(** The truth value of an [Env], a dictionary: false when it has no entry. *)
Definition env_truthy (e : Env) : bool :=
  match map_to_list (vars e) with
  | [] => false
  | _ :: _ => true
  end.

Inductive found :=
  | Found (a : addr)
  | Undefined
  | Broken.

(** [Env.find]: the innermost environment where [var] appears.  The walk goes
    on to [self.outer] when [self.outer] is true.  [n] bounds the length of
    the chain; [Broken] is a chain that is longer or leaves the heap. *)
Fixpoint find_in (n : nat) (h : list Env) (self : addr) (var : str) : found :=
  match n with
  | O => Broken
  | S n' =>
    match h !! self with
    | None => Broken
    | Some e =>
      match vars e !! var with
      | Some _ => Found self
      | None =>
        match outer e with
        | None => Undefined
        | Some o =>
          match h !! o with
          | None => Broken
          | Some eo => if env_truthy eo then find_in n' h o var else Undefined
          end
        end
      end
    end
  end.

Definition find (self : addr) (var : str) : M state addr :=
  fun st =>
    match find_in (S (length (heap st))) (heap st) self var with
    | Found a => Ret a st
    | Undefined => ccse (lit "undefined var " ++ var) st
    | Broken => Unsupported
    end.

(** [env.find(var)[var]] *)
Definition lookup_var (env : addr) (var : str) : M state value :=
  a <- find env var ;;
  e <- get_env a ;;
  lift_opt (vars e !! var).

(** [Env(parms, args, outer)]: the new environment is given the next free
    address. *)
Definition new_env (pairs : list (str * value)) (outer : addr) : M state addr :=
  t <- time ;;
  fun st =>
    Ret (length (heap st))
        (set_heap (heap st ++ [mkEnv (update ∅ pairs) (Some outer) t 0]) st).

(* ===================================================================== *)
(** ** [transcode] *)

Definition def_code : str := lit "ABCDEFGHIJKLMabcdefghijklmNOPQRSTUVWXYZnopqrstuvwxyz".

(** The named alphabets, as code points, in the order of the source. *)
Definition alt_code : list (str * str) :=
  [
    (lit "rot13",
     [78; 79; 80; 81; 82; 83; 84; 85; 86; 87; 88; 89; 90; 110; 111; 112; 113; 114; 115; 116;
      117; 118; 119; 120; 121; 122; 65; 66; 67; 68; 69; 70; 71; 72; 73; 74; 75; 76; 77; 97;
      98; 99; 100; 101; 102; 103; 104; 105; 106; 107; 108; 109]%N);
    (lit "circled",
     [9398; 9399; 9400; 9401; 9402; 9403; 9404; 9405; 9406; 9407; 9408; 9409; 9410; 9424;
      9425; 9426; 9427; 9428; 9429; 9430; 9431; 9432; 9433; 9434; 9435; 9436; 9411; 9412;
      9413; 9414; 9415; 9416; 9417; 9418; 9419; 9420; 9421; 9422; 9423; 9437; 9438; 9439;
      9440; 9441; 9442; 9443; 9444; 9445; 9446; 9447; 9448; 9449]%N);
    (lit "circled_neg",
     [127312; 127313; 127314; 127315; 127316; 127317; 127318; 127319; 127320; 127321;
      127322; 127323; 127324; 127312; 127313; 127314; 127315; 127316; 127317; 127318;
      127319; 127320; 127321; 127322; 127323; 127324; 127325; 127326; 127327; 127328;
      127329; 127330; 127331; 127332; 127333; 127334; 127335; 127336; 127337; 127325;
      127326; 127327; 127328; 127329; 127330; 127331; 127332; 127333; 127334; 127335;
      127336; 127337]%N);
    (lit "fwidth",
     [65313; 65314; 65315; 65316; 65317; 65318; 65319; 65320; 65321; 65322; 65323; 65324;
      65325; 65345; 65346; 65347; 65348; 65349; 65350; 65351; 65352; 65353; 65354; 65355;
      65356; 65357; 65326; 65327; 65328; 65329; 65330; 65331; 65332; 65333; 65334; 65335;
      65336; 65337; 65338; 65358; 65359; 65360; 65361; 65362; 65363; 65364; 65365; 65366;
      65367; 65368; 65369; 65370]%N);
    (lit "mbold",
     [119808; 119809; 119810; 119811; 119812; 119813; 119814; 119815; 119816; 119817;
      119818; 119819; 119820; 119834; 119835; 119836; 119837; 119838; 119839; 119840;
      119841; 119842; 119843; 119844; 119845; 119846; 119821; 119822; 119823; 119824;
      119825; 119826; 119827; 119828; 119829; 119830; 119831; 119832; 119833; 119847;
      119848; 119849; 119850; 119851; 119852; 119853; 119854; 119855; 119856; 119857;
      119858; 119859]%N);
    (lit "mbolditalic",
     [119912; 119913; 119914; 119915; 119916; 119917; 119918; 119919; 119920; 119921;
      119922; 119923; 119924; 119938; 119939; 119940; 119941; 119942; 119943; 119944;
      119945; 119946; 119947; 119948; 119949; 119950; 119925; 119926; 119927; 119928;
      119929; 119930; 119931; 119932; 119933; 119934; 119935; 119936; 119937; 119951;
      119952; 119953; 119954; 119955; 119956; 119957; 119958; 119959; 119960; 119961;
      119962; 119963]%N);
    (lit "frakturbold",
     [120172; 120173; 120174; 120175; 120176; 120177; 120178; 120179; 120180; 120181;
      120182; 120183; 120184; 120198; 120199; 120200; 120201; 120202; 120203; 120204;
      120205; 120206; 120207; 120208; 120209; 120210; 120185; 120186; 120187; 120188;
      120189; 120190; 120191; 120192; 120193; 120194; 120195; 120196; 120197; 120211;
      120212; 120213; 120214; 120215; 120216; 120217; 120218; 120219; 120220; 120221;
      120222; 120223]%N);
    (lit "fraktur",
     [120068; 120069; 8493; 120071; 120072; 120073; 120074; 8460; 8465; 120077; 120078;
      120079; 120080; 120094; 120095; 120096; 120097; 120098; 120099; 120100; 120101;
      120102; 120103; 120104; 120105; 120106; 120081; 120082; 120083; 120084; 8476; 120086;
      120087; 120088; 120089; 120090; 120091; 120092; 8488; 120107; 120108; 120109; 120110;
      120111; 120112; 120113; 120114; 120115; 120116; 120117; 120118; 120119]%N);
    (lit "scriptbold",
     [120016; 120017; 120018; 120019; 120020; 120021; 120022; 120023; 120024; 120025;
      120026; 120027; 120028; 120042; 120043; 120044; 120045; 120046; 120047; 120048;
      120049; 120050; 120051; 120052; 120053; 120054; 120029; 120030; 120031; 120032;
      120033; 120034; 120035; 120036; 120037; 120038; 120039; 120040; 120041; 120055;
      120056; 120057; 120058; 120059; 120060; 120061; 120062; 120063; 120064; 120065;
      120066; 120067]%N);
    (lit "script",
     [119964; 119861; 119966; 119967; 119864; 119865; 119970; 119867; 119868; 119973;
      119974; 119871; 119872; 119990; 119991; 119992; 119993; 119890; 119995; 119892;
      119997; 119998; 119999; 120000; 120001; 120002; 119977; 119978; 119979; 119980;
      119877; 119982; 119983; 119984; 119985; 119986; 119987; 119988; 119989; 120003;
      119900; 120005; 120006; 120007; 120008; 120009; 120010; 120011; 120012; 120013;
      120014; 120015]%N);
    (lit "sans",
     [120224; 120225; 120226; 120227; 120228; 120229; 120230; 120231; 120232; 120233;
      120234; 120235; 120236; 120250; 120251; 120252; 120253; 120254; 120255; 120256;
      120257; 120258; 120259; 120260; 120261; 120262; 120237; 120238; 120239; 120240;
      120241; 120242; 120243; 120244; 120245; 120246; 120247; 120248; 120249; 120263;
      120264; 120265; 120266; 120267; 120268; 120269; 120270; 120271; 120272; 120273;
      120274; 120275]%N);
    (lit "sansbold",
     [120276; 120277; 120278; 120279; 120280; 120281; 120282; 120283; 120284; 120285;
      120286; 120287; 120288; 120302; 120303; 120304; 120305; 120306; 120307; 120308;
      120309; 120310; 120311; 120312; 120313; 120314; 120289; 120290; 120291; 120292;
      120293; 120294; 120295; 120296; 120297; 120298; 120299; 120300; 120301; 120315;
      120316; 120317; 120318; 120319; 120320; 120321; 120322; 120323; 120324; 120325;
      120326; 120327]%N);
    (lit "sansbolditalic",
     [120380; 120381; 120382; 120383; 120384; 120385; 120386; 120387; 120388; 120389;
      120390; 120391; 120392; 120406; 120407; 120408; 120409; 120410; 120411; 120412;
      120413; 120414; 120415; 120416; 120417; 120418; 120393; 120394; 120395; 120396;
      120397; 120398; 120399; 120400; 120401; 120402; 120403; 120404; 120405; 120419;
      120420; 120421; 120422; 120423; 120424; 120425; 120426; 120427; 120428; 120429;
      120430; 120431]%N);
    (lit "sansitalic",
     [120328; 120329; 120330; 120331; 120332; 120333; 120334; 120335; 120336; 120337;
      120338; 120339; 120340; 120354; 120355; 120356; 120357; 120358; 120359; 120360;
      120361; 120362; 120363; 120364; 120365; 120366; 120341; 120342; 120343; 120344;
      120345; 120346; 120347; 120348; 120349; 120350; 120351; 120352; 120353; 120367;
      120368; 120369; 120370; 120371; 120372; 120373; 120374; 120375; 120376; 120377;
      120378; 120379]%N);
    (lit "parenthesized",
     [9372; 9373; 9374; 9375; 9376; 9377; 9378; 9379; 9380; 9381; 9382; 9383; 9384; 9372;
      9373; 9374; 9375; 9376; 9377; 9378; 9379; 9380; 9381; 9382; 9383; 9384; 9385; 9386;
      9387; 9388; 9389; 9390; 9391; 9392; 9393; 9394; 9395; 9396; 9397; 9385; 9386; 9387;
      9388; 9389; 9390; 9391; 9392; 9393; 9394; 9395; 9396; 9397]%N);
    (lit "doublestruck",
     [120120; 120121; 8450; 120123; 120124; 120125; 120126; 8461; 120128; 120129; 120130;
      120131; 120132; 120146; 120147; 120148; 120149; 120150; 120151; 120152; 120153;
      120154; 120155; 120156; 120157; 120158; 8469; 120134; 8473; 8474; 8477; 120138;
      120139; 120140; 120141; 120142; 120143; 120144; 8484; 120159; 120160; 120161; 120162;
      120163; 120164; 120165; 120166; 120167; 120168; 120169; 120170; 120171]%N);
    (lit "region",
     [127462; 127463; 127464; 127465; 127466; 127467; 127468; 127469; 127470; 127471;
      127472; 127473; 127474; 127462; 127463; 127464; 127465; 127466; 127467; 127468;
      127469; 127470; 127471; 127472; 127473; 127474; 127475; 127476; 127477; 127478;
      127479; 127480; 127481; 127482; 127483; 127484; 127485; 127486; 127487; 127475;
      127476; 127477; 127478; 127479; 127480; 127481; 127482; 127483; 127484; 127485;
      127486; 127487]%N);
    (lit "squared",
     [127280; 127281; 127282; 127283; 127284; 127285; 127286; 127287; 127288; 127289;
      127290; 127291; 127292; 127280; 127281; 127282; 127283; 127284; 127285; 127286;
      127287; 127288; 127289; 127290; 127291; 127292; 127293; 127294; 127295; 127296;
      127297; 127298; 127299; 127300; 127301; 127302; 127303; 127304; 127305; 127293;
      127294; 127295; 127296; 127297; 127298; 127299; 127300; 127301; 127302; 127303;
      127304; 127305]%N);
    (lit "squared_neg",
     [127344; 127345; 127346; 127347; 127348; 127349; 127350; 127351; 127352; 127353;
      127354; 127355; 127356; 127344; 127345; 127346; 127347; 127348; 127349; 127350;
      127351; 127352; 127353; 127354; 127355; 127356; 127357; 127358; 127359; 127360;
      127361; 127362; 127363; 127364; 127365; 127366; 127367; 127368; 127369; 127357;
      127358; 127359; 127360; 127361; 127362; 127363; 127364; 127365; 127366; 127367;
      127368; 127369]%N);
    (lit "subscript",
     [8336; 66; 67; 68; 8337; 70; 71; 8341; 7522; 11388; 8342; 8343; 8344; 8336; 98; 99;
      100; 8337; 102; 103; 8341; 7522; 11388; 8342; 8343; 8344; 8345; 8338; 8346; 81; 7523;
      8347; 8348; 7524; 7525; 87; 8339; 89; 90; 8345; 8338; 8346; 113; 7523; 8347; 8348;
      7524; 7525; 119; 8339; 121; 122]%N);
    (lit "superscript",
     [7468; 7470; 7580; 7472; 7473; 7584; 7475; 7476; 7477; 7478; 7479; 7480; 7481; 7491;
      7495; 7580; 7496; 7497; 7584; 7501; 688; 8305; 690; 7503; 737; 7504; 7482; 7484; 7486;
      81; 7487; 738; 7488; 7489; 11389; 7490; 739; 696; 7611; 8319; 7506; 7510; 113; 691;
      738; 7511; 7512; 7515; 695; 739; 696; 7611]%N);
    (lit "inverted",
     [592; 113; 596; 112; 477; 607; 387; 613; 305; 638; 670; 1503; 623; 592; 113; 596; 112;
      477; 607; 387; 613; 305; 638; 670; 1503; 623; 117; 111; 100; 98; 633; 115; 647; 110;
      66337; 653; 120; 654; 122; 117; 111; 100; 98; 633; 115; 647; 110; 652; 653; 120; 654;
      122]%N);
    (lit "reversed",
     [65; 100; 8579; 98; 398; 43003; 71; 72; 73; 74; 75; 8515; 77; 65; 100; 8580; 98; 600;
      43003; 103; 72; 105; 106; 107; 108; 109; 7438; 79; 43004; 112; 7449; 42564; 84; 85;
      86; 87; 88; 89; 90; 7438; 111; 113; 112; 7449; 42565; 84; 85; 118; 119; 120; 89; 122]%N);
    (lit "smallcaps",
     [65; 66; 67; 68; 69; 70; 71; 72; 73; 74; 75; 76; 77; 7424; 665; 7428; 7429; 7431;
      42800; 610; 668; 618; 7434; 7435; 671; 7437; 78; 79; 80; 81; 82; 83; 84; 85; 86; 87;
      88; 89; 90; 628; 7439; 7465; 113; 640; 42801; 7451; 7452; 7456; 7457; 120; 121; 7458]%N);
    (lit "weird1",
     [4621; 4876; 4653; 4821; 4735; 4731; 4759; 4824; 4878; 4875; 4885; 4648; 4896; 4621;
      4876; 4653; 4821; 4735; 4731; 4759; 4824; 4878; 4875; 4885; 4648; 4896; 4781; 4816;
      4840; 4818; 4842; 4752; 4949; 4609; 4608; 4640; 4664; 4611; 4874; 4781; 4816; 4840;
      4818; 4842; 4752; 4949; 4609; 4608; 4640; 4664; 4611; 4874]%N);
    (lit "weird2",
     [1044; 1041; 1152; 8577; 1028; 70; 1041; 1053; 1030; 1032; 1036; 76; 1052; 1072; 1098;
      1089; 8577; 1101; 102; 1041; 1026; 1110; 1112; 1082; 108; 1084; 1048; 1060; 1056; 81;
      1071; 1029; 1043; 1062; 86; 1065; 1046; 1063; 90; 1080; 1086; 1088; 113; 1107; 1109;
      1090; 1094; 118; 1096; 1093; 1038; 122]%N);
    (lit "weird3",
     [3588; 3666; 392; 599; 65225; 2367; 65261; 614; 1649; 65245; 5845; 621; 3667; 3588;
      3666; 392; 599; 65225; 2367; 65261; 614; 1649; 65245; 5845; 621; 3667; 3585; 1147;
      961; 1785; 636; 3619; 1351; 2730; 1783; 3613; 3595; 1509; 1401; 3585; 1147; 961; 1785;
      636; 3619; 1351; 2730; 1783; 3613; 3595; 1509; 1401]%N);
    (lit "weird4",
     [945; 1074; 162; 8706; 1108; 402; 65261; 1085; 953; 1504; 1082; 8467; 1084; 945; 1074;
      162; 8706; 1108; 402; 65261; 1085; 953; 1504; 1082; 8467; 1084; 951; 963; 961; 1785;
      1103; 1109; 1090; 965; 957; 969; 967; 1091; 1401; 951; 963; 961; 1785; 1103; 1109;
      1090; 965; 957; 969; 967; 1091; 1401]%N);
    (lit "weird5",
     [3588; 3666; 962; 3668; 1108; 358; 65262; 1106; 3648; 1503; 1082; 621; 3667; 3588;
      3666; 962; 3668; 1108; 358; 65262; 1106; 3648; 1503; 1082; 621; 3667; 3616; 3663;
      1511; 7907; 1075; 3619; 1351; 3618; 1513; 3628; 1488; 1509; 1401; 3616; 3663; 1511;
      7907; 1075; 3619; 1351; 3618; 1513; 3628; 1488; 1509; 1401]%N);
    (lit "weird6",
     [65425; 20035; 99; 100; 20039; 65399; 103; 12435; 65417; 65420; 12474; 65434; 65462;
      65425; 20035; 99; 100; 20039; 65399; 103; 12435; 65417; 65420; 12474; 65434; 65462;
      20992; 111; 65393; 113; 23610; 19970; 65394; 117; 8730; 119; 65426; 65432; 20057;
      20992; 111; 65393; 113; 23610; 19970; 65394; 117; 8730; 119; 65426; 65432; 20057]%N);
    (lit "sbancient",
     [57344; 57345; 57346; 57347; 57348; 57349; 57350; 57351; 57352; 57353; 57354; 57355;
      57356; 57344; 57345; 57346; 57347; 57348; 57349; 57350; 57351; 57352; 57353; 57354;
      57355; 57356; 57357; 57358; 57359; 57360; 57361; 57362; 57363; 57364; 57365; 57366;
      57367; 57368; 57369; 57357; 57358; 57359; 57360; 57361; 57362; 57363; 57364; 57365;
      57366; 57367; 57368; 57369]%N)
  ].

(** [str.maketrans(a, b)] for two strings of the same length, as the list of
    its pairs: a later pair for the same character overwrites an earlier
    one, so the table is searched from the end. *)
Definition maketrans (a b : str) : list (char * char) := rev (zip a b).

Fixpoint assoc (c : char) (tbl : list (char * char)) : option char :=
  match tbl with
  | [] => None
  | (k, v) :: tbl' => if char_eqb c k then Some v else assoc c tbl'
  end.

(** [string.translate(table)] *)
Definition translate (tbl : list (char * char)) (string : str) : str :=
  map (fun c => match assoc c tbl with Some d => d | None => c end) string.

Fixpoint lookup_name (name : str) (tbl : list (str * str)) : option str :=
  match tbl with
  | [] => None
  | (k, v) :: tbl' => if str_eqb name k then Some v else lookup_name name tbl'
  end.

Definition transcode_help : str :=
  lit "```" ++ c_newline :: lit "AVAILABLE TRANSCODINGS:" ++ c_newline ::
  join [c_newline] (map fst alt_code) ++ lit "```".

Definition transcode_unknown (name : str) : str :=
  name ++ lit " is not a supported transcoding. Use (transcode " ++ c_dquote :: lit "help"
  ++ c_dquote :: lit ") to get a list of available transcodings.".

Definition transcode_length_msg : str :=
  lit "transcode: To and From transcoding patterns must be the same length.".

Section Transcode.
Context {S : Type}.

(** The last line of [transcode]: the translation of a string. *)
Definition transcode_with (string : value) (from to : str) : M S value :=
  if negb (length from =? length to)%nat then
    value_error (lit "the first two maketrans arguments must have equal length")
  else
    match string with
    | VStr s => ret (VStr (translate (maketrans from to) s))
    | VNone | VBool _ | VInt _ | VFloat _ | VList _ | VProc _ _ _ =>
      raise (Exn AttributeError
                 (lit "'" ++ type_name string ++ lit "' object has no attribute 'translate'"))
    | _ => unsupported
    end.

(** [transcode(string, *args)].  Arguments that are not strings are left
    out of the model, and so is a name that is not ASCII. *)
Definition transcode (string : value) (args : list value) : M S value :=
  match args with
  | [] => ret string
  | [VStr a] =>
    if negb (forallb is_ascii a) then unsupported
    else if str_eqb (lower a) (lit "help") then ret (VStr transcode_help)
    else
      match lookup_name (lower a) alt_code with
      | None => ccse (transcode_unknown (lower a))
      | Some to => transcode_with string def_code to
      end
  | VStr from :: VStr to :: _ =>
    if negb (length from =? length to)%nat then ccse transcode_length_msg
    else transcode_with string from to
  | _ => unsupported
  end.

End Transcode.

(* ===================================================================== *)
(** ** The standard library: the modelled entries of [standard_env] *)

Section Builtins.
Context {S : Type}.

(** [a < b] on integers and on strings (by code point) *)
Fixpoint str_ltb (a b : str) : bool :=
  match a, b with
  | _, [] => false
  | [], _ :: _ => true
  | x :: a', y :: b' => (x <? y)%N || (char_eqb x y && str_ltb a' b')
  end.

Definition py_lt (a b : value) : option bool :=
  match as_int a, as_int b with
  | Some x, Some y => Some (x <? y)
  | _, _ =>
    match a, b with
    | VStr x, VStr y => Some (str_ltb x y)
    | _, _ => None
    end
  end.

Definition py_le (a b : value) : option bool :=
  match as_int a, as_int b with
  | Some x, Some y => Some (x <=? y)
  | _, _ =>
    match a, b with
    | VStr x, VStr y => Some (negb (str_ltb y x))
    | _, _ => None
    end
  end.

Definition arith (f : Z -> Z -> Z) (a b : value) : M S value :=
  match as_int a, as_int b with
  | Some x, Some y => ret (VInt (f x y))
  | _, _ => unsupported
  end.

Definition compare (f : value -> value -> option bool) (a b : value) : M S value :=
  b <- lift_opt (f a b) ;; ret (VBool b).

(** A call of a builtin with its evaluated arguments.  A call with another
    number of arguments than the function takes, and operands of other
    types than the ones listed, are left out of the model. *)
Definition call_builtin (f : builtin) (args : list value) : M S value :=
  match f, args with
  | BAdd, [VStr x; VStr y] => ret (VStr (x ++ y))
  | BAdd, [VList x; VList y] => ret (VList (x ++ y))
  | BAdd, [a; b] => arith Z.add a b
  | BSub, [a; b] => arith Z.sub a b
  | BMul, [a; b] => arith Z.mul a b
  | BGt, [a; b] => compare (fun a b => py_lt b a) a b
  | BLt, [a; b] => compare py_lt a b
  | BGe, [a; b] => compare (fun a b => py_le b a) a b
  | BLe, [a; b] => compare py_le a b
  | BEq, [a; b] => compare py_eq a b
  | BNe, [a; b] => compare (fun a b => negb <$> py_eq a b) a b
  | BNot, [a] => b <- lift_opt (truthy a) ;; ret (VBool (negb b))
  | BItem, [x; y] => py_getitem y x
  | BCar, [x] => py_getitem x (VInt 0)
  | BCdr, [x] => py_slice x (Some (VInt 1)) None
  | BCons, [x; VList y] => ret (VList (x :: y))
  | BDo, _ :: _ => lift_opt (last args)
  | BDo, [] => raise (Exn IndexError (lit "tuple index out of range"))
  | BLen, [x] => n <- py_len x ;; ret (VInt n)
  | BList, _ => ret (VList args)
  | BPass, _ => ret VNone
  | BNull, [x] => compare py_eq x (VList [])
  | BTranscode, string :: args => transcode string args
  | _, _ => unsupported
  end.

End Builtins.

(** The names of CPython's [math] module (up to 3.13): [vars(math)] is put
    into the environment first; none of these entries is modelled. *)
Definition math_names : list str :=
  map lit
    ["__name__"; "__doc__"; "__package__"; "__loader__"; "__spec__"; "__file__";
     "acos"; "acosh"; "asin"; "asinh"; "atan"; "atan2"; "atanh"; "cbrt"; "ceil"; "comb";
     "copysign"; "cos"; "cosh"; "degrees"; "dist"; "e"; "erf"; "erfc"; "exp"; "exp2";
     "expm1"; "fabs"; "factorial"; "floor"; "fma"; "fmod"; "frexp"; "fsum"; "gamma"; "gcd";
     "hypot"; "inf"; "isclose"; "isfinite"; "isinf"; "isnan"; "isqrt"; "lcm"; "ldexp";
     "lgamma"; "log"; "log10"; "log1p"; "log2"; "modf"; "nan"; "nextafter"; "perm"; "pi";
     "pow"; "prod"; "radians"; "remainder"; "sin"; "sinh"; "sqrt"; "sumprod"; "tan"; "tanh";
     "tau"; "trunc"; "ulp"]%string.

Definition opaque (name : string) : str * value := (lit name, VOpaque (lit name)).
Definition fn (name : string) (b : builtin) : str * value := (lit name, VBuiltin b).

(** The dictionary literal of [standard_env], in the order of the source. *)
Definition standard_entries : list (str * value) :=
  [ fn "+" BAdd; fn "-" BSub; fn "*" BMul; opaque "/"; opaque "//"; opaque "%";
    fn ">" BGt; fn "<" BLt; fn ">=" BGe; fn "<=" BLe; fn "==" BEq; opaque "<>";
    fn "!=" BNe;
    fn "#" BItem;
    opaque "abs";
    opaque "append";
    opaque "apply";
    fn "do" BDo;
    fn "car" BCar;
    fn "cdr" BCdr;
    fn "cons" BCons;
    opaque "is";
    opaque "in";
    fn "len" BLen;
    fn "list" BList;
    fn "l" BList;
    opaque "tolist";
    opaque "2l";
    opaque "range";
    opaque "list?";
    opaque "map";
    opaque "imap";
    opaque "sum";
    opaque "max";
    opaque "filter";
    opaque "reduce";
    opaque "sort";
    opaque "reverse";
    opaque "ireverse";
    fn "pass" BPass;
    opaque "min";
    fn "not" BNot;
    fn "null?" BNull;
    opaque "number?";
    opaque "procedure?";
    opaque "round";
    opaque "symbol?";
    opaque "assert";
    opaque "f";
    opaque "int";
    opaque "float";
    opaque "zip";
    opaque "resub";
    opaque "rematch";
    opaque "refindall";
    opaque "str";
    fn "transcode" BTranscode;
    opaque "randint";
    opaque "choice";
    opaque "eztime";
    opaque "time";
    opaque "ezchoice";
    (lit "username", VStr []);
    (lit "usernick", VStr []);
    (lit "usermention", VStr []);
    (lit "authorname", VStr []);
    (lit "authornick", VStr []);
    (lit "argstring", VStr []);
    (lit "args", VList []);
    (lit "output", VStr []) ].

(** [standard_env(max_runtime=r)], created at time [t] *)
Definition standard_env (t : Z) (r : Z) : Env :=
  mkEnv (update (update ∅ (map (fun n => (n, VOpaque n)) math_names)) standard_entries)
        None t r.

(* ===================================================================== *)
(** ** Evaluator: helpers of [lisp_eval] *)

Definition timeout_msg : str := lit "The command ran too long.".

(** The first statement of [lisp_eval]: the clock is read only when the
    environment that was passed has a budget. *)
Definition check_runtime (env : addr) : M state unit :=
  e <- get_env env ;;
  if max_runtime e =? 0 then ret tt
  else
    t <- time ;;
    if t - timestamp e >? max_runtime e then ccse timeout_msg else ret tt.

(** The pattern of the handler at the start of [t]: an opening parenthesis,
    one character or more, then a closing parenthesis, a colon and a space,
    then one character or more.  [clause_end r] looks in [r] for the three
    separating characters with a character after them; an occurrence at the
    very end of [r] leaves no room for a later one. *)
Definition clause_sep : str := Eval vm_compute in lit "): ".

Fixpoint clause_end (r : str) : bool :=
  match r with
  | [] => false
  | _ :: r' =>
    if starts_with clause_sep r then
      match drop 3 r with
      | [] => clause_end r'
      | _ :: _ => true
      end
    else clause_end r'
  end.

Definition clause_at (t : str) : bool :=
  match t with
  | c :: _ :: r => if char_eqb c c_lparen then clause_end r else false
  | _ => false
  end.

(** The last suffix of [s] where the clause pattern matches *)
Fixpoint last_clause (s : str) : option str :=
  match s with
  | [] => None
  | _ :: r =>
    match last_clause r with
    | Some t => Some t
    | None => if clause_at s then Some s else None
    end
  end.

(** Group 1 of [re.match] of the handler's pattern on [s]: one character or
    more, as many as possible, then the clause, up to the end of [s] or to a
    newline that ends [s]; the dot does not match a newline.  [None] when
    there is no match. *)
Definition trailing_clause (s : str) : option str :=
  let body := if str_eqb (drop (length s - 1) s) [c_newline] then removelast s else s in
  if has_char c_newline body then None
  else last_clause (tail body).

Definition no_group : exn :=
  Exn AttributeError (lit "'NoneType' object has no attribute 'group'").

(** The [except Exception as e] clause of [lisp_eval] *)
Definition reraise (x : value) (e : exn) : M state value :=
  msg <- (if (1500 <? length (exn_msg e))%nat then
            match trailing_clause (exn_msg e) with
            | Some t => ret (lit "..." ++ t)
            | None => raise no_group
            end
          else ret (exn_msg e)) ;;
  match x with
  | VList (h :: _) =>
    hs <- lift_opt (py_str h) ;; ccse (lit "(" ++ hs ++ lit "): " ++ msg)
  | VStr (c :: _) => ccse (lit "(" ++ [c] ++ lit "): " ++ msg)
  | VList [] | VStr [] => ccse msg
  | _ => unsupported
  end.

Definition unpack_error {A} (expected got : nat) : M state A :=
  if (got <? expected)%nat then
    value_error (lit "not enough values to unpack (expected " ++ str_of_nat expected
                 ++ lit ", got " ++ str_of_nat got ++ lit ")")
  else
    value_error (lit "too many values to unpack (expected " ++ str_of_nat expected ++ lit ")").

(** [x[i]] on the list of the form *)
Definition nth_item (xs : list value) (i : nat) : M state value :=
  match xs !! i with
  | Some v => ret v
  | None => index_error
  end.

(** [s.isdigit()] on ASCII text *)
Definition isdigit (s : str) : bool :=
  match s with
  | [] => false
  | _ => forallb is_ascii_digit s
  end.

(** [_lget(lst, *indexes)] *)
Fixpoint _lget (lst : value) (indexes : list value) : M state value :=
  match indexes with
  | [] => ret lst
  | i :: rest => v <- py_getitem lst i ;; _lget v rest
  end.

(** The pairs of [zip(parms, args)] as far as the dictionary takes them *)
Fixpoint zip_keys (ps : list value) (args : list value) : M state (list (str * value)) :=
  match ps, args with
  | p :: ps', a :: args' =>
    match p with
    | VStr k => rest <- zip_keys ps' args' ;; ret ((k, a) :: rest)
    | VList _ => type_error (lit "unhashable type: 'list'")
    | _ => unsupported
    end
  | _, _ => ret []
  end.

Definition not_iterable {A} (v : value) : M state A :=
  match v with
  | VNone | VBool _ | VInt _ | VFloat _ | VProc _ _ _ =>
    type_error (lit "'" ++ type_name v ++ lit "' object is not iterable")
  | _ => unsupported
  end.

Definition zip_parms (parms : value) (args : list value) : M state (list (str * value)) :=
  match parms with
  | VList ps => zip_keys ps args
  | VStr s => ret (zip (map (fun c => [c]) s) args)
  | _ => not_iterable parms
  end.

Definition cannot_concatenate {A} (v : value) : M state A :=
  match type_name_opt v with
  | Some t => type_error (lit "can only concatenate str (not " ++ c_dquote :: t
                          ++ c_dquote :: lit ") to str")
  | None => unsupported
  end.

(** [name + '-' + par + '-pos'] for each [par] *)
Fixpoint key_array (name : str) (pars : list value) : M state (list str) :=
  match pars with
  | [] => ret []
  | VStr par :: pars' =>
    rest <- key_array name pars' ;; ret ((name ++ lit "-" ++ par ++ lit "-pos") :: rest)
  | v :: _ => cannot_concatenate v
  end.

Definition env_update (a : addr) (pairs : list (str * value)) : M state unit :=
  fun st =>
    match heap st !! a with
    | Some e =>
      Ret tt (set_heap (<[a := mkEnv (update (vars e) pairs) (outer e) (timestamp e)
                                     (max_runtime e)]> (heap st)) st)
    | None => Unsupported
    end.

(** [make_functions(name, param, env)] *)
Definition make_functions (name param : value) (env : addr) : M state unit :=
  match name with
  | VStr nm =>
    let create := lit "make-" ++ nm in
    let check := nm ++ lit "?" in
    pars <- match param with
            | VList ps => ret ps
            | VStr s => ret (map (fun c => VStr [c]) s)
            | _ => not_iterable param
            end ;;
    let index_array := map (fun i => VInt (Z.of_nat i)) (seq 0 (length pars)) in
    keys <- key_array nm pars ;;
    env_update env (zip keys index_array) ;;;
    env_set env (nm ++ lit "-pos") VStructPos ;;;
    env_set env check (VStructCheck create) ;;;
    env_set env create (VInt (Z.of_nat (length pars)))
  | _ => cannot_concatenate name
  end.

(* ===================================================================== *)
(** ** Evaluator: [Procedure.__call__] and [lisp_eval] *)

(** The branch of the [if]/[elif] chain of [lisp_eval] that the head of a
    form selects, the tests being made in the order of the source. *)
Inductive form :=
  | FArgs | FQuote | FAccess | FIf | FDefine | FSet | FLambda | FCheckExpect
  | FCheckWithin | FMember | FStruct | FWhile | FPrint | FTry | FUnquote | FCall.

Definition classify (h : value) : form :=
  if is_str h (lit "args") then FArgs
  else if is_str h (lit "quote") then FQuote
  else if is_str h (lit ">>") then FAccess
  else if is_str h (lit "if") then FIf
  else if is_str h (lit "define") || is_str h (lit "def") then FDefine
  else if is_str h (lit ":=") then FSet
  else if is_str h (lit "lambda") then FLambda
  else if is_str h (lit "check-expect") then FCheckExpect
  else if is_str h (lit "check-within") then FCheckWithin
  else if is_str h (lit "member?") then FMember
  else if is_str h (lit "struct") then FStruct
  else if is_str h (lit "while") then FWhile
  else if is_str h (lit "print") then FPrint
  else if is_str h (lit "try") then FTry
  else if is_str h (lit "unquote") then FUnquote
  else FCall.

Definition is_opaque (v : value) : bool :=
  match v with
  | VOpaque _ => true
  | _ => false
  end.

Section Eval.
(** [rec] is [lisp_eval] for the recursive calls; [loops] bounds the number
    of iterations of a [while]. *)
Variable rec : value -> addr -> M state value.
Variable loops : nat.

(** [[lisp_eval(arg, env) for arg in l]] *)
Fixpoint eval_list (l : list value) (env : addr) : M state (list value) :=
  match l with
  | [] => ret []
  | a :: l' => v <- rec a env ;; vs <- eval_list l' env ;; ret (v :: vs)
  end.

(** The call of [proc] with the arguments [args] *)
Definition apply_value (proc : value) (args : list value) : M state value :=
  match proc with
  | VProc parms body penv =>
    (* lisp_eval(self.body, Env(self.parms, args, self.env)) *)
    pairs <- zip_parms parms args ;;
    env <- new_env pairs penv ;;
    rec body env
  | VBuiltin f => call_builtin f args
  | VStructPos =>
    match args with
    | [arr; index] => py_getitem arr index
    | _ => unsupported
    end
  | VStructCheck create =>
    match args with
    | [arr] =>
      n <- py_len arr ;;
      v <- rec (VStr create) global_env ;;
      compare py_eq (VInt n) v
    | _ => unsupported
    end
  | VOpaque _ => unsupported
  | _ => type_error (lit "'" ++ type_name proc ++ lit "' object is not callable")
  end.

(** The index list of a symbol: [int(x) if x.isdigit() else lisp_eval(x, env)] *)
Fixpoint eval_indexes (ind : list str) (env : addr) : M state (list value) :=
  match ind with
  | [] => ret []
  | x :: ind' =>
    v <- (if negb (forallb is_ascii x) || (max_str_digits <? length x)%nat then unsupported
          else if isdigit x then lift_opt (VInt <$> py_int x)
          else rec (VStr x) env) ;;
    vs <- eval_indexes ind' env ;;
    ret (v :: vs)
  end.

Definition eval_symbol (x : str) (env : addr) : M state value :=
  match split_char 58%N x with
  | l :: ind =>
    ind <- eval_indexes ind env ;;
    v <- lookup_var env l ;;
    _lget v ind
  | [] => unsupported
  end.

Definition eval_args (xs : list value) (env : addr) : M state value :=
  argstring <- lookup_var env (lit "argstring") ;;
  arglist <- lookup_var env (lit "args") ;;
  match xs with
  | [_] => ret argstring
  | [_; x1] =>
    if is_opaque x1 then unsupported
    else if is_str x1 (lit "*") then ret arglist
    else try_except_cls IndexError (py_getitem arglist x1) (ret VNone)
  | _ :: x1 :: x2 :: _ =>
    if is_opaque x1 || is_opaque x2 then unsupported
    else
      try_except_cls IndexError
        (if is_str x1 (lit "*") then py_slice arglist None (Some x2)
         else if is_str x2 (lit "*") then py_slice arglist (Some x1) None
         else py_slice arglist (Some x1) (Some x2))
        (ret (VList []))
  | [] => unsupported
  end.

Fixpoint while_loop (n : nat) (xs : list value) (env : addr) : M state value :=
  match n with
  | O => out_of_fuel
  | S n' =>
    test <- nth_item xs 1 ;;
    t <- rec test env ;;
    b <- lift_opt (truthy t) ;;
    if b then
      body <- nth_item xs 2 ;;
      rec body env ;;;
      while_loop n' xs env
    else ret VNone
  end.

(** The texts that [print] joins: [str(lisp_eval(y, env))] for each [y] *)
Fixpoint eval_strs (l : list value) (env : addr) : M state (list str) :=
  match l with
  | [] => ret []
  | y :: l' =>
    v <- rec y env ;;
    s <- lift_opt (py_str v) ;;
    ss <- eval_strs l' env ;;
    ret (s :: ss)
  end.

(** [env.find('output')['output'] += rhs]: the old text is read before
    [rhs] is computed. *)
Definition append_output (env : addr) (rhs : M state str) : M state value :=
  a <- find env (lit "output") ;;
  e <- get_env a ;;
  old <- lift_opt (vars e !! lit "output") ;;
  line <- rhs ;;
  match old with
  | VStr o => env_set a (lit "output") (VStr (o ++ line)) ;;; ret VNone
  | _ => unsupported
  end.

(** [x in container] *)
Fixpoint member_of (x : value) (l : list value) : option bool :=
  match l with
  | [] => Some false
  | a :: l' =>
    match py_eq x a with
    | Some true => Some true
    | Some false => member_of x l'
    | None => None
    end
  end.

(** The last branch: a procedure call, or the constructor of a struct when
    the head is a symbol that starts with make- *)
Definition eval_call (h : value) (xs : list value) (env : addr) : M state value :=
  proc <- rec h env ;;
  match h with
  | VStr hs =>
    if starts_with (lit "make-") hs then
      args <- eval_list (drop 2 xs) env ;;
      same <- lift_opt (py_eq (VInt (Z.of_nat (length args))) proc) ;;
      if negb same then
        ps <- lift_opt (py_str proc) ;;
        py_print (lit "TypeError: " ++ hs ++ lit " requires " ++ ps ++ lit "%d values, given "
                  ++ str_of_nat (length args)) ;;;
        ret VNone
      else
        x1 <- nth_item xs 1 ;;
        set_item env x1 (VList args) ;;;
        ret VNone
    else
      args <- eval_list (tail xs) env ;;
      apply_value proc args
  | _ =>
    args <- eval_list (tail xs) env ;;
    apply_value proc args
  end.

(** The [try] block of [lisp_eval] *)
Definition eval_form (x : value) (env : addr) : M state value :=
  match x with
  | VStr s => eval_symbol s env                   (* variable reference *)
  | VOpaque _ => unsupported
  | VList [] => index_error                       (* x[0] *)
  | VList ((h :: _) as xs) =>
    if is_opaque h then unsupported
    else
      match classify h with
      | FArgs => eval_args xs env
      | FQuote =>
        match xs with
        | [_; exp] => ret exp
        | _ => unpack_error 2 (length xs)
        end
      | FAccess =>
        a <- eval_list (tail xs) env ;;
        if (length a <? 2)%nat then index_error else unsupported
      | FIf =>
        match xs with
        | [_; test; conseq; alt] =>
          t <- rec test env ;;
          b <- lift_opt (truthy t) ;;
          rec (if b then conseq else alt) env
        | _ => unpack_error 4 (length xs)
        end
      | FDefine =>
        match xs with
        | [_; var; exp] =>
          v <- rec exp env ;;
          set_item env var v ;;;
          ret VNone
        | _ => unpack_error 3 (length xs)
        end
      | FSet =>
        match xs with
        | [_; VStr var; exp] =>
          if has_char 58%N var then unsupported
          else
            v <- rec exp env ;;
            a <- find env var ;;
            env_set a var v ;;;
            ret VNone
        | [_; _; _] => unsupported
        | _ => unpack_error 3 (length xs)
        end
      | FLambda =>
        match xs with
        | [_; parms; body] => ret (VProc parms body env)
        | _ => unpack_error 3 (length xs)
        end
      | FCheckExpect =>
        match xs with
        | [_; var; exp] =>
          a <- rec var env ;;
          b <- rec exp env ;;
          compare py_eq a b
        | _ => unpack_error 3 (length xs)
        end
      | FCheckWithin =>
        match xs with
        | [_; var; lower_bound; upper_bound] =>
          a <- rec var env ;;
          u <- rec upper_bound env ;;
          below <- lift_opt (py_le a u) ;;
          if below then
            a' <- rec var env ;;
            l <- rec lower_bound env ;;
            compare py_le l a'
          else ret (VBool false)
        | _ => unpack_error 4 (length xs)
        end
      | FMember =>
        match xs with
        | [_; var; lst] =>
          a <- rec var env ;;
          c <- rec lst env ;;
          match c, a with
          | VList l, _ => b <- lift_opt (member_of a l) ;; ret (VBool b)
          | VStr s, VStr t => ret (VBool (contains t s))
          | _, _ => unsupported
          end
        | _ => unpack_error 3 (length xs)
        end
      | FStruct =>
        match xs with
        | [_; name; params] => make_functions name params env ;;; ret VNone
        | _ => unpack_error 3 (length xs)
        end
      | FWhile => while_loop loops xs env
      | FPrint =>
        try_except_cls IndexError
          (append_output env
             (ss <- eval_strs (tail xs) env ;; ret (join [c_space] ss ++ [c_newline])))
          (append_output env (ret [c_newline]))
      | FTry =>
        match tail xs with
        | expr :: args =>
          try_except (rec expr env)
            (fun e =>
               match args with
               | alt :: _ => rec alt env
               | [] => ret (VExn e)
               end)
        | [] =>
          value_error (lit "not enough values to unpack (expected at least 1, got 0)")
        end
      | FUnquote =>
        x1 <- nth_item xs 1 ;;
        v <- rec x1 env ;;
        rec v env
      | FCall => eval_call h xs env
      end
  | _ => ret x                                    (* constant literal *)
  end.

(** One call of [lisp_eval]: the runtime check, then the [try] block under
    its handler. *)
Definition eval_step (x : value) (env : addr) : M state value :=
  check_runtime env ;;;
  try_except (eval_form x env) (reraise x).

End Eval.

(** [lisp_eval(x, env)]: [fuel] bounds the depth of the recursion and the
    number of iterations of each loop. *)
Fixpoint lisp_eval (fuel : nat) (x : value) (env : addr) {struct fuel} : M state value :=
  match fuel with
  | O => out_of_fuel
  | S fuel' => eval_step (lisp_eval fuel') fuel' x env
  end.

(** A state with the module-level [global_env] only, created at the first
    reading of the clock. *)
Definition initial_state (clock : nat -> Z) : state :=
  mkState [standard_env (clock 0%nat) 0] clock 1 [].

(* ===================================================================== *)
(** ** Definitions used in the statements *)

(** What [l_restore] does to one character *)
Definition unplace (c : char) : char :=
  if char_eqb c ph_backslash then c_backslash
  else if char_eqb c ph_dquote then c_dquote
  else if char_eqb c ph_newline then c_newline
  else c.

(** No character occurs twice in [s]. *)
Fixpoint distinct (s : str) : bool :=
  match s with
  | [] => true
  | c :: r => negb (has_char c r) && distinct r
  end.

(** Every character of [s] that occurs in [b] occurs in [a] too. *)
Definition covered (s a b : str) : bool :=
  forallb (fun c => has_char c a || negb (has_char c b)) s.

(** A reader that returns a value returns the same value when further tokens
    follow, and leaves them unread. *)
Definition ignores_rest (rd : M (list str) value) : Prop :=
  forall ts v rest extra, rd ts = Ret v rest -> rd (ts ++ extra) = Ret v (rest ++ extra).

(** More fuel does not change an outcome other than [OutOfFuel]. *)
Definition below (rd rd' : M (list str) value) : Prop :=
  forall ts, rd ts <> OutOfFuel -> rd' ts = rd ts.

(** A reader that returns has taken one token at least. *)
Definition consumes (rd : M (list str) value) : Prop :=
  forall ts v rest, rd ts = Ret v rest -> (length rest < length ts)%nat.

(** With more fuel than tokens the reader does not run out of fuel. *)
Definition fuelled (rd : M (list str) value) (b : nat) : Prop :=
  forall ts, (length ts < b)%nat -> rd ts <> OutOfFuel.

(** The text up to the next double quote, and the text after it *)
Fixpoint until_quote (t : str) : option (str * str) :=
  match t with
  | [] => None
  | d :: t' =>
    if char_eqb d c_dquote then Some ([], t')
    else match until_quote t' with
         | Some (q, rest) => Some (d :: q, rest)
         | None => None
         end
  end.

(** The longest prefix without delimiter, and the text from the delimiter *)
Fixpoint take_run (t : str) : str * str :=
  match t with
  | [] => ([], [])
  | d :: t' =>
    if is_delim d then ([], t)
    else let '(w, rest) := take_run t' in (d :: w, rest)
  end.

(** The number of double quotes of a text *)
Fixpoint quotes (s : str) : nat :=
  match s with
  | [] => 0
  | c :: r => if char_eqb c c_dquote then S (quotes r) else quotes r
  end.


(** The two syntax errors of the reader *)
Definition unexpected_rparen : exn := Exn CustomCommandSyntaxError (lit "unexpected )").
Definition unexpected_eof : exn := Exn CustomCommandSyntaxError (lit "unexpected EOF while reading").


(** The environment at [env] has no runtime budget. *)
Definition unlimited (st : state) (env : addr) : Prop :=
  exists e, heap st !! env = Some e /\ max_runtime e = 0.

(** The chain lookup of [var] from [env], as [Env.find] makes it, ends on a
    binding of [var] to [v]. *)
Definition resolves (st : state) (env : addr) (var : str) (v : value) : Prop :=
  exists a ea,
    find_in (S (length (heap st))) (heap st) env var = Found a /\
    heap st !! a = Some ea /\ vars ea !! var = Some v.

(** The value an outcome returns, and the exception it raises *)
Definition returned {S A} (o : outcome S A) : option A :=
  match o with
  | Ret a _ => Some a
  | _ => None
  end.

Definition raised {S A} (o : outcome S A) : option exn :=
  match o with
  | Raise e _ => Some e
  | _ => None
  end.

Definition final_state {S A} (o : outcome S A) : option S :=
  match o with
  | Ret _ s | Raise _ s => Some s
  | _ => None
  end.

(** The environment at address [a] in the state an outcome ends in *)
Definition env_at {A} (o : outcome state A) (a : addr) : option Env :=
  match final_state o with
  | Some s => heap s !! a
  | None => None
  end.

(** [lisp_eval(parse(program), env)] *)
Definition eval_program (fuel : nat) (program : str) (env : addr) : M state value :=
  fun st =>
    match parse program with
    | Ret x _ => lisp_eval fuel x env st
    | Raise e _ => Raise e st
    | OutOfFuel => OutOfFuel
    | Unsupported => Unsupported
    end.

(** An environment without binding and without outer environment, as
    [Env()] builds it at time [t] *)
Definition bare_env (t : Z) : Env := mkEnv ∅ None t 0.

(** The state after one reading of the clock *)
Definition tick (st : state) : state :=
  mkState (heap st) (clock st) (S (ticks st)) (stdout st).

(** The n-th reading of the clock is beyond the budget of [e]. *)
Definition expired (st : state) (e : Env) (n : nat) : Prop :=
  clock st n - timestamp e > max_runtime e.

(** The values that [lisp_eval] returns as they are *)
Definition literal (x : value) : bool :=
  match x with
  | VStr _ | VList _ | VOpaque _ => false
  | _ => true
  end.

(** The environment [e] after [make_functions(name, param, env)], for a
    name [nm] and the parameter names [ps] *)
Definition struct_env (nm : str) (ps : list str) (e : Env) : Env :=
  env_insert (lit "make-" ++ nm) (VInt (Z.of_nat (length ps)))
    (env_insert (nm ++ lit "?") (VStructCheck (lit "make-" ++ nm))
       (env_insert (nm ++ lit "-pos") VStructPos
          (mkEnv (update (vars e)
                    (zip (map (fun p => nm ++ lit "-" ++ p ++ lit "-pos") ps)
                         (map (fun i => VInt (Z.of_nat i)) (seq 0 (length ps)))))
                 (outer e) (timestamp e) (max_runtime e)))).

(* ===================================================================== *)
(** ** Definitions used in the statements on the rest of the module *)

From Stdlib Require Import DecimalPos DecimalZ.

(** The escape sequence that a placeholder character stands for *)
Definition unescape_char (c : char) : str :=
  if char_eqb c ph_backslash then [c_backslash; c_backslash]
  else if char_eqb c ph_dquote then [c_backslash; c_dquote]
  else if char_eqb c ph_newline then [c_backslash; c_n]
  else [c].

(** The text with every placeholder character written back as its escape
    sequence *)
Definition unescape (s : str) : str := flat_map unescape_char s.

(** The three shapes of a token of [tokenize]: a parenthesis, a text between
    two double quotes that holds no other double quote, and a run that is not
    empty and holds none of the four delimiters. *)
Definition quoted_token (t : str) : bool :=
  match t with
  | c :: r =>
    char_eqb c c_dquote &&
    match rev r with
    | d :: q => char_eqb d c_dquote && negb (has_char c_dquote q)
    | [] => false
    end
  | [] => false
  end.

Definition no_delim (w : str) : bool := forallb (fun c => negb (is_delim c)) w.

Definition run_token (t : str) : bool :=
  match t with
  | [] => false
  | _ :: _ => no_delim t
  end.

Definition token_ok (t : str) : bool :=
  str_eqb t (lit "(") || str_eqb t (lit ")") || quoted_token t || run_token t.

(** The characters of the decimal text of an integer *)
Definition int_char (c : char) : bool := is_ascii_digit c || char_eqb c 45%N.

(** The tokens a value is written with: the decimal text of an integer, the
    text of a symbol, and the items of a list between parentheses *)
Fixpoint show (v : value) : list str :=
  match v with
  | VInt z => [str_of_Z z]
  | VStr s => [s]
  | VList l => lit "(" :: flat_map show l ++ [lit ")"]
  | _ => []
  end.

(** The text a value is written with: the items of a list stand between
    parentheses, separated by single spaces. *)
Fixpoint render (v : value) : str :=
  match v with
  | VInt z => str_of_Z z
  | VStr s => s
  | VList l => lit "(" ++ join [c_space] (map render l) ++ lit ")"
  | _ => []
  end.

(** A text ends a run when it is empty or starts with a delimiter. *)
Definition ends_run (x : str) : Prop :=
  match x with
  | [] => True
  | d :: _ => is_delim d = true
  end.

(** The symbols that are written as one token and that [atom] reads as
    themselves *)
Definition symbol_ok (s : str) : bool :=
  run_token s && negb (str_eqb s (lit ";")) &&
  match atom (strip s) with
  | Some (VStr s') => str_eqb s' s
  | _ => false
  end.

(** The values built from such symbols, from integers and from lists *)
Fixpoint readable (v : value) : bool :=
  match v with
  | VInt z => (length (str_of_Z z) <=? max_str_digits)%nat
  | VStr s => symbol_ok s
  | VList l => forallb readable l
  | _ => false
  end.

(** The nesting of a value and the longest list in it: what the reader needs
    as recursion depth and as loop bound *)
Fixpoint depth (v : value) : nat :=
  match v with
  | VList l => S (fold_right (fun a n => Nat.max (depth a) n) 0%nat l)
  | _ => 1%nat
  end.

Fixpoint width (v : value) : nat :=
  match v with
  | VList l => fold_right (fun a n => Nat.max (width a) n) (S (length l)) l
  | _ => 0%nat
  end.

(** What the reader raises on a token list that is not empty *)
Definition inner_error (e : exn) : Prop :=
  e = unexpected_rparen \/ e = Exn IndexError (lit "list index out of range") \/
  exn_cls e = TypeError.

(* ===================================================================== *)
(** ** [get_args]

    The function splits the evaluated arguments of a method call into the
    positional ones and the supplied ones, a string that starts with a colon
    followed by its value. *)

(** An [OrderedDict] with string keys: its items in insertion order. *)
Definition odict := list (str * value).

(** [d[k] = v]: a key that is present keeps its place. *)
Fixpoint od_set (k : str) (v : value) (d : odict) : odict :=
  match d with
  | [] => [(k, v)]
  | (k', v') :: d' =>
    if str_eqb k' k then (k', v) :: d' else (k', v') :: od_set k v d'
  end.

(** [OrderedDict(pairs)] *)
Definition od_of (pairs : list (str * value)) : odict :=
  fold_left (fun d '(k, v) => od_set k v d) pairs [].

(** [type(a) == str and a.startswith(':')], with [a[1:]] *)
Definition supplied (a : value) : option str :=
  match a with
  | VStr (c :: k) => if char_eqb c 58%N then Some k else None
  | _ => None
  end.

Definition without_value (a : value) : exn :=
  Exn CustomCommandSyntaxError
      (lit "supplied argument " ++ match a with VStr s => s | _ => [] end
       ++ lit " given without value").

(** The loop over the reversed enumeration of the arguments: [items] are the
    pairs still to visit, [t_list] and [t_dict] the two objects the loop
    changes.  [t_list.pop(n + 1)] raises [IndexError] when there is no such
    item; [del t_list[n]] follows. *)
Fixpoint get_args_loop (items : list (nat * value)) (t_list : list value) (t_dict : odict)
  : exn + (list value * odict) :=
  match items with
  | [] => inr (t_list, t_dict)
  | (n, a) :: items' =>
    match supplied a with
    | Some k =>
      match t_list !! (n + 1)%nat with
      | Some v => get_args_loop items' (delete n (delete (n + 1)%nat t_list)) (od_set k v t_dict)
      | None => inl (without_value a)
      end
    | None => get_args_loop items' t_list t_dict
    end
  end.

Definition get_args (args : list value) : exn + (list value * odict) :=
  match get_args_loop (rev (imap pair args)) args [] with
  | inr (t_list, t_dict) => inr (t_list, od_of (rev t_dict))
  | inl e => inl e
  end.

(** One step of the same pass, seen from the right end of the list: [acc] is
    the result for the arguments after [a]. *)
Definition get_args_step (a : value) (acc : exn + (list value * odict))
  : exn + (list value * odict) :=
  match acc with
  | inl e => inl e
  | inr (l, d) =>
    match supplied a with
    | Some k =>
      match l with
      | v :: l' => inr (l', od_set k v d)
      | [] => inl (without_value a)
      end
    | None => inr (a :: l, d)
    end
  end.

(** The arguments that supply [kws] *)
Definition supply (kws : list (str * value)) : list value :=
  flat_map (fun '(k, v) => [VStr (58%N :: k); v]) kws.

(** The translation table of the rot13 alphabet *)
Definition rot13_table : list (char * char) :=
  Eval vm_compute in
    match lookup_name (lit "rot13") alt_code with
    | Some to => maketrans def_code to
    | None => []
    end.

(** The number of items that the unpacking of a special form expects *)
Definition arity (f : form) : option nat :=
  match f with
  | FQuote => Some 2%nat
  | FDefine | FSet | FLambda | FCheckExpect | FMember | FStruct => Some 3%nat
  | FIf | FCheckWithin => Some 4%nat
  | _ => None
  end.

(** The message of the [ValueError] of an unpacking *)
Definition unpack_msg (expected got : nat) : str :=
  if (got <? expected)%nat then
    lit "not enough values to unpack (expected " ++ str_of_nat expected
    ++ lit ", got " ++ str_of_nat got ++ lit ")"
  else
    lit "too many values to unpack (expected " ++ str_of_nat expected ++ lit ")".

(* ===================================================================== *)
(** ** What an evaluation leaves in place *)

(** [e'] is [e] at a later time: the same outer environment, timestamp and
    budget, and a binding for every name that [e] binds. *)
Definition env_kept (e e' : Env) : Prop :=
  outer e' = outer e /\ timestamp e' = timestamp e /\ max_runtime e' = max_runtime e /\
  forall k, is_Some (vars e !! k) -> is_Some (vars e' !! k).

(** [st'] continues [st]: the same clock, read as often or more often; the
    standard output with more lines or none; and every environment of [st]
    still at its address. *)
Definition continues (st st' : state) : Prop :=
  clock st' = clock st /\ (ticks st <= ticks st')%nat /\
  (exists out, stdout st' = stdout st ++ out) /\
  forall a e, heap st !! a = Some e -> exists e', heap st' !! a = Some e' /\ env_kept e e'.

(** A computation whose final state, when it has one, continues the state
    it starts in *)
Definition keeps {A} (m : M state A) : Prop :=
  forall st, match final_state (m st) with
             | Some st' => continues st st'
             | None => True
             end.

(** The heads that [lisp_eval] tests for before it takes a form as a call *)
Definition keywords : list str :=
  map lit
    ["args"; "quote"; ">>"; "if"; "define"; "def"; ":="; "lambda"; "check-expect";
     "check-within"; "member?"; "struct"; "while"; "print"; "try"; "unquote"]%string.

(** The name that [make_functions] gives to the position of a field *)
Definition field_key (nm f : str) : str := nm ++ lit "-" ++ f ++ lit "-pos".

(** The line that the constructor of a struct prints when the number of
    values is not the number of fields *)
Definition constructor_msg (create : str) (fields given : nat) : str :=
  lit "TypeError: " ++ create ++ lit " requires " ++ str_of_Z (Z.of_nat fields)
  ++ lit "%d values, given " ++ str_of_nat given.

(* ===================================================================== *)
(** ** Arithmetic expressions *)

(** Expressions built from integers with the three operations of
    [standard_env] that stay within the integers, their value, and the form
    that the reader builds for them *)
Inductive aexp :=
  | Num (z : Z)
  | Add (a b : aexp)
  | Sub (a b : aexp)
  | Mul (a b : aexp).

Fixpoint denote (a : aexp) : Z :=
  match a with
  | Num z => z
  | Add a b => denote a + denote b
  | Sub a b => denote a - denote b
  | Mul a b => denote a * denote b
  end.

Fixpoint form_of (a : aexp) : value :=
  match a with
  | Num z => VInt z
  | Add a b => VList [VStr (lit "+"); form_of a; form_of b]
  | Sub a b => VList [VStr (lit "-"); form_of a; form_of b]
  | Mul a b => VList [VStr (lit "*"); form_of a; form_of b]
  end.

Fixpoint height (a : aexp) : nat :=
  match a with
  | Num _ => 0%nat
  | Add a b | Sub a b | Mul a b => S (Nat.max (height a) (height b))
  end.

(** The text of an expression *)
Definition text_of (a : aexp) : str := render (form_of a).

(* ===================================================================== *)
(** ** The runtime budget in a loop *)

(** The messages of the timeout error: the text of the timeout, under the
    prefixes of the forms inside whose try block it was raised *)
Inductive timeout_chain : str -> Prop :=
  | chain_here : timeout_chain timeout_msg
  | chain_under (h m : str) :
      timeout_chain m -> timeout_chain (lit "(" ++ h ++ lit "): " ++ m).

(** An outcome that is the timeout error, with a message short enough for
    the handlers to pass it on whole *)
Definition timed_out (o : outcome state value) : Prop :=
  exists msg st', o = Raise (Exn CustomCommandSyntaxError msg) st' /\
                  timeout_chain msg /\ (length msg <= 1500)%nat.

(** The evaluation of [x] in [env] from the state [s] returns a value of
    which [P] holds, in a state whose environments satisfy [Inv], or fails
    with the timeout error. *)
Definition runs_or_times_out (rec : value -> addr -> M state value)
    (Inv : list Env -> Prop) (P : value -> Prop) (x : value) (env : addr) (s : state) : Prop :=
  (exists v s', rec x env s = Ret v s' /\ P v /\ Inv (heap s')) \/ timed_out (rec x env s).

(** ** Escaper *)

Lemma char_eqb_eq (a b : char) : char_eqb a b = true <-> a = b.
Proof. apply N.eqb_eq. Qed.

Lemma char_eqb_neq (a b : char) : char_eqb a b = false <-> a <> b.
Proof. apply N.eqb_neq. Qed.

Lemma char_eqb_refl (a : char) : char_eqb a a = true.
Proof. apply N.eqb_refl. Qed.

Lemma char_eqb_sym (a b : char) : char_eqb a b = char_eqb b a.
Proof. apply N.eqb_sym. Qed.

Lemma str_eqb_eq (a b : str) : str_eqb a b = true <-> a = b.
Proof.
  revert b. induction a as [|x a IH]; intros [|y b]; simpl; try (split; congruence).
  rewrite andb_true_iff, char_eqb_eq, IH. split.
  - intros [-> ->]. reflexivity.
  - intros [= -> ->]. auto.
Qed.

Lemma str_eqb_refl (a : str) : str_eqb a a = true.
Proof. apply str_eqb_eq. reflexivity. Qed.

Section Replace2.
(** Replacement of a pattern of two characters. *)
Variables (a b : char) (new : str).

Lemma replace2_hit t :
  replace [a; b] new (a :: b :: t) = new ++ replace [a; b] new t.
Proof. simpl. rewrite !char_eqb_refl. reflexivity. Qed.

Lemma replace2_other c t :
  c <> a -> replace [a; b] new (c :: t) = c :: replace [a; b] new t.
Proof.
  intros Hc. simpl.
  assert (char_eqb a c = false) as -> by (apply char_eqb_neq; congruence).
  reflexivity.
Qed.

Lemma replace2_second d t :
  d <> b -> replace [a; b] new (a :: d :: t) = a :: replace [a; b] new (d :: t).
Proof.
  intros Hd. unfold replace. cbn [replace_from starts_with].
  assert (char_eqb b d = false) as -> by (apply char_eqb_neq; congruence).
  rewrite andb_false_r. reflexivity.
Qed.

Lemma replace2_last : replace [a; b] new [a] = [a].
Proof. simpl. rewrite andb_false_r. reflexivity. Qed.

Lemma replace2_absent s : contains [a; b] s = false -> replace [a; b] new s = s.
Proof.
  unfold replace. induction s as [|c r IH]; [reflexivity|].
  cbn [contains replace_from]. intros H. apply orb_false_iff in H as [H1 H2].
  rewrite H1. f_equal. apply IH, H2.
Qed.
End Replace2.

(** Replacement of one character by one character is a map. *)
Lemma replace1_map (p q : char) (s : str) :
  replace [p] [q] s = map (fun c => if char_eqb c p then q else c) s.
Proof.
  unfold replace. induction s as [|c r IH]; [reflexivity|].
  cbn [replace_from starts_with length map]. rewrite andb_true_r, (char_eqb_sym p c).
  destruct (char_eqb c p); simpl; f_equal; apply IH.
Qed.

Lemma l_restore_map (s : str) : l_restore s = map unplace s.
Proof.
  unfold l_restore, escapes. cbn [fold_left].
  rewrite !replace1_map, !map_map. apply map_ext. intros c. unfold unplace.
  destruct (char_eqb c ph_backslash) eqn:E0; [reflexivity|].
  destruct (char_eqb c ph_dquote) eqn:E1; [reflexivity|].
  reflexivity.
Qed.

Lemma l_escape_unfold (s : str) :
  l_escape s =
  replace [c_backslash; c_n] [ph_newline]
    (replace [c_backslash; c_dquote] [ph_dquote]
       (replace [c_backslash; c_backslash] [ph_backslash] s)).
Proof. reflexivity. Qed.

Lemma l_escape_nil : l_escape [] = [].
Proof. reflexivity. Qed.

Lemma l_escape_other c t : c <> c_backslash -> l_escape (c :: t) = c :: l_escape t.
Proof. intros H. rewrite !l_escape_unfold, !replace2_other by assumption. reflexivity. Qed.

Lemma l_escape_backslash t :
  l_escape (c_backslash :: c_backslash :: t) = ph_backslash :: l_escape t.
Proof.
  rewrite !l_escape_unfold, replace2_hit. cbn [app].
  rewrite !replace2_other by discriminate. reflexivity.
Qed.

Lemma l_escape_dquote t :
  l_escape (c_backslash :: c_dquote :: t) = ph_dquote :: l_escape t.
Proof.
  rewrite !l_escape_unfold, replace2_second by discriminate.
  rewrite (replace2_other _ _ _ c_dquote) by discriminate.
  rewrite replace2_hit. cbn [app]. rewrite replace2_other by discriminate. reflexivity.
Qed.

Lemma l_escape_n t :
  l_escape (c_backslash :: c_n :: t) = ph_newline :: l_escape t.
Proof.
  rewrite !l_escape_unfold, replace2_second by discriminate.
  rewrite (replace2_other _ _ _ c_n) by discriminate.
  rewrite replace2_second by discriminate.
  rewrite (replace2_other _ _ _ c_n) by discriminate.
  rewrite replace2_hit. reflexivity.
Qed.

Lemma l_escape_lone d t :
  d <> c_backslash -> d <> c_dquote -> d <> c_n ->
  l_escape (c_backslash :: d :: t) = c_backslash :: d :: l_escape t.
Proof.
  intros H1 H2 H3. rewrite !l_escape_unfold.
  rewrite replace2_second, (replace2_other _ _ _ d) by assumption.
  rewrite replace2_second, (replace2_other _ _ _ d) by assumption.
  rewrite replace2_second, (replace2_other _ _ _ d) by assumption.
  reflexivity.
Qed.

Lemma l_escape_last : l_escape [c_backslash] = [c_backslash].
Proof. reflexivity. Qed.

Lemma list_ind2 {A} (P : list A -> Prop) :
  P [] -> (forall c, P [c]) -> (forall c d t, P t -> P (d :: t) -> P (c :: d :: t)) ->
  forall l, P l.
Proof.
  intros H0 H1 H2 l. enough (P l /\ forall c, P (c :: l)) by tauto.
  induction l as [|d t [IH1 IH2]]; split; auto.
Qed.

Lemma unplace_id c : is_placeholder c = false -> unplace c = c.
Proof.
  unfold is_placeholder, unplace. intros H.
  apply orb_false_iff in H as [H H2]. apply orb_false_iff in H as [H0 H1].
  rewrite H0, H1, H2. reflexivity.
Qed.

(** On a text without placeholder characters, escaping and then restoring
    decodes the escape sequences. *)
Lemma restore_escape_decode (s : str) :
  placeholder_free s = true -> l_restore (l_escape s) = decode s.
Proof.
  unfold placeholder_free. rewrite negb_true_iff.
  induction s as [| c | c d t IHt IHdt] using list_ind2; intros Hs.
  - reflexivity.
  - simpl in Hs. rewrite orb_false_r in Hs.
    destruct (N.eq_dec c c_backslash) as [->|Hc]; [reflexivity|].
    rewrite l_escape_other, l_restore_map by assumption. simpl.
    rewrite unplace_id by assumption. reflexivity.
  - cbn [existsb] in Hs. apply orb_false_iff in Hs as [Hc Hs].
    pose proof Hs as Hdt. cbn [existsb] in Hs. apply orb_false_iff in Hs as [Hd Ht].
    specialize (IHt Ht). specialize (IHdt Hdt).
    rewrite l_restore_map in IHt, IHdt.
    destruct (N.eq_dec c c_backslash) as [->|Hcb].
    + destruct (N.eq_dec d c_backslash) as [->|Hd1];
        [rewrite l_escape_backslash, l_restore_map; cbn; f_equal; exact IHt|].
      destruct (N.eq_dec d c_dquote) as [->|Hd2];
        [rewrite l_escape_dquote, l_restore_map; cbn; f_equal; exact IHt|].
      destruct (N.eq_dec d c_n) as [->|Hd3];
        [rewrite l_escape_n, l_restore_map; cbn; f_equal; exact IHt|].
      rewrite l_escape_lone, l_restore_map by assumption.
      rewrite l_escape_other in IHdt by assumption.
      cbn [map]. cbn [map] in IHdt. rewrite IHdt.
      cbn [decode]. rewrite char_eqb_refl.
      assert (char_eqb d c_backslash = false) as -> by (apply char_eqb_neq; assumption).
      assert (char_eqb d c_dquote = false) as -> by (apply char_eqb_neq; assumption).
      assert (char_eqb d c_n = false) as -> by (apply char_eqb_neq; assumption).
      reflexivity.
    + rewrite l_escape_other, l_restore_map by assumption. cbn [map].
      rewrite IHdt, unplace_id by assumption.
      cbn [decode].
      assert (char_eqb c c_backslash = false) as -> by (apply char_eqb_neq; assumption).
      reflexivity.
Qed.

Lemma l_escape_absent (s : str) : escape_free s = true -> l_escape s = s.
Proof.
  unfold escape_free, escapes. cbn [forallb]. rewrite !andb_true_iff, !negb_true_iff.
  intros (H1 & H2 & H3 & _).
  rewrite l_escape_unfold.
  rewrite (replace2_absent _ _ _ s H1), (replace2_absent _ _ _ s H2).
  apply replace2_absent, H3.
Qed.

Lemma l_restore_absent (s : str) : placeholder_free s = true -> l_restore s = s.
Proof.
  unfold placeholder_free. rewrite negb_true_iff, l_restore_map.
  induction s as [|c r IH]; [reflexivity|].
  cbn [existsb map]. intros H. apply orb_false_iff in H as [Hc Hr].
  rewrite unplace_id, IH by assumption. reflexivity.
Qed.

(** C6, as amended: for every string [s] that contains no placeholder
    character and none of the three escape sequences (backslash backslash,
    backslash double-quote, backslash n), restore(escape(s)) == s.  Without
    the second condition the composition is not the identity: on every string
    without placeholder characters it decodes the escape sequences, each one
    being replaced by the character it denotes. *)
Theorem C6_restore_escape (s : str) :
  placeholder_free s = true ->
  l_restore (l_escape s) = decode s /\
  (escape_free s = true -> l_restore (l_escape s) = s).
Proof.
  intros Hp. split.
  - apply restore_escape_decode, Hp.
  - intros He. rewrite l_escape_absent by assumption. apply l_restore_absent, Hp.
Qed.

Lemma C6_restore_escape_witness :
  placeholder_free (lit "(print x)") = true /\
  escape_free (lit "(print x)") = true /\
  l_restore (l_escape (lit "(print x)")) = lit "(print x)".
Proof.
  split; [reflexivity|]. split; [reflexivity|].
  apply (C6_restore_escape (lit "(print x)")); reflexivity.
Defined.

(** C6, as stated, fails: the two characters backslash, n contain no
    placeholder, and restoring their escaped form gives the single newline
    character. *)
Lemma C6_counterexample :
  placeholder_free [c_backslash; c_n] = true /\
  l_restore (l_escape [c_backslash; c_n]) = [c_newline] /\
  l_restore (l_escape [c_backslash; c_n]) <> [c_backslash; c_n].
Proof. split; [reflexivity|]. split; [reflexivity|]. discriminate. Qed.

(* ===================================================================== *)
(** ** [transcode] *)

Lemma has_char_In (c : char) (s : str) : has_char c s = true <-> In c s.
Proof.
  unfold has_char. rewrite existsb_exists. split.
  - intros (x & Hx & E). apply char_eqb_eq in E. subst. exact Hx.
  - intros H. exists c. split; [exact H | apply char_eqb_refl].
Qed.

Lemma has_char_not_In (c : char) (s : str) : has_char c s = false <-> ~ In c s.
Proof. rewrite <- has_char_In. destruct (has_char c s); split; congruence. Qed.

Section Assoc.
Implicit Types (tbl : list (char * char)) (x y : char) (l k : str).

Lemma assoc_Some_In tbl x y : assoc x tbl = Some y -> In (x, y) tbl.
Proof.
  induction tbl as [|[k v] tbl IH]; simpl; [discriminate|].
  destruct (char_eqb x k) eqn:E.
  - apply char_eqb_eq in E. intros [= <-]. subst. auto.
  - auto.
Qed.

Lemma assoc_None_In tbl x y : assoc x tbl = None -> ~ In (x, y) tbl.
Proof.
  induction tbl as [|[k v] tbl IH]; simpl; [tauto|].
  destruct (char_eqb x k) eqn:E; [discriminate|].
  apply char_eqb_neq in E. intros H [[= <- <-] | Hin]; [congruence | exact (IH H Hin)].
Qed.

(** When every pair for [x] has the value [y], looking [x] up gives [y]. *)
Lemma assoc_unique tbl x y :
  In (x, y) tbl -> (forall y', In (x, y') tbl -> y' = y) -> assoc x tbl = Some y.
Proof.
  intros Hin Huniq. destruct (assoc x tbl) as [y'|] eqn:E.
  - f_equal. apply Huniq, assoc_Some_In, E.
  - exfalso. exact (assoc_None_In _ _ _ E Hin).
Qed.

Lemma In_zip_l l k x y : In (x, y) (zip l k) -> In x l.
Proof.
  revert k. induction l as [|a l IH]; intros [|b k]; simpl; try tauto.
  intros [[= <- <-] | H]; eauto.
Qed.

Lemma In_zip_swap l k x y : In (x, y) (zip l k) -> In (y, x) (zip k l).
Proof.
  revert k. induction l as [|a l IH]; intros [|b k]; simpl; try tauto.
  intros [[= <- <-] | H]; eauto.
Qed.

Lemma In_zip_exists l k x :
  length l = length k -> In x l -> exists y, In (x, y) (zip l k).
Proof.
  revert k. induction l as [|a l IH]; intros [|b k]; simpl; try tauto; try discriminate.
  intros [= Hlen] [-> | H].
  - exists b. auto.
  - destruct (IH k Hlen H) as [y Hy]. exists y. auto.
Qed.

Lemma zip_unique l k x y1 y2 :
  distinct l = true -> In (x, y1) (zip l k) -> In (x, y2) (zip l k) -> y1 = y2.
Proof.
  revert k. induction l as [|a l IH]; intros [|b k]; simpl; try tauto.
  rewrite andb_true_iff, negb_true_iff, has_char_not_In.
  intros [Ha Hl] [E1 | H1] [E2 | H2].
  - congruence.
  - exfalso. apply Ha. injection E1 as -> _. eapply In_zip_l, H2.
  - exfalso. apply Ha. injection E2 as -> _. eapply In_zip_l, H1.
  - eauto.
Qed.
End Assoc.

(** Translating with the table from [a] to [b] and back with the table from
    [b] to [a] gives back each character that the hypotheses cover. *)
Lemma translate_back (a b : str) (c : char) :
  length a = length b -> distinct b = true ->
  (has_char c a || negb (has_char c b)) = true ->
  let d := match assoc c (maketrans a b) with Some d => d | None => c end in
  match assoc d (maketrans b a) with Some e => e | None => d end = c.
Proof.
  intros Hlen Hb Hc. unfold maketrans. cbn zeta.
  destruct (assoc c (rev (zip a b))) as [d|] eqn:E.
  - apply assoc_Some_In in E. rewrite <- in_rev in E.
    rewrite (assoc_unique _ d c); [reflexivity | |].
    + rewrite <- in_rev. apply In_zip_swap, E.
    + intros y' Hy'. rewrite <- in_rev in Hy'.
      eapply zip_unique; [exact Hb | exact Hy' | apply In_zip_swap, E].
  - assert (~ In c a) as Hna.
    { intros Hin. destruct (In_zip_exists a b c Hlen Hin) as [y Hy].
      apply (assoc_None_In _ _ y E). rewrite <- in_rev. exact Hy. }
    apply has_char_not_In in Hna. rewrite Hna in Hc. simpl in Hc.
    apply negb_true_iff, has_char_not_In in Hc.
    destruct (assoc c (rev (zip b a))) as [e|] eqn:E'; [|reflexivity].
    exfalso. apply Hc. apply assoc_Some_In in E'. rewrite <- in_rev in E'.
    eapply In_zip_l, E'.
Qed.

Lemma translate_round_trip (a b s : str) :
  length a = length b -> distinct b = true -> covered s a b = true ->
  translate (maketrans b a) (translate (maketrans a b) s) = s.
Proof.
  intros Hlen Hb. unfold covered, translate. rewrite map_map.
  induction s as [|c s IH]; [reflexivity|].
  cbn [forallb map]. rewrite andb_true_iff. intros [Hc Hs].
  f_equal; [| apply IH, Hs].
  apply translate_back; assumption.
Qed.

(** C7, as amended: for every string [s] and every pair of mapping strings
    [a] and [b] of the same length such that no character occurs twice in
    [b] and every character of [s] that occurs in [b] occurs in [a],
    transcode(transcode(s, a, b), b, a) == s; and for every pair of mapping
    strings of different lengths, transcode fails with the syntax error,
    whatever its first argument. *)
Theorem C7_transcode (s a b : str) (v : value) :
  (length a = length b -> distinct b = true -> covered s a b = true ->
   exists s1,
     transcode (VStr s) [VStr a; VStr b] tt = Ret (VStr s1) tt /\
     transcode (VStr s1) [VStr b; VStr a] tt = Ret (VStr s) tt) /\
  (length a <> length b ->
   transcode v [VStr a; VStr b] tt = Raise (Exn CustomCommandSyntaxError transcode_length_msg) tt).
Proof.
  split.
  - intros Hlen Hb Hs. exists (translate (maketrans a b) s).
    unfold transcode, transcode_with.
    rewrite <- Hlen, Nat.eqb_refl. cbn [negb]. split; [reflexivity|].
    unfold ret. rewrite translate_round_trip by assumption. reflexivity.
  - intros Hlen. unfold transcode.
    apply Nat.eqb_neq in Hlen. rewrite Hlen. reflexivity.
Qed.

Lemma C7_transcode_witness :
  (exists s1,
     transcode (VStr (lit "Hello")) [VStr (lit "leH"); VStr (lit "13h")] tt = Ret (VStr s1) tt /\
     transcode (VStr s1) [VStr (lit "13h"); VStr (lit "leH")] tt = Ret (VStr (lit "Hello")) tt) /\
  transcode (VStr (lit "Hello")) [VStr (lit "ab"); VStr (lit "xyz")] tt =
  Raise (Exn CustomCommandSyntaxError transcode_length_msg) tt.
Proof.
  split.
  - apply (C7_transcode (lit "Hello") (lit "leH") (lit "13h") VNone); reflexivity.
  - apply (C7_transcode [] (lit "ab") (lit "xyz") (VStr (lit "Hello"))). discriminate.
Defined.

(** C7, as stated, fails: with the mapping strings ab and bc, of the same
    length, the string c is left as it is on the way there and becomes b on
    the way back. *)
Lemma C7_counterexample :
  length (lit "ab") = length (lit "bc") /\
  transcode (VStr (lit "c")) [VStr (lit "ab"); VStr (lit "bc")] tt = Ret (VStr (lit "c")) tt /\
  transcode (VStr (lit "c")) [VStr (lit "bc"); VStr (lit "ab")] tt = Ret (VStr (lit "b")) tt.
Proof. repeat split. Qed.


(* ===================================================================== *)
(** ** Reader *)

Section ReaderRest.
Variable rd : M (list str) value.
Hypothesis Hrd : ignores_rest rd.

Lemma read_list_ignores_rest n l : ignores_rest (read_list rd n l).
Proof.
  revert l. induction n as [|n IH]; intros l ts v rest extra; cbn [read_list].
  - discriminate.
  - destruct ts as [|t0 ts']; [discriminate|].
    cbn [app]. destruct (str_eqb t0 (lit ")")).
    + intros [= <- <-]. reflexivity.
    + unfold bind. destruct (rd (t0 :: ts')) as [t r | | |] eqn:E; try discriminate.
      intros H. change (t0 :: ts' ++ extra) with ((t0 :: ts') ++ extra).
      rewrite (Hrd _ _ _ extra E). apply IH, H.
Qed.

Lemma read_comment_ignores_rest n l : ignores_rest (read_comment rd n l).
Proof.
  revert l. induction n as [|n IH]; intros l ts v rest extra; cbn [read_comment].
  - discriminate.
  - destruct ts as [|t0 ts']; [discriminate|].
    cbn [app]. destruct (str_eqb t0 [c_newline]).
    + destruct (join_items 0 (l ++ [VStr t0])); [discriminate|].
      intros [= <- <-]. reflexivity.
    + unfold bind. destruct (rd (t0 :: ts')) as [t r | | |] eqn:E; try discriminate.
      intros H. change (t0 :: ts' ++ extra) with ((t0 :: ts') ++ extra).
      rewrite (Hrd _ _ _ extra E). apply IH, H.
Qed.

Lemma read_step_ignores_rest n : ignores_rest (read_step rd n).
Proof.
  intros ts v rest extra. unfold read_step.
  destruct ts as [|token ts']; [discriminate|]. cbn [app].
  destruct (quoted_re token); [intros [= <- <-]; reflexivity|].
  destruct (str_eqb (lit "(") token); [apply read_list_ignores_rest|].
  destruct (str_eqb (lit ";") token); [apply read_comment_ignores_rest|].
  destruct (str_eqb (lit ")") token); [discriminate|].
  destruct (atom (strip token)); [|discriminate].
  intros [= <- <-]. reflexivity.
Qed.
End ReaderRest.

Lemma read_from_tokens_ignores_rest fuel : ignores_rest (read_from_tokens fuel).
Proof.
  induction fuel as [|fuel IH]; cbn [read_from_tokens].
  - intros ts v rest extra. discriminate.
  - apply read_step_ignores_rest, IH.
Qed.

Section ReaderFuel.
Variables rd rd' : M (list str) value.
Hypothesis Hrd : below rd rd'.

Lemma read_list_below n m l : (n <= m)%nat -> below (read_list rd n l) (read_list rd' m l).
Proof.
  revert m l. induction n as [|n IH]; intros m l Hnm ts; cbn [read_list].
  - intros H. exfalso. apply H. reflexivity.
  - destruct m as [|m]; [lia|]. cbn [read_list].
    destruct ts as [|t0 ts']; [reflexivity|].
    destruct (str_eqb t0 (lit ")")); [reflexivity|].
    unfold bind. intros H.
    rewrite Hrd by (intros E; rewrite E in H; apply H; reflexivity).
    destruct (rd (t0 :: ts')) as [t r | | |]; try reflexivity.
    apply IH; [lia | exact H].
Qed.

Lemma read_comment_below n m l :
  (n <= m)%nat -> below (read_comment rd n l) (read_comment rd' m l).
Proof.
  revert m l. induction n as [|n IH]; intros m l Hnm ts; cbn [read_comment].
  - intros H. exfalso. apply H. reflexivity.
  - destruct m as [|m]; [lia|]. cbn [read_comment].
    destruct ts as [|t0 ts']; [reflexivity|].
    destruct (str_eqb t0 [c_newline]); [reflexivity|].
    unfold bind. intros H.
    rewrite Hrd by (intros E; rewrite E in H; apply H; reflexivity).
    destruct (rd (t0 :: ts')) as [t r | | |]; try reflexivity.
    apply IH; [lia | exact H].
Qed.

Lemma read_step_below n m : (n <= m)%nat -> below (read_step rd n) (read_step rd' m).
Proof.
  intros Hnm ts. unfold read_step.
  destruct ts as [|token ts']; [reflexivity|].
  destruct (quoted_re token); [reflexivity|].
  destruct (str_eqb (lit "(") token); [apply read_list_below, Hnm|].
  destruct (str_eqb (lit ";") token); [apply read_comment_below, Hnm|].
  reflexivity.
Qed.
End ReaderFuel.

Lemma read_from_tokens_below n m :
  (n <= m)%nat -> below (read_from_tokens n) (read_from_tokens m).
Proof.
  revert m. induction n as [|n IH]; intros m Hnm.
  - intros ts H. exfalso. apply H. reflexivity.
  - destruct m as [|m]; [lia|]. cbn [read_from_tokens].
    apply read_step_below; [apply IH|]; lia.
Qed.

Section ReaderConsumes.
Variable rd : M (list str) value.
Hypothesis Hrd : consumes rd.

Lemma read_list_consumes n l : consumes (read_list rd n l).
Proof.
  revert l. induction n as [|n IH]; intros l ts v rest; cbn [read_list].
  - discriminate.
  - destruct ts as [|t0 ts']; [discriminate|].
    destruct (str_eqb t0 (lit ")")).
    + intros [= <- <-]. simpl. lia.
    + unfold bind. destruct (rd (t0 :: ts')) as [t r | | |] eqn:E; try discriminate.
      intros H. apply IH in H. apply Hrd in E. lia.
Qed.

Lemma read_comment_consumes n l : consumes (read_comment rd n l).
Proof.
  revert l. induction n as [|n IH]; intros l ts v rest; cbn [read_comment].
  - discriminate.
  - destruct ts as [|t0 ts']; [discriminate|].
    destruct (str_eqb t0 [c_newline]).
    + destruct (join_items 0 (l ++ [VStr t0])); [discriminate|].
      intros [= <- <-]. simpl. lia.
    + unfold bind. destruct (rd (t0 :: ts')) as [t r | | |] eqn:E; try discriminate.
      intros H. apply IH in H. apply Hrd in E. lia.
Qed.

Lemma read_step_consumes n : consumes (read_step rd n).
Proof.
  intros ts v rest. unfold read_step.
  destruct ts as [|token ts']; [discriminate|].
  destruct (quoted_re token); [intros [= <- <-]; simpl; lia|].
  destruct (str_eqb (lit "(") token).
  { intros H. apply read_list_consumes in H. simpl. lia. }
  destruct (str_eqb (lit ";") token).
  { intros H. apply read_comment_consumes in H. simpl. lia. }
  destruct (str_eqb (lit ")") token); [discriminate|].
  destruct (atom (strip token)); [|discriminate].
  intros [= <- <-]. simpl. lia.
Qed.
End ReaderConsumes.

Lemma read_from_tokens_consumes fuel : consumes (read_from_tokens fuel).
Proof.
  induction fuel as [|fuel IH]; cbn [read_from_tokens].
  - intros ts v rest. discriminate.
  - apply read_step_consumes, IH.
Qed.

Section ReaderTotal.
Variable rd : M (list str) value.
Variable b : nat.
Hypothesis Hc : consumes rd.
Hypothesis Hf : fuelled rd b.

Lemma read_list_fuelled n l ts :
  (length ts < n)%nat -> (length ts < b)%nat -> read_list rd n l ts <> OutOfFuel.
Proof.
  revert l ts. induction n as [|n IH]; intros l ts Hn Hb; [lia|].
  cbn [read_list]. destruct ts as [|t0 ts']; [discriminate|].
  destruct (str_eqb t0 (lit ")")); [discriminate|].
  unfold bind. destruct (rd (t0 :: ts')) as [t r | | |] eqn:E; try discriminate.
  - apply Hc in E. apply IH; lia.
  - exfalso. exact (Hf _ Hb E).
Qed.

Lemma read_comment_fuelled n l ts :
  (length ts < n)%nat -> (length ts < b)%nat -> read_comment rd n l ts <> OutOfFuel.
Proof.
  revert l ts. induction n as [|n IH]; intros l ts Hn Hb; [lia|].
  cbn [read_comment]. destruct ts as [|t0 ts']; [discriminate|].
  destruct (str_eqb t0 [c_newline]).
  { destruct (join_items 0 (l ++ [VStr t0])); discriminate. }
  unfold bind. destruct (rd (t0 :: ts')) as [t r | | |] eqn:E; try discriminate.
  - apply Hc in E. apply IH; lia.
  - exfalso. exact (Hf _ Hb E).
Qed.
End ReaderTotal.

Lemma read_from_tokens_fuelled fuel : fuelled (read_from_tokens fuel) fuel.
Proof.
  induction fuel as [|fuel IH]; intros ts Hlt; [lia|].
  cbn [read_from_tokens]. unfold read_step.
  destruct ts as [|token ts']; [discriminate|]. simpl in Hlt.
  destruct (quoted_re token); [discriminate|].
  destruct (str_eqb (lit "(") token).
  { apply (read_list_fuelled _ fuel); auto using read_from_tokens_consumes. lia. lia. }
  destruct (str_eqb (lit ";") token).
  { apply (read_comment_fuelled _ fuel); auto using read_from_tokens_consumes. lia. lia. }
  destruct (str_eqb (lit ")") token); [discriminate|].
  destruct (atom (strip token)); discriminate.
Qed.

(** [parse] has fuel enough: it returns, raises, or leaves the model. *)
Lemma parse_fuelled (program : str) : parse program <> OutOfFuel.
Proof. unfold parse. apply read_from_tokens_fuelled. lia. Qed.

(** The outcome of the reader does not depend on the fuel, once there is
    more fuel than tokens. *)
Lemma read_from_tokens_enough n m ts v rest :
  read_from_tokens n ts = Ret v rest -> (length ts < m)%nat ->
  read_from_tokens m ts = Ret v rest.
Proof.
  intros Hn Hm.
  pose proof (read_from_tokens_fuelled m ts Hm) as Hne.
  pose proof (read_from_tokens_below m (Nat.max n m) (Nat.le_max_r _ _) ts Hne) as E1.
  assert (read_from_tokens n ts <> OutOfFuel) as Hne' by (rewrite Hn; discriminate).
  pose proof (read_from_tokens_below n (Nat.max n m) (Nat.le_max_l _ _) ts Hne') as E2.
  congruence.
Qed.

(** When the tokens of a program are a complete expression followed by
    further tokens, [parse] returns the expression and leaves the further
    tokens unread. *)
Lemma parse_ignores_rest program fuel ts extra v :
  tokenize program = ts ++ extra ->
  read_from_tokens fuel ts = Ret v [] ->
  parse program = Ret v extra.
Proof.
  intros Htok Hread. unfold parse. rewrite Htok.
  apply (read_from_tokens_ignores_rest _ ts v [] extra).
  apply (read_from_tokens_enough fuel); [exact Hread|].
  rewrite length_app. lia.
Qed.

(** C1, as amended: [parse] reads one expression from the front of the
    token list and never looks at the tokens after it, so an input whose
    tokens are a complete expression followed by further tokens, such as the
    second closing parenthesis of (+ 1 2)), parses to that expression without
    failing; [parse] fails with a CustomCommandSyntaxError, unexpected ), when
    the first token is a closing parenthesis, and with another one,
    unexpected EOF while reading, when there is no token; the two messages
    differ.  (What [parse] does on an input with too few closing parentheses
    is not part of this statement.) *)
Theorem C1_parse_brackets (program : str) (fuel : nat) (ts extra : list str) (v : value) :
  (tokenize program = ts ++ extra -> read_from_tokens fuel ts = Ret v [] ->
   parse program = Ret v extra) /\
  (tokenize program = lit ")" :: extra -> parse program = Raise unexpected_rparen extra) /\
  (tokenize program = [] -> parse program = Raise unexpected_eof []) /\
  exn_msg unexpected_rparen <> exn_msg unexpected_eof.
Proof.
  split; [apply parse_ignores_rest|].
  split; [|split].
  - intros H. unfold parse. rewrite H. reflexivity.
  - intros H. unfold parse. rewrite H. reflexivity.
  - discriminate.
Qed.

Lemma C1_parse_brackets_witness :
  parse (lit "(+ 1 2))") = Ret (VList [VStr (lit "+"); VInt 1; VInt 2]) [lit ")"] /\
  parse (lit ") 1") = Raise unexpected_rparen [lit "1"] /\
  parse [] = Raise unexpected_eof [].
Proof.
  split; [|split].
  - apply (C1_parse_brackets (lit "(+ 1 2))") 5
             [lit "("; lit "+"; lit "1"; lit "2"; lit ")"] [lit ")"]); reflexivity.
  - apply (C1_parse_brackets (lit ") 1") 0 [] [lit "1"] VNone). reflexivity.
  - apply (C1_parse_brackets [] 0 [] [] VNone). reflexivity.
Defined.

(** C1, as stated, fails.  With one closing parenthesis too many, [parse]
    does not fail: it returns the form and leaves the parenthesis unread.
    With one too few, the failure is Python's IndexError of [tokens[0]], not
    a syntax error. *)
Lemma C1_counterexample :
  parse (lit "(+ 1 2))") = Ret (VList [VStr (lit "+"); VInt 1; VInt 2]) [lit ")"] /\
  parse (lit "(+ 1 2") = Raise (Exn IndexError (lit "list index out of range")) [].
Proof. split; reflexivity. Qed.


(* ===================================================================== *)
(** ** Tokenizer *)

Lemma scan_quote (r : str) :
  scan (c_dquote :: r) =
  match until_quote r with
  | Some (q, rest) => (c_dquote :: q ++ [c_dquote]) :: scan rest
  | None => scan r
  end.
Proof.
  cbn [scan]. change (char_eqb c_dquote c_dquote) with true. cbv iota.
  enough (forall t acc,
    (fix quoted (acc : str) (t : str) {struct t} : list str :=
       match t with
       | [] => scan r
       | d :: t' =>
         if char_eqb d c_dquote then (c_dquote :: acc ++ [c_dquote]) :: scan t'
         else quoted (acc ++ [d]) t'
       end) acc t =
    match until_quote t with
    | Some (q, rest) => (c_dquote :: (acc ++ q) ++ [c_dquote]) :: scan rest
    | None => scan r
    end) as H by (rewrite H; reflexivity).
  induction t as [|d t' IH]; intros acc; [reflexivity|].
  cbn [until_quote]. destruct (char_eqb d c_dquote).
  - rewrite app_nil_r. reflexivity.
  - rewrite IH. destruct (until_quote t') as [[q rest]|]; [|reflexivity].
    rewrite <- !app_assoc. reflexivity.
Qed.

Lemma scan_run (c : char) (r : str) :
  is_delim c = false ->
  scan (c :: r) = let '(w, rest) := take_run r in (c :: w) :: scan rest.
Proof.
  unfold is_delim. intros Hc.
  apply orb_false_iff in Hc as [Hc H4]. apply orb_false_iff in Hc as [Hc H3].
  apply orb_false_iff in Hc as [H1 H2].
  cbn [scan]. rewrite H1, H2, H3, H4.
  enough (forall t acc,
    (fix run (acc : str) (t : str) {struct t} : list str :=
       match t with
       | [] => [acc]
       | d :: t' => if is_delim d then acc :: scan t else run (acc ++ [d]) t'
       end) acc t =
    let '(w, rest) := take_run t in (acc ++ w) :: scan rest) as H by (rewrite H; reflexivity).
  induction t as [|d t' IH]; intros acc.
  - cbn. rewrite app_nil_r. reflexivity.
  - cbn [take_run]. destruct (is_delim d).
    + rewrite app_nil_r. reflexivity.
    + rewrite IH. destruct (take_run t') as [w rest]. rewrite <- !app_assoc. reflexivity.
Qed.

Lemma scan_nil : scan [] = [].
Proof. reflexivity. Qed.

Lemma scan_lparen r : scan (c_lparen :: r) = [c_lparen] :: scan r.
Proof. reflexivity. Qed.

Lemma scan_rparen r : scan (c_rparen :: r) = [c_rparen] :: scan r.
Proof. reflexivity. Qed.

Lemma scan_space r : scan (c_space :: r) = scan r.
Proof. reflexivity. Qed.

Lemma until_quote_None (s : str) : quotes s = 0%nat -> until_quote s = None.
Proof.
  induction s as [|c r IH]; [reflexivity|]. cbn [quotes until_quote].
  destruct (char_eqb c c_dquote); [discriminate|].
  intros H. rewrite (IH H). reflexivity.
Qed.

Lemma until_quote_Some (s : str) :
  quotes s <> 0%nat ->
  exists q rest, until_quote s = Some (q, rest) /\
                 quotes s = S (quotes rest) /\ (length rest < length s)%nat.
Proof.
  induction s as [|c r IH]; [intros H; exfalso; apply H; reflexivity|].
  cbn [quotes until_quote]. destruct (char_eqb c c_dquote).
  - intros _. exists [], r. simpl. auto.
  - intros H. destruct (IH H) as (q & rest & -> & Hq & Hl).
    exists (c :: q), rest. simpl. auto with lia.
Qed.

Lemma until_quote_app (s x q rest : str) :
  until_quote s = Some (q, rest) -> until_quote (s ++ x) = Some (q, rest ++ x).
Proof.
  revert q rest. induction s as [|c r IH]; intros q rest; [discriminate|].
  cbn [until_quote app]. destruct (char_eqb c c_dquote).
  - intros [= <- <-]. reflexivity.
  - destruct (until_quote r) as [[q' rest']|]; [|discriminate].
    intros [= <- <-]. rewrite (IH q' rest') by reflexivity. reflexivity.
Qed.

Lemma take_run_app (s x : str) (d : char) :
  is_delim d = true ->
  take_run (s ++ d :: x) = (fst (take_run s), snd (take_run s) ++ d :: x).
Proof.
  intros Hd. induction s as [|c r IH].
  - cbn. rewrite Hd. reflexivity.
  - cbn [take_run app]. destruct (is_delim c); [reflexivity|].
    rewrite IH. destruct (take_run r). reflexivity.
Qed.

Lemma take_run_quotes (s : str) :
  quotes (snd (take_run s)) = quotes s /\ (length (snd (take_run s)) <= length s)%nat.
Proof.
  induction s as [|c r [IH1 IH2]]; [auto|].
  cbn [take_run]. destruct (is_delim c) eqn:E; [auto|].
  destruct (take_run r) as [w rest]. cbn [snd] in *. cbn [quotes length].
  assert (char_eqb c c_dquote = false) as ->.
  { unfold is_delim in E. destruct (char_eqb c c_dquote); [|reflexivity].
    rewrite orb_true_r in E. discriminate. }
  split; [exact IH1 | lia].
Qed.

(** A double quote that no double quote follows, and that does not close a
    quoted token, is passed over by the scan as a space is. *)
Lemma scan_lone_quote (p s : str) :
  Nat.even (quotes p) = true -> quotes s = 0%nat ->
  scan (p ++ c_dquote :: s) = scan (p ++ c_space :: s).
Proof.
  intros Hp Hs. remember (length p) as n eqn:Hn.
  revert p Hn Hp. induction n as [n IH] using lt_wf_ind. intros p Hn Hp.
  destruct p as [|c p'].
  - cbn [app]. rewrite scan_quote, (until_quote_None s Hs). reflexivity.
  - cbn [app]. cbn [length] in Hn.
    destruct (char_eqb c c_dquote) eqn:Eq.
    + apply char_eqb_eq in Eq. subst c. rewrite !scan_quote.
      cbn [quotes] in Hp. change (char_eqb c_dquote c_dquote) with true in Hp. cbv iota in Hp.
      destruct (until_quote_Some p') as (q & rest & Hq & Hcount & Hlen).
      { intros E. rewrite E in Hp. discriminate. }
      rewrite !(until_quote_app _ _ _ _ Hq). f_equal.
      apply (IH (length rest)); [lia | reflexivity |].
      rewrite Hcount in Hp. rewrite Nat.even_succ_succ in Hp. exact Hp.
    + assert (quotes (c :: p') = quotes p') as Hc by (cbn [quotes]; rewrite Eq; reflexivity).
      rewrite Hc in Hp.
      destruct (is_delim c) eqn:Ed.
      * unfold is_delim in Ed. rewrite Eq, orb_false_r in Ed.
        assert (forall x, scan (c :: p' ++ x) = scan [c] ++ scan (p' ++ x)) as Hsplit.
        { intros x. apply orb_true_iff in Ed as [Ed | Ed]; [apply orb_true_iff in Ed as [Ed | Ed]|];
            apply char_eqb_eq in Ed; subst c; reflexivity. }
        rewrite !Hsplit. f_equal. apply (IH (length p')); [lia | reflexivity | exact Hp].
      * rewrite !scan_run by assumption.
        rewrite !take_run_app by reflexivity.
        destruct (take_run_quotes p') as [Hq Hl].
        destruct (take_run p') as [w rest]. cbn [fst snd] in *. f_equal.
        apply (IH (length rest)); [lia | reflexivity |]. rewrite Hq. exact Hp.
Qed.

Lemma contains_head (a b : char) (s : str) :
  has_char a s = false -> contains [a; b] s = false.
Proof.
  induction s as [|c r IH]; [reflexivity|].
  cbn [has_char existsb contains starts_with]. fold (has_char a r).
  intros H. apply orb_false_iff in H as [H1 H2].
  rewrite H1, (IH H2). reflexivity.
Qed.

Lemma no_backslash_escape_free (s : str) :
  has_char c_backslash s = false -> escape_free s = true.
Proof.
  intros H. unfold escape_free, escapes. cbn [forallb].
  rewrite !contains_head by assumption. reflexivity.
Qed.

Lemma has_char_app (c : char) (s t : str) :
  has_char c (s ++ t) = has_char c s || has_char c t.
Proof. unfold has_char. apply existsb_app. Qed.

(** C8, as amended: an unterminated double quote is not an error.  When the
    escaped text has a double quote that closes no quoted token (an even
    number of double quotes comes before it) and that no double quote
    follows, the tokenizer passes it over as it passes over a space: the
    tokens are those of the text with a space in its place.  So, for texts
    [p] and [s] without backslash, [p] with an even number of double quotes
    and [s] with none, parsing [p], a double quote, [s] has the outcome of
    parsing [p], a space, [s]. *)
Theorem C8_unterminated_quote (text p s : str) :
  Nat.even (quotes p) = true -> quotes s = 0%nat ->
  (l_escape text = p ++ c_dquote :: s -> tokenize text = scan (p ++ c_space :: s)) /\
  (has_char c_backslash (p ++ s) = false ->
   parse (p ++ c_dquote :: s) = parse (p ++ c_space :: s)).
Proof.
  intros Hp Hs. split.
  - intros H. unfold tokenize. rewrite H. apply scan_lone_quote; assumption.
  - intros Hb. rewrite has_char_app in Hb. apply orb_false_iff in Hb as [Hbp Hbs].
    unfold parse, tokenize.
    rewrite !l_escape_absent.
    + rewrite scan_lone_quote by assumption. reflexivity.
    + apply no_backslash_escape_free. rewrite has_char_app, Hbp. cbn. exact Hbs.
    + apply no_backslash_escape_free. rewrite has_char_app, Hbp. cbn. exact Hbs.
Qed.

Lemma C8_unterminated_quote_witness :
  tokenize (lit "(f " ++ c_dquote :: lit "abc)") = scan (lit "(f  abc)") /\
  parse (lit "(f " ++ c_dquote :: lit "abc)") = parse (lit "(f  abc)").
Proof.
  split.
  - apply (C8_unterminated_quote (lit "(f " ++ c_dquote :: lit "abc)") (lit "(f ") (lit "abc)"));
      reflexivity.
  - apply (C8_unterminated_quote [] (lit "(f ") (lit "abc)")); reflexivity.
Defined.

(** C8, as stated, fails: the text made of a double quote and abc has an
    unterminated quoted string, and [parse] returns the symbol abc; within a
    form, the form is read as if the quote were not there. *)
Lemma C8_counterexample :
  parse (c_dquote :: lit "abc") = Ret (VStr (lit "abc")) [] /\
  parse (lit "(f " ++ c_dquote :: lit "abc)") = Ret (VList [VStr (lit "f"); VStr (lit "abc")]) [].
Proof. split; reflexivity. Qed.


(* ===================================================================== *)
(** ** Evaluator: the monad *)

Section Monad.
Context {S A B : Type}.
Implicit Types (m : M S A) (k : A -> M S B) (h : exn -> M S A).

Lemma bind_ret m k s a s' : m s = Ret a s' -> bind m k s = k a s'.
Proof. unfold bind. intros ->. reflexivity. Qed.

Lemma bind_raise m k s e s' : m s = Raise e s' -> bind m k s = Raise e s'.
Proof. unfold bind. intros ->. reflexivity. Qed.

Lemma try_ret m h s a s' : m s = Ret a s' -> try_except m h s = Ret a s'.
Proof. unfold try_except. intros ->. reflexivity. Qed.

Lemma try_raise m h s e s' : m s = Raise e s' -> try_except m h s = h e s'.
Proof. unfold try_except. intros ->. reflexivity. Qed.

Lemma bind_inv_ret m k s b s' :
  bind m k s = Ret b s' -> exists a s1, m s = Ret a s1 /\ k a s1 = Ret b s'.
Proof. unfold bind. destruct (m s); try discriminate. eauto. Qed.
End Monad.

(* ===================================================================== *)
(** ** Evaluator: the runtime check and the lookup of variables *)

Lemma check_runtime_unlimited st env : unlimited st env -> check_runtime env st = Ret tt st.
Proof.
  intros (e & He & Hr). unfold check_runtime, bind, get_env.
  rewrite He, Hr. reflexivity.
Qed.

Lemma eval_step_unlimited rec loops x env st :
  unlimited st env ->
  eval_step rec loops x env st = try_except (eval_form rec loops x env) (reraise x) st.
Proof. intros H. unfold eval_step. rewrite (bind_ret _ _ _ _ _ (check_runtime_unlimited _ _ H)). reflexivity. Qed.

Lemma unlimited_set_heap_insert st env a e0 k v :
  unlimited st env -> heap st !! a = Some e0 ->
  unlimited (set_heap (<[a := env_insert k v e0]> (heap st)) st) env.
Proof.
  intros (e & He & Hr) Ha. unfold unlimited. cbn [heap set_heap].
  destruct (decide (a = env)) as [->|Hne].
  - exists (env_insert k v e0). rewrite list_lookup_insert_eq by (eapply lookup_lt_Some; eauto).
    split; [reflexivity|]. assert (e0 = e) as -> by congruence. exact Hr.
  - exists e. rewrite list_lookup_insert_ne by assumption. auto.
Qed.

Lemma env_truthy_insert k v e : env_truthy (env_insert k v e) = true.
Proof.
  unfold env_truthy, env_insert. cbn [vars].
  destruct (map_to_list (<[k:=v]> (vars e))) eqn:E; [|reflexivity].
  apply map_to_list_empty_iff in E. exfalso. exact (insert_non_empty _ _ _ E).
Qed.

(** A binding that is added for another name does not change where a name
    is found. *)
Lemma find_in_insert n h self var a env e k v :
  find_in n h self var = Found a -> var <> k -> h !! env = Some e ->
  find_in n (<[env := env_insert k v e]> h) self var = Found a.
Proof.
  intros Hf Hk He. revert self Hf. induction n as [|n IH]; intros self; [discriminate|].
  cbn [find_in].
  assert (forall i x, h !! i = Some x ->
            exists x', <[env := env_insert k v e]> h !! i = Some x' /\
                       vars x' !! var = vars x !! var /\ outer x' = outer x /\
                       (env_truthy x = true -> env_truthy x' = true)) as Hlk.
  { intros i x Hi. destruct (decide (env = i)) as [->|Hne].
    - exists (env_insert k v e). rewrite list_lookup_insert_eq by (eapply lookup_lt_Some; eauto).
      assert (x = e) as -> by congruence.
      split; [reflexivity|]. cbn. rewrite lookup_insert_ne by congruence.
      auto using env_truthy_insert.
    - exists x. rewrite list_lookup_insert_ne by assumption. auto. }
  destruct (h !! self) as [es|] eqn:Es; [|discriminate].
  destruct (Hlk _ _ Es) as (es' & -> & Hv & Ho & _). rewrite Hv, Ho.
  destruct (vars es !! var); [auto|].
  destruct (outer es) as [o|]; [|discriminate].
  destruct (h !! o) as [eo|] eqn:Eo; [|discriminate].
  destruct (Hlk _ _ Eo) as (eo' & -> & _ & _ & Ht).
  destruct (env_truthy eo); [|discriminate]. rewrite Ht by reflexivity. apply IH.
Qed.

Lemma find_found st self var a :
  find_in (S (length (heap st))) (heap st) self var = Found a -> find self var st = Ret a st.
Proof. unfold find. intros ->. reflexivity. Qed.

Lemma find_here st self var e v :
  heap st !! self = Some e -> vars e !! var = Some v -> find self var st = Ret self st.
Proof. intros He Hv. apply find_found. cbn [find_in]. rewrite He, Hv. reflexivity. Qed.

Lemma lookup_var_found st env var a ea v :
  find env var st = Ret a st -> heap st !! a = Some ea -> vars ea !! var = Some v ->
  lookup_var env var st = Ret v st.
Proof.
  intros Hf Ha Hv. unfold lookup_var.
  rewrite (bind_ret _ _ _ _ _ Hf). unfold bind, get_env. rewrite Ha, Hv. reflexivity.
Qed.

(** A symbol without colon: the value of the variable *)
Lemma eval_symbol_plain rec x env st v :
  has_char 58%N x = false -> lookup_var env x st = Ret v st ->
  eval_symbol rec x env st = Ret v st.
Proof.
  intros Hc Hl. unfold eval_symbol.
  assert (split_char 58%N x = [x]) as ->.
  { clear Hl. induction x as [|c r IH]; [reflexivity|].
    cbn [has_char existsb] in Hc. apply orb_false_iff in Hc as [Hc Hr].
    cbn [split_char]. rewrite char_eqb_sym, Hc. fold (has_char 58%N r) in Hr.
    rewrite (IH Hr). reflexivity. }
  cbn [eval_indexes]. unfold bind at 1. unfold ret at 1.
  rewrite (bind_ret _ _ _ _ _ Hl). reflexivity.
Qed.

Lemma lisp_eval_symbol fuel x env st v :
  unlimited st env -> has_char 58%N x = false -> lookup_var env x st = Ret v st ->
  lisp_eval (S fuel) (VStr x) env st = Ret v st.
Proof.
  intros Hu Hc Hl. cbn [lisp_eval]. rewrite eval_step_unlimited by assumption.
  apply try_ret. cbn [eval_form]. apply eval_symbol_plain; assumption.
Qed.

Lemma lisp_eval_int fuel z env st :
  unlimited st env -> lisp_eval (S fuel) (VInt z) env st = Ret (VInt z) st.
Proof.
  intros Hu. cbn [lisp_eval]. rewrite eval_step_unlimited by assumption. reflexivity.
Qed.

(* ===================================================================== *)
(** ** Evaluator: [define], [:=] and calls *)

(** [define] binds in the environment of the call, whatever the outer
    environments hold. *)
Lemma lisp_eval_define fuel s var exp env st v st1 e1 :
  classify (VStr s) = FDefine -> unlimited st env ->
  lisp_eval fuel exp env st = Ret v st1 -> heap st1 !! env = Some e1 ->
  lisp_eval (S fuel) (VList [VStr s; VStr var; exp]) env st =
  Ret VNone (set_heap (<[env := env_insert var v e1]> (heap st1)) st1).
Proof.
  intros Hc Hu Hv He. cbn [lisp_eval]. rewrite eval_step_unlimited by assumption.
  apply try_ret. cbn [eval_form is_opaque]. rewrite Hc.
  rewrite (bind_ret _ _ _ _ _ Hv). unfold bind, set_item, env_set. rewrite He. reflexivity.
Qed.

(** [:=] changes the binding in the environment that [Env.find] returns. *)
Lemma lisp_eval_set fuel var exp env st v st1 a ea :
  unlimited st env -> has_char 58%N var = false ->
  lisp_eval fuel exp env st = Ret v st1 ->
  find env var st1 = Ret a st1 -> heap st1 !! a = Some ea ->
  lisp_eval (S fuel) (VList [VStr (lit ":="); VStr var; exp]) env st =
  Ret VNone (set_heap (<[a := env_insert var v ea]> (heap st1)) st1).
Proof.
  intros Hu Hc Hv Hf Ha. cbn [lisp_eval]. rewrite eval_step_unlimited by assumption.
  apply try_ret. cbn [eval_form is_opaque].
  change (classify (VStr (lit ":="))) with FSet. cbv iota. rewrite Hc.
  rewrite (bind_ret _ _ _ _ _ Hv), (bind_ret _ _ _ _ _ Hf).
  unfold bind, env_set. rewrite Ha. reflexivity.
Qed.

(** The call of a builtin *)
Lemma lisp_eval_call_builtin fuel s args env st f st0 vs st1 r st2 :
  classify (VStr s) = FCall -> starts_with (lit "make-") s = false -> unlimited st env ->
  lisp_eval fuel (VStr s) env st = Ret (VBuiltin f) st0 ->
  eval_list (lisp_eval fuel) args env st0 = Ret vs st1 ->
  call_builtin f vs st1 = Ret r st2 ->
  lisp_eval (S fuel) (VList (VStr s :: args)) env st = Ret r st2.
Proof.
  intros Hc Hm Hu Hh Ha Hr. cbn [lisp_eval]. rewrite eval_step_unlimited by assumption.
  apply try_ret. cbn [eval_form is_opaque]. rewrite Hc. unfold eval_call.
  rewrite (bind_ret _ _ _ _ _ Hh), Hm. cbn [tail].
  rewrite (bind_ret _ _ _ _ _ Ha). exact Hr.
Qed.

Section DefineSet.
(** The three forms of the scenario of C2 *)
Let x := lit "x".
Let define_x : value := VList [VStr (lit "define"); VStr x; VInt 5].
Let set_x : value :=
  VList [VStr (lit ":="); VStr x; VList [VStr (lit "+"); VStr x; VInt 1]].

Variables (fuel : nat) (env : addr) (st : state) (e : Env).
Hypothesis He : heap st !! env = Some e.
Hypothesis Hr : max_runtime e = 0.
Hypothesis Hplus : resolves st env (lit "+") (VBuiltin BAdd).

Let st1 := set_heap (<[env := env_insert x (VInt 5) e]> (heap st)) st.
Let st2 := set_heap (<[env := env_insert x (VInt 6) e]> (heap st)) st.

Lemma scenario_unlimited : unlimited st env.
Proof. exists e. auto. Qed.

Lemma scenario_define : lisp_eval (S (S fuel)) define_x env st = Ret VNone st1.
Proof.
  apply lisp_eval_define with (e1 := e); auto using scenario_unlimited.
  apply lisp_eval_int, scenario_unlimited.
Qed.

Lemma scenario_st1 :
  heap st1 !! env = Some (env_insert x (VInt 5) e) /\ unlimited st1 env /\
  resolves st1 env (lit "+") (VBuiltin BAdd).
Proof.
  assert (heap st1 !! env = Some (env_insert x (VInt 5) e)) as H1.
  { apply list_lookup_insert_eq. eapply lookup_lt_Some, He. }
  split; [exact H1|]. split.
  - apply unlimited_set_heap_insert; [apply scenario_unlimited | exact He].
  - destruct Hplus as (a & ea & Hf & Ha & Hv). unfold resolves. cbn [heap st1 set_heap].
    rewrite length_insert.
    exists a. destruct (decide (a = env)) as [->|Hne].
    + exists (env_insert x (VInt 5) e). split; [|split].
      * apply find_in_insert; [exact Hf | discriminate | exact He].
      * exact H1.
      * unfold env_insert. cbn [vars]. rewrite lookup_insert_ne by discriminate.
        congruence.
    + exists ea. split; [|split].
      * apply find_in_insert; [exact Hf | discriminate | exact He].
      * rewrite list_lookup_insert_ne by congruence. exact Ha.
      * exact Hv.
Qed.

Lemma scenario_set : lisp_eval (S (S (S fuel))) set_x env st1 = Ret VNone st2.
Proof.
  destruct scenario_st1 as (H1 & Hu & (a & ea & Hf & Ha & Hv)).
  assert (lookup_var env x st1 = Ret (VInt 5) st1) as Hx.
  { eapply lookup_var_found; [eapply find_here; [exact H1|] | exact H1 |];
      apply lookup_insert_eq. }
  unfold set_x.
  rewrite (lisp_eval_set _ _ _ _ _ (VInt 6) st1 env (env_insert x (VInt 5) e)); auto.
  - unfold st2, st1. cbn [heap set_heap]. rewrite list_insert_insert_eq.
    unfold env_insert. cbn [vars outer timestamp max_runtime].
    rewrite insert_insert_eq. reflexivity.
  - eapply lisp_eval_call_builtin with (f := BAdd) (vs := [VInt 5; VInt 1]);
      [reflexivity | reflexivity | exact Hu | | | reflexivity].
    + apply lisp_eval_symbol; [exact Hu | reflexivity |].
      eapply lookup_var_found; [apply find_found; exact Hf | exact Ha | exact Hv].
    + cbn [eval_list].
      rewrite (bind_ret _ _ _ _ _ (lisp_eval_symbol fuel x env st1 (VInt 5) Hu eq_refl Hx)).
      unfold bind. rewrite (lisp_eval_int fuel 1 env st1 Hu). reflexivity.
  - eapply find_here; [exact H1 | apply lookup_insert_eq].
Qed.

Lemma scenario_read : lisp_eval (S fuel) (VStr x) env st2 = Ret (VInt 6) st2.
Proof.
  assert (heap st2 !! env = Some (env_insert x (VInt 6) e)) as H2.
  { apply list_lookup_insert_eq. eapply lookup_lt_Some, He. }
  apply lisp_eval_symbol; [|reflexivity|].
  - apply unlimited_set_heap_insert; [apply scenario_unlimited | exact He].
  - eapply lookup_var_found; [eapply find_here; [exact H2|] | exact H2 |];
      apply lookup_insert_eq.
Qed.
End DefineSet.

(** C2, as amended: for every environment [env] that has no runtime budget
    and from which the chain lookup of + ends on the addition, evaluating
    (define x 5), then (:= x (+ x 1)), then the symbol x, in [env], yields 6.
    [define] (or [def]) creates or overwrites the binding in the environment
    of the call, without looking at the outer environments; [:=] changes the
    binding in the environment that [Env.find] returns for the name. *)
Theorem C2_define_then_set (fuel : nat) (env : addr) (st : state) (e : Env) :
  heap st !! env = Some e -> max_runtime e = 0 ->
  (resolves st env (lit "+") (VBuiltin BAdd) ->
   exists st1 st2,
     lisp_eval (S (S fuel)) (VList [VStr (lit "define"); VStr (lit "x"); VInt 5]) env st
     = Ret VNone st1 /\
     lisp_eval (S (S (S fuel)))
       (VList [VStr (lit ":="); VStr (lit "x");
               VList [VStr (lit "+"); VStr (lit "x"); VInt 1]]) env st1
     = Ret VNone st2 /\
     lisp_eval (S fuel) (VStr (lit "x")) env st2 = Ret (VInt 6) st2) /\
  (forall s var exp v st1 e1,
     classify (VStr s) = FDefine ->
     lisp_eval fuel exp env st = Ret v st1 -> heap st1 !! env = Some e1 ->
     lisp_eval (S fuel) (VList [VStr s; VStr var; exp]) env st =
     Ret VNone (set_heap (<[env := env_insert var v e1]> (heap st1)) st1)) /\
  (forall var exp v st1 a ea,
     has_char 58%N var = false ->
     lisp_eval fuel exp env st = Ret v st1 ->
     find env var st1 = Ret a st1 -> heap st1 !! a = Some ea ->
     lisp_eval (S fuel) (VList [VStr (lit ":="); VStr var; exp]) env st =
     Ret VNone (set_heap (<[a := env_insert var v ea]> (heap st1)) st1)).
Proof.
  intros He Hr.
  assert (unlimited st env) as Hu by (exists e; auto).
  split; [|split].
  - intros Hplus. eexists _, _. split; [|split].
    + apply (scenario_define fuel env st e He Hr).
    + apply (scenario_set fuel env st e He Hr Hplus).
    + apply (scenario_read fuel env st e He Hr).
  - intros s var exp v st1 e1 Hc Hv H1. apply lisp_eval_define; assumption.
  - intros var exp v st1 a ea Hc Hv Hf Ha. apply lisp_eval_set; assumption.
Qed.

Lemma C2_define_then_set_witness :
  exists st1 st2,
    lisp_eval 2 (VList [VStr (lit "define"); VStr (lit "x"); VInt 5]) global_env
      (initial_state (fun _ => 0)) = Ret VNone st1 /\
    lisp_eval 3
      (VList [VStr (lit ":="); VStr (lit "x");
              VList [VStr (lit "+"); VStr (lit "x"); VInt 1]]) global_env st1
    = Ret VNone st2 /\
    lisp_eval 1 (VStr (lit "x")) global_env st2 = Ret (VInt 6) st2.
Proof.
  apply (C2_define_then_set 0 global_env (initial_state (fun _ => 0)) (standard_env 0 0));
    [reflexivity | reflexivity |].
  exists global_env, (standard_env 0 0).
  split; [vm_compute; reflexivity | split; [reflexivity | vm_compute; reflexivity]].
Defined.

(** C2, as stated, fails: in an environment without outer environment that
    does not bind +, the definition is made and the assignment then fails,
    + being undefined. *)
Lemma C2_counterexample :
  let st := mkState [standard_env 0 0; bare_env 0] (fun _ => 0) 2 [] in
  let define_x := VList [VStr (lit "define"); VStr (lit "x"); VInt 5] in
  let set_x :=
    VList [VStr (lit ":="); VStr (lit "x"); VList [VStr (lit "+"); VStr (lit "x"); VInt 1]] in
  returned (lisp_eval 9 define_x 1%nat st) = Some VNone /\
  raised (eval_list (lisp_eval 9) [define_x; set_x; VStr (lit "x")] 1%nat st)
  = Some (Exn CustomCommandSyntaxError (lit "(:=): (+): (+): undefined var +")).
Proof. cbv zeta. split; vm_compute; reflexivity. Qed.

(* ===================================================================== *)
(** ** Evaluator: [try] *)

(** C4: for every try form whose body fails during evaluation, when an
    alternative was supplied the alternative is evaluated, in the state the
    body left, and its value is the value of the form; when none was
    supplied the caught exception object is the value of the form, and
    nothing is raised. *)
Theorem C4_try (fuel : nat) (env : addr) (st st0 st1 : state)
    (body alt : value) (rest : list value) (e : exn) :
  check_runtime env st = Ret tt st0 ->
  lisp_eval fuel body env st0 = Raise e st1 ->
  (forall v st2,
     lisp_eval fuel alt env st1 = Ret v st2 ->
     lisp_eval (S fuel) (VList (VStr (lit "try") :: body :: alt :: rest)) env st = Ret v st2) /\
  lisp_eval (S fuel) (VList [VStr (lit "try"); body]) env st = Ret (VExn e) st1.
Proof.
  intros Hc Hb. split.
  - intros v st2 Ha. cbn [lisp_eval]. unfold eval_step.
    rewrite (bind_ret _ _ _ _ _ Hc). apply try_ret.
    cbn [eval_form is_opaque]. change (classify (VStr (lit "try"))) with FTry.
    cbv iota. cbn [tail]. rewrite (try_raise _ _ _ _ _ Hb). exact Ha.
  - cbn [lisp_eval]. unfold eval_step.
    rewrite (bind_ret _ _ _ _ _ Hc). apply try_ret.
    cbn [eval_form is_opaque]. change (classify (VStr (lit "try"))) with FTry.
    cbv iota. cbn [tail]. rewrite (try_raise _ _ _ _ _ Hb). reflexivity.
Qed.

Lemma C4_try_witness :
  let st := initial_state (fun _ => 0) in
  let body := VList [VStr (lit "car"); VList [VStr (lit "quote"); VList []]] in
  let e := Exn CustomCommandSyntaxError (lit "(car): list index out of range") in
  lisp_eval 4 (VList [VStr (lit "try"); body; VInt 7]) global_env st = Ret (VInt 7) st /\
  lisp_eval 4 (VList [VStr (lit "try"); body]) global_env st = Ret (VExn e) st.
Proof.
  cbv zeta.
  pose proof (C4_try 3 global_env (initial_state (fun _ => 0)) (initial_state (fun _ => 0))
                (initial_state (fun _ => 0))
                (VList [VStr (lit "car"); VList [VStr (lit "quote"); VList []]])
                (VInt 7) []
                (Exn CustomCommandSyntaxError (lit "(car): list index out of range"))
                eq_refl eq_refl) as [H1 H2].
  split; [apply H1; reflexivity | exact H2].
Defined.

(* ===================================================================== *)
(** ** Evaluator: the clause that the handler keeps of a long message *)

Lemma starts_with_app (p s : str) : starts_with p (p ++ s) = true.
Proof. induction p as [|c p IH]; [reflexivity|]. cbn. rewrite char_eqb_refl. exact IH. Qed.

Lemma starts_with_inv (p s : str) : starts_with p s = true -> exists r, s = p ++ r.
Proof.
  revert s. induction p as [|c p IH]; intros s H; [exists s; reflexivity|].
  destruct s as [|d s]; [discriminate|]. cbn in H.
  apply andb_true_iff in H as [H1 H2]. apply char_eqb_eq in H1 as ->.
  destruct (IH s H2) as [r ->]. exists r. reflexivity.
Qed.

(** [clause_end r]: the separator stands somewhere in [r], with a character
    after it. *)
Lemma clause_end_intro (a m : str) : m <> [] -> clause_end (a ++ clause_sep ++ m) = true.
Proof.
  intros Hm. induction a as [|x a IH].
  - destruct m as [|y m]; [congruence|]. reflexivity.
  - change ((x :: a) ++ clause_sep ++ m) with (x :: (a ++ clause_sep ++ m)).
    cbn [clause_end]. destruct (starts_with clause_sep _); [|exact IH].
    destruct (drop 3 _); [exact IH|reflexivity].
Qed.

Lemma clause_end_inv (r : str) :
  clause_end r = true -> exists a m, r = a ++ clause_sep ++ m /\ m <> [].
Proof.
  induction r as [|x r IH]; [discriminate|]. cbn [clause_end].
  destruct (starts_with clause_sep (x :: r)) eqn:E.
  - apply starts_with_inv in E as [m E]. rewrite E. change (drop 3 (clause_sep ++ m)) with m.
    destruct m as [|y m].
    + intros H. rewrite app_nil_r in E. injection E as -> ->.
      vm_compute in H. discriminate H.
    + intros _. exists [], (y :: m). split; [reflexivity|discriminate].
  - intros H. destruct (IH H) as (a & m & -> & Hm). exists (x :: a), m. split; [reflexivity|exact Hm].
Qed.

Lemma clause_at_intro (h m : str) :
  h <> [] -> m <> [] -> clause_at (lit "(" ++ h ++ lit "): " ++ m) = true.
Proof.
  intros Hh Hm. destruct h as [|x h]; [congruence|].
  change (lit "(" ++ (x :: h) ++ lit "): " ++ m) with (c_lparen :: x :: (h ++ clause_sep ++ m)).
  cbn [clause_at]. rewrite char_eqb_refl. apply clause_end_intro, Hm.
Qed.

Lemma clause_at_inv (t : str) :
  clause_at t = true ->
  exists h m, t = lit "(" ++ h ++ lit "): " ++ m /\ h <> [] /\ m <> [].
Proof.
  destruct t as [|c [|x r]]; try discriminate. cbn [clause_at].
  destruct (char_eqb c c_lparen) eqn:E; [|discriminate]. apply char_eqb_eq in E as ->.
  intros (a & m & -> & Hm)%clause_end_inv. exists (x :: a), m.
  split; [reflexivity|]. split; [discriminate|exact Hm].
Qed.

Lemma clause_at_paren (t : str) : clause_at t = true -> has_char c_lparen t = true.
Proof.
  destruct t as [|c [|x r]]; try discriminate. cbn [clause_at].
  destruct (char_eqb c c_lparen) eqn:E; [|discriminate]. intros _.
  unfold has_char. cbn [existsb]. rewrite char_eqb_sym, E. reflexivity.
Qed.

Lemma last_clause_none (r : str) : has_char c_lparen r = false -> last_clause r = None.
Proof.
  induction r as [|x r IH]; [reflexivity|]. intros H.
  assert (H' : has_char c_lparen r = false).
  { unfold has_char in *. cbn [existsb] in H. apply orb_false_iff in H as [_ H]. exact H. }
  cbn [last_clause]. rewrite (IH H').
  destruct (clause_at (x :: r)) eqn:E; [|reflexivity].
  apply clause_at_paren in E. congruence.
Qed.

Lemma last_clause_app (pre t c : str) :
  last_clause t = Some c -> last_clause (pre ++ t) = Some c.
Proof.
  intros H. induction pre as [|x pre IH]; [exact H|].
  cbn [app last_clause]. rewrite IH. reflexivity.
Qed.

Lemma last_clause_inv (s c : str) :
  last_clause s = Some c -> clause_at c = true /\ exists pre, s = pre ++ c.
Proof.
  induction s as [|x s IH]; [discriminate|]. cbn [last_clause].
  destruct (last_clause s) as [t|].
  - intros [= <-]. destruct (IH eq_refl) as (H & pre & ->).
    split; [exact H|]. exists (x :: pre). reflexivity.
  - destruct (clause_at (x :: s)) eqn:E; [|discriminate].
    intros [= <-]. split; [exact E|]. exists []. reflexivity.
Qed.

Lemma last_char_not_newline (s : str) :
  has_char c_newline s = false -> str_eqb (drop (length s - 1) s) [c_newline] = false.
Proof.
  intros H. destruct (str_eqb _ _) eqn:E; [|reflexivity]. apply str_eqb_eq in E.
  assert (Hin : In c_newline (drop (length s - 1) s)) by (rewrite E; left; reflexivity).
  apply has_char_not_In in H. exfalso. apply H.
  rewrite <- (take_drop (length s - 1) s). apply in_or_app. right. exact Hin.
Qed.

(** What [trailing_clause] yields when it yields something: an opening
    parenthesis, a head of one character or more, the separator and a text of
    one character or more, which end the message (or stand before its last
    newline) and do not start it. *)
Lemma trailing_clause_inv (s c : str) :
  trailing_clause s = Some c ->
  exists pre h m,
    pre <> [] /\ h <> [] /\ m <> [] /\ c = lit "(" ++ h ++ lit "): " ++ m /\
    (s = pre ++ c \/ s = pre ++ c ++ [c_newline]).
Proof.
  unfold trailing_clause.
  set (body := if str_eqb _ _ then removelast s else s).
  destruct (has_char c_newline body); [discriminate|].
  intros H. apply last_clause_inv in H as (Hc & pre & Hb).
  destruct (clause_at_inv c Hc) as (h & m & -> & Hh & Hm).
  destruct body as [|x body'] eqn:Eb; [destruct pre; discriminate|].
  cbn [tail] in Hb. subst body'.
  exists (x :: pre), h, m. repeat split; try assumption; try discriminate.
  subst body. destruct (str_eqb (drop (length s - 1) s) [c_newline]) eqn:E.
  - right. apply str_eqb_eq in E.
    assert (Hs : s <> []) by (intros ->; discriminate).
    rewrite (app_removelast_last c_newline Hs), Eb.
    assert (List.last s c_newline = c_newline) as ->.
    { rewrite <- (take_drop (length s - 1) s) at 1. rewrite E.
      rewrite last_last. reflexivity. }
    cbn [app]. rewrite <- !app_assoc. reflexivity.
  - left. exact Eb.
Qed.

(** What it yields on a message that holds a clause without a later opening
    parenthesis, after a character or more, and no newline: that clause. *)
Lemma trailing_clause_found (pre h m : str) :
  pre <> [] -> h <> [] -> m <> [] ->
  has_char c_newline (pre ++ lit "(" ++ h ++ lit "): " ++ m) = false ->
  has_char c_lparen (h ++ m) = false ->
  trailing_clause (pre ++ lit "(" ++ h ++ lit "): " ++ m) = Some (lit "(" ++ h ++ lit "): " ++ m).
Proof.
  intros Hp Hh Hm Hn Hl. unfold trailing_clause.
  rewrite (last_char_not_newline _ Hn), Hn.
  destruct pre as [|x pre]; [congruence|]. cbn [app tail].
  apply last_clause_app.
  change (lit "(" ++ h ++ lit "): " ++ m) with (c_lparen :: (h ++ lit "): " ++ m)).
  cbn [last_clause]. rewrite last_clause_none.
  - change (c_lparen :: (h ++ lit "): " ++ m)) with (lit "(" ++ h ++ lit "): " ++ m).
    rewrite clause_at_intro by assumption. reflexivity.
  - rewrite has_char_app in *. apply orb_false_iff in Hl as [-> Hl].
    rewrite has_char_app, Hl. reflexivity.
Qed.

(* ===================================================================== *)
(** ** Evaluator: the handler of [lisp_eval] *)

Lemma reraise_short h t e st hs :
  py_str h = Some hs -> (length (exn_msg e) <= 1500)%nat ->
  reraise (VList (h :: t)) e st =
  Raise (Exn CustomCommandSyntaxError (lit "(" ++ hs ++ lit "): " ++ exn_msg e)) st.
Proof.
  intros Hh Hl. unfold reraise.
  assert ((1500 <? length (exn_msg e))%nat = false) as -> by (apply Nat.ltb_ge; exact Hl).
  unfold bind at 1. unfold ret at 1. rewrite Hh. reflexivity.
Qed.

Lemma reraise_long h t e st hs c :
  py_str h = Some hs -> (1500 < length (exn_msg e))%nat ->
  trailing_clause (exn_msg e) = Some c ->
  reraise (VList (h :: t)) e st =
  Raise (Exn CustomCommandSyntaxError (lit "(" ++ hs ++ lit "): " ++ lit "..." ++ c)) st.
Proof.
  intros Hh Hl Hc. unfold reraise.
  assert ((1500 <? length (exn_msg e))%nat = true) as -> by (apply Nat.ltb_lt; exact Hl).
  rewrite Hc. unfold bind at 1. unfold ret at 1. rewrite Hh. reflexivity.
Qed.

(** What the handler raises for a form with a head: a
    CustomCommandSyntaxError whose message starts with the head between
    parentheses, or the AttributeError of the truncation. *)
Lemma reraise_shape h t e0 st e st' :
  reraise (VList (h :: t)) e0 st = Raise e st' ->
  e = no_group \/
  exn_cls e = CustomCommandSyntaxError /\
  exists hs msg, py_str h = Some hs /\ exn_msg e = lit "(" ++ hs ++ lit "): " ++ msg.
Proof.
  unfold reraise, bind.
  destruct (1500 <? length (exn_msg e0))%nat.
  - destruct (trailing_clause (exn_msg e0)) as [c|].
    + unfold ret at 1. destruct (py_str h) as [hs|]; [|discriminate].
      cbn. intros [= <- <-]. right. split; [reflexivity|]. eauto.
    + intros [= <- <-]. left. reflexivity.
  - unfold ret at 1. destruct (py_str h) as [hs|]; [|discriminate].
    cbn. intros [= <- <-]. right. split; [reflexivity|]. eauto.
Qed.

Lemma check_runtime_raise env st e st' :
  check_runtime env st = Raise e st' -> e = Exn CustomCommandSyntaxError timeout_msg.
Proof.
  unfold check_runtime, bind, get_env.
  destruct (heap st !! env) as [en|]; [|discriminate].
  destruct (max_runtime en =? 0); [discriminate|].
  cbn. destruct (_ >? _); [|discriminate]. intros [= <- <-]. reflexivity.
Qed.





(* ===================================================================== *)
(** ** Evaluator: the runtime budget *)

(** The state after one reading of the clock *)
Lemma time_tick st : time st = Ret (clock st (ticks st)) (tick st).
Proof. reflexivity. Qed.

Lemma check_runtime_expired env st e :
  heap st !! env = Some e -> max_runtime e <> 0 -> expired st e (ticks st) ->
  check_runtime env st = Raise (Exn CustomCommandSyntaxError timeout_msg) (tick st).
Proof.
  intros He Hr Hx. unfold check_runtime, bind, get_env. rewrite He.
  apply Z.eqb_neq in Hr. rewrite Hr. rewrite time_tick.
  unfold expired in Hx. apply Z.gtb_gt in Hx. rewrite Hx. reflexivity.
Qed.

Lemma check_runtime_within env st e :
  heap st !! env = Some e -> max_runtime e <> 0 -> ~ expired st e (ticks st) ->
  check_runtime env st = Ret tt (tick st).
Proof.
  intros He Hr Hx. unfold check_runtime, bind, get_env. rewrite He.
  apply Z.eqb_neq in Hr. rewrite Hr. rewrite time_tick.
  unfold expired in Hx. destruct (_ >? _) eqn:E; [|reflexivity].
  apply Z.gtb_gt in E. contradiction.
Qed.

Lemma lisp_eval_expired fuel x env st e :
  heap st !! env = Some e -> max_runtime e <> 0 -> expired st e (ticks st) ->
  lisp_eval (S fuel) x env st = Raise (Exn CustomCommandSyntaxError timeout_msg) (tick st).
Proof.
  intros He Hr Hx. cbn [lisp_eval]. unfold eval_step.
  apply bind_raise, (check_runtime_expired _ _ e); assumption.
Qed.

Lemma lisp_eval_literal_within fuel x env st e :
  heap st !! env = Some e -> max_runtime e <> 0 -> ~ expired st e (ticks st) ->
  literal x = true ->
  lisp_eval (S fuel) x env st = Ret x (tick st).
Proof.
  intros He Hr Hx Hl. cbn [lisp_eval]. unfold eval_step.
  rewrite (bind_ret _ _ _ _ _ (check_runtime_within _ _ _ He Hr Hx)).
  apply try_ret. destruct x; try discriminate; reflexivity.
Qed.

Lemma expired_dec st e n : {expired st e n} + {~ expired st e n}.
Proof. unfold expired. apply Z_gt_dec. Qed.

Section WhileTrue.
(** A loop [while test: body] whose test is a literal that is true and
    whose body is a literal, in an environment with a budget *)
Variables (env : addr) (e : Env) (test body : value).
Hypothesis Hr : max_runtime e <> 0.
Hypothesis Htest : literal test = true.
Hypothesis Htrue : truthy test = Some true.
Hypothesis Hbody : literal body = true.

Let xs : list value := [VStr (lit "while"); test; body].

Lemma while_loop_times_out d :
  forall st fuel loops,
    heap st !! env = Some e ->
    (exists n, (ticks st <= n <= ticks st + d)%nat /\ expired st e n) ->
    (d < loops)%nat ->
    exists st', while_loop (lisp_eval (S fuel)) loops xs env st =
                Raise (Exn CustomCommandSyntaxError timeout_msg) st'.
Proof.
  induction d as [d IH] using lt_wf_ind. intros st fuel loops He (n & Hn & Hx) Hl.
  destruct loops as [|loops]; [lia|]. cbn [while_loop].
  unfold xs at 1. cbn [nth_item lookup list_lookup].
  unfold bind at 1. unfold ret at 1.
  destruct (expired_dec st e (ticks st)) as [Ht | Ht].
  { exists (tick st). apply bind_raise, (lisp_eval_expired _ _ _ _ e); assumption. }
  rewrite (bind_ret _ _ _ _ _ (lisp_eval_literal_within fuel test env st e He Hr Ht Htest)).
  unfold lift_opt. rewrite Htrue. unfold bind at 1. unfold ret at 1.
  unfold xs at 1. cbn [nth_item lookup list_lookup].
  unfold bind at 1. unfold ret at 1.
  assert (n <> ticks st) as Hn0 by (intros ->; contradiction).
  destruct (expired_dec (tick st) e (ticks (tick st))) as [Hb | Hb].
  { exists (tick (tick st)).
    apply bind_raise, (lisp_eval_expired fuel body env (tick st) e He Hr Hb). }
  rewrite (bind_ret _ _ _ _ _
             (lisp_eval_literal_within fuel body env (tick st) e He Hr Hb Hbody)).
  cbn [ticks tick] in Hb.
  assert (n <> S (ticks st)) as Hn1 by (intros ->; contradiction).
  apply (IH (d - 2)%nat); [lia | exact He | | lia].
  exists n. split; [cbn [ticks tick]; lia | exact Hx].
Qed.

(** The loop, evaluated in an environment whose budget the clock
    eventually exceeds, fails with the timeout error, under the prefix of
    the form unless the budget was spent at the entry of the form. *)
Lemma while_true_times_out st n :
  heap st !! env = Some e -> (ticks st <= n)%nat -> expired st e n ->
  exists fuel st' msg,
    lisp_eval fuel (VList xs) env st = Raise (Exn CustomCommandSyntaxError msg) st' /\
    (msg = timeout_msg \/ msg = lit "(while): " ++ timeout_msg).
Proof.
  intros He Hn Hx. exists (S (S (n - ticks st))).
  destruct (expired_dec st e (ticks st)) as [Ht | Ht].
  { exists (tick st), timeout_msg. split; [|left; reflexivity].
    apply (lisp_eval_expired _ _ _ _ e); assumption. }
  destruct (while_loop_times_out (n - S (ticks st)) (tick st) (n - ticks st)
              (S (n - ticks st)) He) as [st' Hw].
  { exists n. cbn [ticks tick]. split; [|exact Hx].
    assert (n <> ticks st) by (intros ->; contradiction). lia. }
  { lia. }
  exists st', (lit "(while): " ++ timeout_msg). split; [|right; reflexivity].
  cbn [lisp_eval]. unfold eval_step.
  rewrite (bind_ret _ _ _ _ _ (check_runtime_within _ _ _ He Hr Ht)).
  assert (eval_form (lisp_eval (S (n - ticks st))) (S (n - ticks st)) (VList xs) env (tick st)
          = Raise (Exn CustomCommandSyntaxError timeout_msg) st') as Hf by exact Hw.
  rewrite (try_raise _ _ _ _ _ Hf).
  unfold xs.
  rewrite (reraise_short (VStr (lit "while")) _ _ _ (lit "while") eq_refl)
    by (vm_compute; lia).
  reflexivity.
Qed.
End WhileTrue.



(* ===================================================================== *)
(** ** Evaluator: [struct] *)

Lemma key_array_strs nm (ps : list str) (st : state) :
  key_array nm (VStr <$> ps) st =
  Ret (map (fun p => nm ++ lit "-" ++ p ++ lit "-pos") ps) st.
Proof.
  induction ps as [|p ps IH]; [reflexivity|].
  cbn [fmap list_fmap key_array]. unfold bind. rewrite IH. reflexivity.
Qed.

Lemma make_functions_strs nm ps env st e :
  heap st !! env = Some e ->
  make_functions (VStr nm) (VList (VStr <$> ps)) env st =
  Ret tt (set_heap (<[env := struct_env nm ps e]> (heap st)) st).
Proof.
  intros He. unfold make_functions.
  unfold bind at 1. unfold ret at 1.
  rewrite (bind_ret _ _ _ _ _ (key_array_strs nm ps st)).
  assert (env < length (heap st))%nat as Hlt by (eapply lookup_lt_Some, He).
  unfold bind, env_update, env_set. rewrite He. cbn [heap set_heap].
  rewrite list_lookup_insert_eq by assumption. cbn [heap set_heap].
  rewrite list_lookup_insert_eq by (rewrite length_insert; assumption).
  cbn [heap set_heap].
  rewrite list_lookup_insert_eq by (rewrite !length_insert; assumption).
  rewrite !list_insert_insert_eq. unfold set_heap. cbn [heap clock ticks stdout].
  rewrite length_fmap. reflexivity.
Qed.

Lemma lisp_eval_struct fuel nm ps env st e :
  heap st !! env = Some e -> max_runtime e = 0 ->
  lisp_eval (S fuel) (VList [VStr (lit "struct"); VStr nm; VList (VStr <$> ps)]) env st =
  Ret VNone (set_heap (<[env := struct_env nm ps e]> (heap st)) st).
Proof.
  intros He Hr. cbn [lisp_eval]. rewrite eval_step_unlimited by (exists e; auto).
  apply try_ret. cbn [eval_form is_opaque].
  change (classify (VStr (lit "struct"))) with FStruct. cbv iota.
  rewrite (bind_ret _ _ _ _ _ (make_functions_strs nm ps env st e He)). reflexivity.
Qed.

Lemma app_neq_suffix (a b nm : str) : length a <> length b -> nm ++ a <> b ++ nm.
Proof. intros Hl E. apply (f_equal length) in E. rewrite !length_app in E. lia. Qed.

Lemma struct_env_lookup nm ps e :
  vars (struct_env nm ps e) !! (lit "make-" ++ nm) = Some (VInt (Z.of_nat (length ps))) /\
  vars (struct_env nm ps e) !! (nm ++ lit "?") = Some (VStructCheck (lit "make-" ++ nm)) /\
  max_runtime (struct_env nm ps e) = max_runtime e.
Proof.
  unfold struct_env, env_insert. cbn [vars max_runtime]. split; [|split].
  - apply lookup_insert_eq.
  - rewrite lookup_insert_ne; [apply lookup_insert_eq|].
    intros E. symmetry in E. revert E. apply app_neq_suffix. discriminate.
  - reflexivity.
Qed.

Lemma has_char_cons c d s : has_char c (d :: s) = char_eqb c d || has_char c s.
Proof. reflexivity. Qed.

(** A variable that an environment without outer environment does not bind
    is undefined there: the evaluation of the symbol fails. *)
Lemma lisp_eval_undefined fuel c x env st e :
  heap st !! env = Some e -> max_runtime e = 0 -> outer e = None ->
  vars e !! (c :: x) = None -> has_char 58%N (c :: x) = false ->
  (length x <= 1400)%nat ->
  lisp_eval (S fuel) (VStr (c :: x)) env st =
  Raise (Exn CustomCommandSyntaxError (lit "(" ++ [c] ++ lit "): undefined var " ++ c :: x)) st.
Proof.
  intros He Hr Ho Hv Hc Hl. cbn [lisp_eval]. rewrite eval_step_unlimited by (exists e; auto).
  assert (lookup_var env (c :: x) st =
          Raise (Exn CustomCommandSyntaxError (lit "undefined var " ++ c :: x)) st) as Hlk.
  { unfold lookup_var. apply bind_raise. unfold find. cbn [find_in].
    rewrite He, Hv, Ho. reflexivity. }
  assert (eval_form (lisp_eval fuel) fuel (VStr (c :: x)) env st =
          Raise (Exn CustomCommandSyntaxError (lit "undefined var " ++ c :: x)) st) as Hf.
  { cbn [eval_form]. unfold eval_symbol.
    assert (split_char 58%N (c :: x) = [c :: x]) as ->.
    { clear -Hc. revert Hc. generalize (c :: x). intros s. induction s as [|d r IH]; [reflexivity|].
      rewrite has_char_cons. intros H. apply orb_false_iff in H as [H1 H2].
      cbn [split_char]. rewrite char_eqb_sym, H1, (IH H2). reflexivity. }
    cbn [eval_indexes]. unfold bind at 1. unfold ret at 1.
    apply bind_raise, Hlk. }
  rewrite (try_raise _ _ _ _ _ Hf). unfold reraise. cbn [exn_msg].
  assert ((1500 <? length (lit "undefined var " ++ c :: x))%nat = false) as ->.
  { apply Nat.ltb_ge. rewrite length_app. cbn [length]. change (length (lit "undefined var ")) with 14%nat. lia. }
  reflexivity.
Qed.

Lemma lisp_eval_quote fuel v env st :
  unlimited st env ->
  lisp_eval (S fuel) (VList [VStr (lit "quote"); v]) env st = Ret v st.
Proof.
  intros Hu. cbn [lisp_eval]. rewrite eval_step_unlimited by assumption. reflexivity.
Qed.

Section StructPredicate.
(** After [(struct nm ps)] in [env]: the call of the predicate on a list *)
Variables (fuel : nat) (env : addr) (st : state) (e g : Env) (nm : str) (ps : list str).
Variable l : list value.
Hypothesis Henv : env <> global_env.
Hypothesis He : heap st !! env = Some e.
Hypothesis Hr : max_runtime e = 0.
Hypothesis Hg : heap st !! global_env = Some g.
Hypothesis Hgr : max_runtime g = 0.
Hypothesis Hcolon : has_char 58%N nm = false.
Hypothesis Hcall : classify (VStr (nm ++ lit "?")) = FCall.
Hypothesis Hmake : starts_with (lit "make-") (nm ++ lit "?") = false.

Let create := lit "make-" ++ nm.
Let check := nm ++ lit "?".
Let st1 := set_heap (<[env := struct_env nm ps e]> (heap st)) st.
Let call : value := VList [VStr check; VList [VStr (lit "quote"); VList l]].

Lemma struct_st1 :
  heap st1 !! env = Some (struct_env nm ps e) /\ heap st1 !! global_env = Some g /\
  unlimited st1 env /\ unlimited st1 global_env.
Proof.
  assert (heap st1 !! env = Some (struct_env nm ps e)) as H1.
  { apply list_lookup_insert_eq. eapply lookup_lt_Some, He. }
  assert (heap st1 !! global_env = Some g) as H2.
  { unfold st1. cbn [heap set_heap]. rewrite list_lookup_insert_ne by assumption. exact Hg. }
  split; [exact H1|]. split; [exact H2|]. split.
  - exists (struct_env nm ps e). split; [exact H1|].
    rewrite (proj2 (proj2 (struct_env_lookup nm ps e))). exact Hr.
  - exists g. auto.
Qed.

Lemma has_char_app' c (s t : str) : has_char c (s ++ t) = has_char c s || has_char c t.
Proof. unfold has_char. apply existsb_app. Qed.

(** The head and the argument of the call *)
Lemma struct_call_parts :
  lisp_eval (S fuel) (VStr check) env st1 = Ret (VStructCheck create) st1 /\
  eval_list (lisp_eval (S fuel)) [VList [VStr (lit "quote"); VList l]] env st1
  = Ret [VList l] st1.
Proof.
  destruct struct_st1 as (H1 & H2 & Hu & Hug).
  destruct (struct_env_lookup nm ps e) as (_ & Hchk & _).
  split.
  - apply lisp_eval_symbol; [exact Hu | |].
    + unfold check. rewrite has_char_app', Hcolon. reflexivity.
    + eapply lookup_var_found; [eapply find_here; [exact H1 | exact Hchk] | exact H1 | exact Hchk].
  - cbn [eval_list]. rewrite (bind_ret _ _ _ _ _ (lisp_eval_quote fuel (VList l) env st1 Hu)).
    reflexivity.
Qed.

(** When the global environment does not bind the constructor marker *)
Lemma struct_predicate_undefined :
  outer g = None -> vars g !! create = None -> (length nm <= 1000)%nat ->
  lisp_eval (S (S fuel)) call env st1 =
  Raise (Exn CustomCommandSyntaxError
           (lit "(" ++ check ++ lit "): (m): undefined var " ++ create)) st1.
Proof.
  intros Ho Hv Hl.
  destruct struct_st1 as (H1 & H2 & Hu & Hug).
  destruct struct_call_parts as [Hhead Hargs].
  cbn [lisp_eval]. rewrite eval_step_unlimited by assumption.
  assert (eval_form (lisp_eval (S fuel)) (S fuel) call env st1 =
          Raise (Exn CustomCommandSyntaxError (lit "(m): undefined var " ++ create)) st1) as Hf.
  { unfold call, check in *. cbn [eval_form is_opaque]. rewrite Hcall. unfold eval_call.
    rewrite (bind_ret _ _ _ _ _ Hhead). rewrite Hmake. cbn [tail].
    rewrite (bind_ret _ _ _ _ _ Hargs). cbn [apply_value py_len].
    unfold bind at 1. unfold ret at 1. apply bind_raise.
    apply (lisp_eval_undefined fuel 109%N (lit "ake-" ++ nm) global_env st1 g);
      [exact H2 | exact Hgr | exact Ho | exact Hv | | ].
    - change (109%N :: lit "ake-" ++ nm) with (lit "make-" ++ nm).
      rewrite has_char_app', Hcolon. reflexivity.
    - rewrite length_app. change (length (lit "ake-")) with 4%nat. lia. }
  rewrite (try_raise _ _ _ _ _ Hf). unfold call.
  rewrite (reraise_short (VStr check) _ _ _ check eq_refl).
  - reflexivity.
  - cbn [exn_msg]. unfold create. rewrite !length_app.
    change (length (lit "(m): undefined var ")) with 19%nat.
    change (length (lit "make-")) with 5%nat. lia.
Qed.

(** When it binds it to an integer: the comparison is with that integer,
    not with the marker that [env] holds *)
Lemma struct_predicate_global k :
  vars g !! create = Some (VInt k) ->
  lisp_eval (S (S fuel)) call env st1 = Ret (VBool (Z.of_nat (length l) =? k)) st1.
Proof.
  intros Hv.
  destruct struct_st1 as (H1 & H2 & Hu & Hug).
  destruct struct_call_parts as [Hhead Hargs].
  cbn [lisp_eval]. rewrite eval_step_unlimited by assumption. apply try_ret.
  unfold call, check in *. cbn [eval_form is_opaque]. rewrite Hcall. unfold eval_call.
  rewrite (bind_ret _ _ _ _ _ Hhead). rewrite Hmake. cbn [tail].
  rewrite (bind_ret _ _ _ _ _ Hargs). cbn [apply_value py_len].
  unfold bind at 1. unfold ret at 1.
  assert (lisp_eval (S fuel) (VStr create) global_env st1 = Ret (VInt k) st1) as Hc.
  { apply lisp_eval_symbol; [exact Hug | |].
    - unfold create. rewrite has_char_app', Hcolon. reflexivity.
    - eapply lookup_var_found; [eapply find_here; [exact H2 | exact Hv] | exact H2 | exact Hv]. }
  rewrite (bind_ret _ _ _ _ _ Hc). reflexivity.
Qed.
End StructPredicate.




(* ===================================================================== *)
(** ** Evaluator: [lambda] and [Procedure] *)

(** [lambda] makes a procedure that holds the environment of the call; the
    body is not evaluated. *)
Lemma lisp_eval_lambda fuel parms body env st :
  unlimited st env ->
  lisp_eval (S fuel) (VList [VStr (lit "lambda"); parms; body]) env st =
  Ret (VProc parms body env) st.
Proof.
  intros Hu. cbn [lisp_eval]. rewrite eval_step_unlimited by assumption. reflexivity.
Qed.

Lemma zip_keys_strs (ps : list str) (args : list value) (st : state) :
  zip_keys (VStr <$> ps) args st = Ret (zip ps args) st.
Proof.
  revert args. induction ps as [|p ps IH]; intros [|a args]; try reflexivity.
  cbn [fmap list_fmap zip_keys]. unfold bind. rewrite IH. reflexivity.
Qed.

(** The call of a procedure: the body is evaluated in a new environment, at
    an address that was not in use, which binds the parameters to the
    arguments by position, whose outer environment is the one the procedure
    holds, and which has no budget. *)
Lemma procedure_call rec (ps : list str) body penv args st :
  apply_value rec (VProc (VList (VStr <$> ps)) body penv) args st =
  rec body (length (heap st))
    (mkState (heap st ++ [mkEnv (update ∅ (zip ps args)) (Some penv) (clock st (ticks st)) 0])
             (clock st) (S (ticks st)) (stdout st)).
Proof.
  cbn [apply_value zip_parms]. rewrite (bind_ret _ _ _ _ _ (zip_keys_strs ps args st)).
  reflexivity.
Qed.

(** The procedure of the specification: applied to 3 and 4 it returns 7. *)
Lemma lambda_3_4 (clock : nat -> Z) :
  let parms := VList [VStr (lit "a"); VStr (lit "b")] in
  let body := VList [VStr (lit "+"); VStr (lit "a"); VStr (lit "b")] in
  parse (lit "(lambda (a b) (+ a b))") = Ret (VList [VStr (lit "lambda"); parms; body]) [] /\
  lisp_eval 1 (VList [VStr (lit "lambda"); parms; body]) global_env (initial_state clock)
  = Ret (VProc parms body global_env) (initial_state clock) /\
  returned (apply_value (lisp_eval 3) (VProc parms body global_env) [VInt 3; VInt 4]
              (initial_state clock))
  = Some (VInt 7).
Proof.
  cbv zeta. split; [vm_compute; reflexivity|].
  split; [apply lisp_eval_lambda; exists (standard_env (clock 0%nat) 0); auto|].
  vm_compute. reflexivity.
Qed.

(** Lexical scope: the body of the procedure g reads the w of the
    environment where g was defined (10), not the w of the frame that
    calls g (100). *)
Lemma lexical_scope :
  returned (eval_program 12
              (lit "(do (define w 10) (define g (lambda (a) (+ a w))) ((lambda (w) (g 1)) 100))")
              global_env (initial_state (fun _ => 0)))
  = Some (VInt 11).
Proof. vm_compute. reflexivity. Qed.

(** C3: the code departs from the claim.  A procedure that is created in an
    environment without any binding (here the frame of a procedure without
    parameters) holds that environment, and its own frames are chained to
    it; but [Env.find] goes on to [self.outer] only when [self.outer] is
    true, and an [Env] without binding is a false dictionary: the free
    variable + of the body is then reported as undefined, although the
    global environment, further up the chain, binds it.  With one parameter
    on the outer procedure, the frame is not empty and the same body returns
    2. *)
Theorem C3_closure_over_empty_frame :
  raised (eval_program 12 (lit "(((lambda () (lambda (a) (+ a 1)))) 1)") global_env
            (initial_state (fun _ => 0)))
  = Some (Exn CustomCommandSyntaxError
            (lit "([['lambda', [], ['lambda', ['a'], ['+', 'a', 1]]]]): (+): (+): undefined var +")) /\
  returned (eval_program 12 (lit "(((lambda (z) (lambda (a) (+ a 1))) 0) 1)") global_env
              (initial_state (fun _ => 0)))
  = Some (VInt 2).
Proof. split; vm_compute; reflexivity. Qed.


(* ===================================================================== *)
(** ** Evaluator: two consequences for procedures *)

Lemma lisp_eval_literal_unlimited fuel x env st :
  unlimited st env -> literal x = true -> lisp_eval (S fuel) x env st = Ret x st.
Proof.
  intros Hu Hl. cbn [lisp_eval]. rewrite eval_step_unlimited by assumption.
  apply try_ret. destruct x; try discriminate; reflexivity.
Qed.

(** In an environment without budget a loop whose test is a literal that is
    true and whose body is a literal goes on for ever: whatever the fuel, the
    model runs out of it. *)
Lemma while_true_unlimited n fuel env st test body :
  unlimited st env -> literal test = true -> truthy test = Some true -> literal body = true ->
  while_loop (lisp_eval fuel) n [VStr (lit "while"); test; body] env st = OutOfFuel.
Proof.
  intros Hu Ht Htrue Hb. induction n as [|n IH]; [reflexivity|].
  cbn [while_loop nth_item lookup list_lookup]. unfold bind at 1. unfold ret at 1.
  destruct fuel as [|fuel]; [reflexivity|].
  rewrite (bind_ret _ _ _ _ _ (lisp_eval_literal_unlimited fuel test env st Hu Ht)).
  unfold lift_opt. rewrite Htrue. unfold bind at 1. unfold ret at 1.
  unfold bind at 1. unfold ret at 1.
  rewrite (bind_ret _ _ _ _ _ (lisp_eval_literal_unlimited fuel body env st Hu Hb)).
  exact IH.
Qed.

(** The call of a procedure without parameters whose body is such a loop
    never fails with the timeout error: its frame has no budget, whatever the
    budget of the other environments and whatever the clock reads. *)
Lemma loop_in_procedure_never_times_out fuel penv st test body :
  literal test = true -> truthy test = Some true -> literal body = true ->
  apply_value (lisp_eval fuel)
    (VProc (VList []) (VList [VStr (lit "while"); test; body]) penv) [] st
  = OutOfFuel.
Proof.
  intros Ht Htrue Hb.
  rewrite (procedure_call (lisp_eval fuel) [] _ penv [] st).
  destruct fuel as [|fuel]; [reflexivity|].
  cbn [lisp_eval]. rewrite eval_step_unlimited.
  - unfold try_except. cbn [eval_form is_opaque].
    change (classify (VStr (lit "while"))) with FWhile. cbv iota.
    rewrite while_true_unlimited; auto.
    eexists. split; [apply list_lookup_middle; reflexivity | reflexivity].
  - eexists. split; [apply list_lookup_middle; reflexivity | reflexivity].
Qed.

(** [Env.find] does not go through an outer environment that has no
    binding: the name is reported as undefined, whatever the environments
    further out bind. *)
Lemma find_stops_at_empty_outer st self var e o eo :
  heap st !! self = Some e -> vars e !! var = None ->
  outer e = Some o -> heap st !! o = Some eo -> vars eo = ∅ ->
  find self var st = Raise (Exn CustomCommandSyntaxError (lit "undefined var " ++ var)) st.
Proof.
  intros He Hv Ho Heo Hempty. unfold find. cbn [find_in].
  rewrite He, Hv, Ho, Heo. unfold env_truthy. rewrite Hempty, map_to_list_empty. reflexivity.
Qed.


(* ===================================================================== *)
(** ** Escaper: what [l_escape] leaves and what it keeps *)

Lemma contains_cons (a b c : char) (s : str) :
  contains [a; b] (c :: s) = starts_with [a; b] (c :: s) || contains [a; b] s.
Proof. reflexivity. Qed.

Lemma escape_free_cons (c : char) (s : str) :
  c <> c_backslash -> escape_free s = true -> escape_free (c :: s) = true.
Proof.
  intros Hc. unfold escape_free, escapes. cbn [forallb].
  rewrite !contains_cons. cbn [starts_with].
  apply char_eqb_neq in Hc. rewrite (char_eqb_sym c_backslash c), Hc. cbn. auto.
Qed.

Lemma escape_free_lone (d : char) (s : str) :
  d <> c_backslash -> d <> c_dquote -> d <> c_n ->
  escape_free s = true -> escape_free (c_backslash :: d :: s) = true.
Proof.
  intros H1 H2 H3 Hs.
  assert (Hd : escape_free (d :: s) = true) by (apply escape_free_cons; assumption).
  revert Hd. unfold escape_free, escapes. cbn [forallb].
  rewrite !(contains_cons _ _ c_backslash). cbn [starts_with].
  apply char_eqb_neq in H1, H2, H3.
  rewrite (char_eqb_sym c_backslash d), (char_eqb_sym c_dquote d), (char_eqb_sym c_n d).
  rewrite H1, H2, H3. cbn. auto.
Qed.

Lemma l_escape_escape_free (s : str) : escape_free (l_escape s) = true.
Proof.
  induction s as [| c | c d t IHt IHdt] using list_ind2.
  - reflexivity.
  - destruct (N.eq_dec c c_backslash) as [->|Hc].
    + rewrite l_escape_last. reflexivity.
    + rewrite l_escape_other, l_escape_nil by assumption.
      apply escape_free_cons; [assumption|reflexivity].
  - destruct (N.eq_dec c c_backslash) as [->|Hc].
    + destruct (N.eq_dec d c_backslash) as [->|H1].
      { rewrite l_escape_backslash. apply escape_free_cons; [discriminate|assumption]. }
      destruct (N.eq_dec d c_dquote) as [->|H2].
      { rewrite l_escape_dquote. apply escape_free_cons; [discriminate|assumption]. }
      destruct (N.eq_dec d c_n) as [->|H3].
      { rewrite l_escape_n. apply escape_free_cons; [discriminate|assumption]. }
      rewrite l_escape_lone by assumption. apply escape_free_lone; assumption.
    + rewrite l_escape_other by assumption. apply escape_free_cons; assumption.
Qed.

(** X1.  The escaped text holds none of the three escape sequences, so a
    second pass of [l_escape] changes nothing. *)
Theorem l_escape_idempotent (s : str) :
  escape_free (l_escape s) = true /\ l_escape (l_escape s) = l_escape s.
Proof.
  split; [apply l_escape_escape_free|].
  apply l_escape_absent, l_escape_escape_free.
Qed.

Lemma placeholder_free_cons (c : char) (s : str) :
  placeholder_free (c :: s) = true -> is_placeholder c = false /\ placeholder_free s = true.
Proof.
  unfold placeholder_free. cbn [existsb]. destruct (is_placeholder c); cbn; auto.
  discriminate.
Qed.

Lemma unescape_char_id (c : char) : is_placeholder c = false -> unescape_char c = [c].
Proof.
  unfold is_placeholder, unescape_char.
  destruct (char_eqb c ph_backslash), (char_eqb c ph_dquote), (char_eqb c ph_newline);
    cbn; congruence.
Qed.

Lemma unescape_l_escape (s : str) : placeholder_free s = true -> unescape (l_escape s) = s.
Proof.
  induction s as [| c | c d t IHt IHdt] using list_ind2; intros Hp.
  - reflexivity.
  - apply placeholder_free_cons in Hp as [Hc _].
    destruct (N.eq_dec c c_backslash) as [->|Hn].
    + rewrite l_escape_last. reflexivity.
    + rewrite l_escape_other, l_escape_nil by assumption. unfold unescape. cbn [flat_map].
      rewrite unescape_char_id by assumption. reflexivity.
  - pose proof Hp as Hp0.
    apply placeholder_free_cons in Hp as [Hc Hp]. pose proof Hp as Hdt.
    apply placeholder_free_cons in Hp as [Hd Ht].
    destruct (N.eq_dec c c_backslash) as [->|Hn].
    + destruct (N.eq_dec d c_backslash) as [->|H1].
      { rewrite l_escape_backslash. unfold unescape in *. cbn [flat_map].
        rewrite IHt by assumption. reflexivity. }
      destruct (N.eq_dec d c_dquote) as [->|H2].
      { rewrite l_escape_dquote. unfold unescape in *. cbn [flat_map].
        rewrite IHt by assumption. reflexivity. }
      destruct (N.eq_dec d c_n) as [->|H3].
      { rewrite l_escape_n. unfold unescape in *. cbn [flat_map].
        rewrite IHt by assumption. reflexivity. }
      rewrite l_escape_lone by assumption. unfold unescape in *. cbn [flat_map].
      rewrite IHt by assumption. rewrite (unescape_char_id d) by assumption. reflexivity.
    + rewrite l_escape_other by assumption. unfold unescape in *. cbn [flat_map].
      rewrite IHdt by assumption. rewrite unescape_char_id by assumption. reflexivity.
Qed.

(** X2.  On texts without placeholder characters [l_escape] loses nothing:
    writing each placeholder back as its escape sequence gives the text
    again, and two such texts with the same escaped form are equal. *)
Theorem l_escape_injective (s t : str) :
  placeholder_free s = true -> placeholder_free t = true ->
  unescape (l_escape s) = s /\ (l_escape s = l_escape t -> s = t).
Proof.
  intros Hs Ht. split; [apply unescape_l_escape, Hs|].
  intros E. rewrite <- (unescape_l_escape s Hs), <- (unescape_l_escape t Ht), E. reflexivity.
Qed.

Lemma l_escape_injective_witness :
  unescape (l_escape (lit "say \n hi")) = lit "say \n hi" /\
  (l_escape (lit "say \n hi") = l_escape (lit "say \n hi") -> lit "say \n hi" = lit "say \n hi").
Proof.
  apply (l_escape_injective (lit "say \n hi") (lit "say \n hi")); reflexivity.
Defined.


(* ===================================================================== *)
(** ** Tokenizer: the shape of the tokens *)

Lemma until_quote_spec (s q rest : str) :
  until_quote s = Some (q, rest) ->
  s = q ++ c_dquote :: rest /\ has_char c_dquote q = false.
Proof.
  revert q rest. induction s as [|d s IH]; intros q rest; cbn [until_quote].
  - discriminate.
  - destruct (char_eqb d c_dquote) eqn:Ed.
    + intros [= <- <-]. apply char_eqb_eq in Ed as ->. split; reflexivity.
    + destruct (until_quote s) as [[q' rest']|]; [|discriminate].
      intros [= <- <-]. destruct (IH q' rest' eq_refl) as [-> Hq]. split; [reflexivity|].
      rewrite has_char_cons, Hq, char_eqb_sym, Ed. reflexivity.
Qed.

Lemma until_quote_found (q rest : str) :
  has_char c_dquote q = false -> until_quote (q ++ c_dquote :: rest) = Some (q, rest).
Proof.
  induction q as [|d q IH]; cbn [app until_quote]; intros Hq.
  - rewrite char_eqb_refl. reflexivity.
  - rewrite has_char_cons in Hq. apply orb_false_iff in Hq as [Hd Hq].
    rewrite char_eqb_sym, Hd, IH by assumption. reflexivity.
Qed.

Lemma take_run_spec (s : str) :
  s = fst (take_run s) ++ snd (take_run s) /\
  no_delim (fst (take_run s)) = true /\
  match snd (take_run s) with
  | [] => True
  | d :: _ => is_delim d = true
  end.
Proof.
  induction s as [|d s IH]; cbn [take_run].
  - repeat split.
  - destruct (is_delim d) eqn:Ed; cbn [fst snd].
    + repeat split. exact Ed.
    + destruct (take_run s) as [w rest]. cbn [fst snd] in *.
      destruct IH as (-> & Hw & Hr). repeat split; [|exact Hr].
      unfold no_delim. cbn [forallb]. rewrite Ed. exact Hw.
Qed.

Lemma take_run_all (w : str) : no_delim w = true -> take_run w = (w, []).
Proof.
  induction w as [|d w IH]; cbn [take_run]; [reflexivity|].
  unfold no_delim. cbn [forallb]. intros [Hd Hw]%andb_true_iff.
  apply negb_true_iff in Hd. rewrite Hd, (IH Hw). reflexivity.
Qed.

Lemma quoted_token_intro (q : str) :
  has_char c_dquote q = false -> quoted_token (c_dquote :: q ++ [c_dquote]) = true.
Proof.
  intros Hq. unfold quoted_token. rewrite char_eqb_refl, rev_app_distr. cbn [rev app].
  rewrite char_eqb_refl. cbn [andb].
  apply negb_true_iff, has_char_not_In. intros Hin%in_rev.
  apply has_char_In in Hin. congruence.
Qed.

Lemma quoted_token_inv (t : str) :
  quoted_token t = true ->
  exists q, t = c_dquote :: q ++ [c_dquote] /\ has_char c_dquote q = false.
Proof.
  destruct t as [|c r]; [discriminate|]. cbn [quoted_token].
  intros [Hc Hr]%andb_true_iff. apply char_eqb_eq in Hc as ->.
  destruct (rev r) as [|d q] eqn:Er; [discriminate|].
  apply andb_true_iff in Hr as [Hd Hq]. apply char_eqb_eq in Hd as ->.
  exists (rev q). split.
  - f_equal. rewrite <- (rev_involutive r), Er. reflexivity.
  - apply negb_true_iff in Hq. apply has_char_not_In. intros Hin%in_rev.
    apply has_char_In in Hin. congruence.
Qed.

Lemma token_ok_scan (s : str) :
  forallb token_ok (scan s) = true /\ sublist (concat (scan s)) s.
Proof.
  induction s as [s IH] using (induction_ltof1 _ (@length _)). unfold ltof in IH.
  destruct s as [|c r]; [split; [reflexivity|constructor]|].
  destruct (is_delim c) eqn:Ed.
  - unfold is_delim in Ed.
    destruct (char_eqb c c_lparen) eqn:E1.
    { apply char_eqb_eq in E1 as ->. rewrite scan_lparen.
      destruct (IH r) as [H1 H2]; [cbn; lia|]. split.
      - cbn [forallb]. rewrite H1. reflexivity.
      - cbn [concat app]. constructor. exact H2. }
    destruct (char_eqb c c_rparen) eqn:E2.
    { apply char_eqb_eq in E2 as ->. rewrite scan_rparen.
      destruct (IH r) as [H1 H2]; [cbn; lia|]. split.
      - cbn [forallb]. rewrite H1. reflexivity.
      - cbn [concat app]. constructor. exact H2. }
    destruct (char_eqb c c_dquote) eqn:E3.
    { apply char_eqb_eq in E3 as ->. rewrite scan_quote.
      destruct (until_quote r) as [[q rest]|] eqn:Eq.
      - apply until_quote_spec in Eq as [-> Hq].
        destruct (IH rest) as [H1 H2]; [cbn; rewrite length_app; cbn; lia|]. split.
        + cbn [forallb]. rewrite H1. unfold token_ok.
          rewrite quoted_token_intro by assumption. rewrite orb_true_r. reflexivity.
        + cbn [concat app]. constructor. rewrite <- app_assoc. cbn [app].
          apply sublist_app; [reflexivity|]. constructor. exact H2.
      - destruct (IH r) as [H1 H2]; [cbn; lia|]. split; [exact H1|].
        apply sublist_cons. exact H2. }
    destruct (char_eqb c c_space) eqn:E4; [|discriminate].
    apply char_eqb_eq in E4 as ->. rewrite scan_space.
    destruct (IH r) as [H1 H2]; [cbn; lia|]. split; [exact H1|].
    apply sublist_cons. exact H2.
  - rewrite scan_run by assumption.
    destruct (take_run_spec r) as (Hr & Hw & _).
    destruct (take_run r) as [w rest]. cbn [fst snd] in *. subst r.
    destruct (IH rest) as [H1 H2]; [cbn; rewrite length_app; lia|]. split.
    + cbn [forallb]. rewrite H1. unfold token_ok, run_token, no_delim in *.
      cbn [forallb]. rewrite Ed, Hw. cbn. rewrite !orb_true_r. reflexivity.
    + cbn [concat app]. constructor. apply sublist_app; [reflexivity|exact H2].
Qed.

(** X3.  Every token of [tokenize] is a parenthesis, a quoted text without
    inner double quote, or a run without delimiter that is not empty; and
    the tokens, put end to end, are the escaped text with some characters
    left out. *)
Theorem tokenize_tokens (string : str) :
  forallb token_ok (tokenize string) = true /\
  sublist (concat (tokenize string)) (l_escape string).
Proof. apply token_ok_scan. Qed.

Lemma scan_token (t x : str) :
  token_ok t = true -> scan (t ++ c_space :: x) = t :: scan x /\ scan t = [t].
Proof.
  unfold token_ok. intros H.
  apply orb_true_iff in H as [H|H]; [apply orb_true_iff in H as [H|H];
                                     [apply orb_true_iff in H as [H|H]|]|].
  - apply str_eqb_eq in H as ->. change (lit "(") with [c_lparen]. cbn [app].
    rewrite !scan_lparen, scan_space, scan_nil. split; reflexivity.
  - apply str_eqb_eq in H as ->. change (lit ")") with [c_rparen]. cbn [app].
    rewrite !scan_rparen, scan_space, scan_nil. split; reflexivity.
  - apply quoted_token_inv in H as (q & -> & Hq). cbn [app]. rewrite !scan_quote.
    rewrite <- app_assoc. cbn [app].
    rewrite !until_quote_found by assumption.
    rewrite scan_space, scan_nil. split; reflexivity.
  - destruct t as [|c w]; [discriminate|]. unfold run_token, no_delim in H.
    cbn [forallb] in H. apply andb_true_iff in H as [Hc Hw]. apply negb_true_iff in Hc.
    cbn [app]. rewrite !scan_run by assumption.
    rewrite take_run_app by reflexivity. rewrite (take_run_all w Hw). cbn [fst snd app].
    rewrite scan_space, scan_nil. split; reflexivity.
Qed.

Lemma scan_join (ts : list str) :
  forallb token_ok ts = true -> scan (join [c_space] ts) = ts.
Proof.
  induction ts as [|t ts IH]; [reflexivity|]. cbn [forallb].
  intros [Ht Hts]%andb_true_iff. destruct ts as [|t' ts'].
  - cbn [join]. exact (proj2 (scan_token t [] Ht)).
  - change (join [c_space] (t :: t' :: ts')) with (t ++ c_space :: join [c_space] (t' :: ts')).
    rewrite (proj1 (scan_token t _ Ht)), IH by assumption. reflexivity.
Qed.

(** X4.  Tokens of the three shapes, joined with single spaces, are found
    again by the pattern of [tokenize]; [tokenize] itself finds them when the
    joined text holds no escape sequence. *)
Theorem tokenize_join (ts : list str) :
  forallb token_ok ts = true ->
  scan (join [c_space] ts) = ts /\
  (escape_free (join [c_space] ts) = true -> tokenize (join [c_space] ts) = ts).
Proof.
  intros H. split; [apply scan_join, H|].
  intros He. unfold tokenize. rewrite l_escape_absent by assumption. apply scan_join, H.
Qed.

Lemma tokenize_join_witness :
  let ts := [lit "("; lit "print"; c_dquote :: lit "a (b" ++ [c_dquote]; lit "x:0"; lit ")"] in
  scan (join [c_space] ts) = ts /\
  (escape_free (join [c_space] ts) = true -> tokenize (join [c_space] ts) = ts).
Proof.
  apply (tokenize_join
           [lit "("; lit "print"; c_dquote :: lit "a (b" ++ [c_dquote]; lit "x:0"; lit ")"]).
  reflexivity.
Defined.


(* ===================================================================== *)
(** ** Reader: integers *)

Lemma lit_String (a : ascii) (s : string) : lit (String a s) = N_of_ascii a :: lit s.
Proof. reflexivity. Qed.

Ltac uint_cases d IH :=
  induction d as [|d IH|d IH|d IH|d IH|d IH|d IH|d IH|d IH|d IH|d IH].

Lemma digitpart_from_pos (d : Decimal.uint) (p : positive) :
  digitpart_from (Z.pos p) (lit (NilEmpty.string_of_uint d)) = (Z.pos (Pos.of_uint_acc d p), []).
Proof.
  revert p. uint_cases d IH; intros p; cbn [NilEmpty.string_of_uint Pos.of_uint_acc];
    [reflexivity|..];
    rewrite lit_String; cbn [digitpart_from N_of_ascii];
    match goal with
    | |- context [is_ascii_digit ?c] => change (is_ascii_digit c) with true; cbv iota
    end;
    match goal with
    | |- digitpart_from ?a _ = (Z.pos (Pos.of_uint_acc _ ?q), _) =>
      replace a with (Z.pos q) by (unfold digit_val; cbn; lia)
    end; apply IH.
Qed.

Lemma digitpart_from_zero (d : Decimal.uint) :
  digitpart_from 0 (lit (NilEmpty.string_of_uint d)) = (Z.of_N (Pos.of_uint d), []).
Proof.
  uint_cases d IH; cbn [NilEmpty.string_of_uint Pos.of_uint]; [reflexivity|..];
    rewrite lit_String; cbn [digitpart_from N_of_ascii];
    match goal with
    | |- context [is_ascii_digit ?c] => change (is_ascii_digit c) with true; cbv iota
    end;
    [exact IH|..]; apply digitpart_from_pos.
Qed.

Lemma digitpart_uint (d : Decimal.uint) :
  d <> Decimal.Nil ->
  digitpart (lit (NilEmpty.string_of_uint d)) = Some (Z.of_N (Pos.of_uint d), []).
Proof.
  destruct d; [congruence|..]; intros _; cbn [NilEmpty.string_of_uint Pos.of_uint];
    rewrite lit_String; cbn [digitpart N_of_ascii];
    match goal with
    | |- context [is_ascii_digit ?c] => change (is_ascii_digit c) with true; cbv iota
    end; f_equal;
    [apply digitpart_from_zero|..]; apply digitpart_from_pos.
Qed.

Lemma digits_ascii (d : Decimal.uint) :
  forallb is_ascii_digit (lit (NilEmpty.string_of_uint d)) = true.
Proof.
  uint_cases d IH; cbn [NilEmpty.string_of_uint]; [reflexivity|..];
    rewrite lit_String; cbn [forallb]; rewrite IH; reflexivity.
Qed.

Lemma to_uint_nonnil (p : positive) : Pos.to_uint p <> Decimal.Nil.
Proof.
  intros E. pose proof (Unsigned.of_to p) as H. rewrite E in H. discriminate.
Qed.

Lemma str_of_pos (p : positive) :
  str_of_Z (Z.pos p) = lit (NilEmpty.string_of_uint (Pos.to_uint p)).
Proof.
  unfold str_of_Z. cbn [Z.to_int NilZero.string_of_int]. unfold NilZero.string_of_uint.
  pose proof (to_uint_nonnil p). destruct (Pos.to_uint p); congruence.
Qed.

Lemma str_of_neg (p : positive) :
  str_of_Z (Z.neg p) = 45%N :: lit (NilEmpty.string_of_uint (Pos.to_uint p)).
Proof.
  unfold str_of_Z. cbn [Z.to_int NilZero.string_of_int]. rewrite lit_String. f_equal.
  unfold NilZero.string_of_uint.
  pose proof (to_uint_nonnil p). destruct (Pos.to_uint p); congruence.
Qed.

Lemma digits_no_sign (d : Decimal.uint) :
  strip_sign (lit (NilEmpty.string_of_uint d)) = (false, lit (NilEmpty.string_of_uint d)).
Proof. destruct d; reflexivity. Qed.

Lemma py_int_str_of_Z (z : Z) : py_int (str_of_Z z) = Some z.
Proof.
  destruct z as [|p|p].
  - reflexivity.
  - rewrite str_of_pos. unfold py_int. rewrite digits_no_sign.
    rewrite digitpart_uint by apply to_uint_nonnil. rewrite Unsigned.of_to. reflexivity.
  - rewrite str_of_neg. unfold py_int. cbn [strip_sign]. change (is_sign 45%N) with true.
    cbv iota. change (char_eqb 45%N 45%N) with true.
    rewrite digitpart_uint by apply to_uint_nonnil. rewrite Unsigned.of_to. reflexivity.
Qed.

Lemma is_ascii_digit_ascii (c : char) : is_ascii_digit c = true -> is_ascii c = true.
Proof.
  unfold is_ascii_digit, is_ascii. intros [_ H]%andb_true_iff.
  apply N.leb_le in H. apply N.ltb_lt. lia.
Qed.

Lemma str_of_Z_ascii (z : Z) : forallb is_ascii (str_of_Z z) = true.
Proof.
  assert (H : forall d, forallb is_ascii (lit (NilEmpty.string_of_uint d)) = true).
  { intros d. pose proof (digits_ascii d) as Hd. apply forallb_forall.
    intros c Hc. apply is_ascii_digit_ascii.
    rewrite forallb_forall in Hd. apply Hd, Hc. }
  destruct z as [|p|p].
  - reflexivity.
  - rewrite str_of_pos. apply H.
  - rewrite str_of_neg. cbn [forallb]. rewrite H. reflexivity.
Qed.

Lemma atom_int_text (z : Z) :
  (length (str_of_Z z) <=? max_str_digits)%nat = true -> atom (str_of_Z z) = Some (VInt z).
Proof.
  intros Hlen. unfold atom. rewrite str_of_Z_ascii. cbn [negb orb].
  apply Nat.leb_le, Nat.ltb_ge in Hlen. rewrite Hlen, py_int_str_of_Z. reflexivity.
Qed.

(** X5.  [atom] reads the decimal text of an integer back as that integer:
    [atom(str(z)) == z], as long as the text has no more characters than
    [int] converts. *)
Theorem atom_str_of_Z (z : Z) :
  (length (str_of_Z z) <= max_str_digits)%nat -> atom (str_of_Z z) = Some (VInt z).
Proof.
  intros Hlen. apply atom_int_text, Nat.leb_le, Hlen.
Qed.

Lemma atom_str_of_Z_witness : atom (str_of_Z (-2048)) = Some (VInt (-2048)).
Proof. apply (atom_str_of_Z (-2048)). apply Nat.leb_le. vm_compute. reflexivity. Defined.


(* ===================================================================== *)
(** ** Reader: what is written is read back *)

Lemma value_nested_ind (P : value -> Prop) :
  (forall l, Forall P l -> P (VList l)) ->
  (forall v, (forall l, v <> VList l) -> P v) ->
  forall v, P v.
Proof.
  intros Hlist Hother. fix IH 1. intros v.
  destruct v as [| | | | |l| | | | | |]; try (apply Hother; intros; discriminate).
  apply Hlist. induction l as [|a l IHl]; constructor; [apply IH|exact IHl].
Qed.

Lemma str_of_Z_chars (z : Z) : str_of_Z z <> [] /\ forallb int_char (str_of_Z z) = true.
Proof.
  assert (H : forall d, forallb int_char (lit (NilEmpty.string_of_uint d)) = true).
  { intros d. pose proof (digits_ascii d) as Hd. apply forallb_forall.
    intros c Hc. rewrite forallb_forall in Hd. unfold int_char. rewrite (Hd c Hc). reflexivity. }
  destruct z as [|p|p].
  - split; [discriminate|reflexivity].
  - rewrite str_of_pos. split; [|apply H].
    pose proof (to_uint_nonnil p). destruct (Pos.to_uint p); [congruence|..]; discriminate.
  - rewrite str_of_neg. split; [discriminate|]. cbn [forallb]. rewrite H. reflexivity.
Qed.

Lemma int_char_props (c : char) :
  int_char c = true -> is_delim c = false /\ is_ascii_space c = false /\ c <> 59%N.
Proof.
  unfold int_char, is_ascii_digit, is_delim, is_ascii_space, char_eqb, c_lparen, c_rparen,
    c_dquote, c_space.
  intros H. apply orb_true_iff in H as [[H1 H2]%andb_true_iff|H].
  - apply N.leb_le in H1, H2. split; [|split]; [| |lia].
    + repeat (apply orb_false_iff; split); apply N.eqb_neq; lia.
    + apply orb_false_iff; split; apply andb_false_iff.
      * right. apply N.leb_gt. lia.
      * right. apply N.leb_gt. lia.
  - apply N.eqb_eq in H as ->. split; [|split]; [reflexivity|reflexivity|discriminate].
Qed.

Lemma lstrip_id (s : str) :
  match s with c :: _ => is_ascii_space c = false | [] => True end -> lstrip s = s.
Proof. destruct s as [|c r]; [reflexivity|]. cbn [lstrip]. intros ->. reflexivity. Qed.

Lemma strip_id (s : str) : forallb (fun c => negb (is_ascii_space c)) s = true -> strip s = s.
Proof.
  intros H. unfold strip. rewrite (lstrip_id s).
  - rewrite lstrip_id; [apply rev_involutive|].
    destruct (rev s) as [|c r] eqn:E; [exact I|].
    rewrite forallb_forall in H. apply negb_true_iff, H, in_rev. rewrite E. left. reflexivity.
  - destruct s as [|c r]; [exact I|]. cbn [forallb] in H.
    apply andb_true_iff in H as [H _]. apply negb_true_iff, H.
Qed.

Lemma int_token (z : Z) :
  run_token (str_of_Z z) = true /\ str_of_Z z <> lit ";" /\ strip (str_of_Z z) = str_of_Z z.
Proof.
  destruct (str_of_Z_chars z) as [Hne Hc]. rewrite forallb_forall in Hc.
  repeat split.
  - unfold run_token. destruct (str_of_Z z) as [|c r] eqn:E; [congruence|].
    rewrite <- E. apply forallb_forall. intros d Hd. rewrite E in Hd.
    apply negb_true_iff, int_char_props, Hc, Hd.
  - intros E. rewrite E in Hc. specialize (Hc 59%N (or_introl eq_refl)). discriminate.
  - apply strip_id, forallb_forall. intros d Hd.
    apply negb_true_iff, int_char_props, Hc, Hd.
Qed.

(** The token of an atom that can be written *)
Lemma readable_atom (v : value) :
  readable v = true -> (forall l, v <> VList l) ->
  exists t, show v = [t] /\ run_token t = true /\ t <> lit ";" /\ atom (strip t) = Some v /\
            v <> VStr [].
Proof.
  intros Hr Hv. destruct v as [| |z| |s|l| | | | | |]; try discriminate.
  - exists (str_of_Z z). cbn [readable show] in *. apply Nat.leb_le in Hr.
    destruct (int_token z) as (H1 & H2 & H3). rewrite H3, atom_int_text by (apply Nat.leb_le; assumption).
    repeat split; try assumption. discriminate.
  - exists s. cbn [readable show] in *. unfold symbol_ok in Hr.
    apply andb_true_iff in Hr as [[H1 H2]%andb_true_iff H3].
    repeat split; try assumption.
    + apply negb_true_iff in H2. intros ->. rewrite str_eqb_refl in H2. discriminate.
    + destruct (atom (strip s)) as [[| | | |s'| | | | | | |]|]; try discriminate.
      apply str_eqb_eq in H3 as ->. reflexivity.
    + intros [= ->]. discriminate.
  - exfalso. eapply Hv. reflexivity.
Qed.

Lemma run_token_head (t : str) :
  run_token t = true ->
  quoted_re t = false /\ str_eqb (lit "(") t = false /\ str_eqb (lit ")") t = false /\
  str_eqb t (lit ")") = false.
Proof.
  destruct t as [|c r]; [discriminate|]. unfold run_token, no_delim. cbn [forallb].
  intros [Hc _]%andb_true_iff. apply negb_true_iff in Hc. unfold is_delim in Hc.
  apply orb_false_iff in Hc as [Hc H4]. apply orb_false_iff in Hc as [Hc H3].
  apply orb_false_iff in Hc as [H1 H2].
  unfold quoted_re. rewrite H3. change (lit "(") with [c_lparen]. change (lit ")") with [c_rparen].
  cbn [str_eqb andb]. rewrite (char_eqb_sym c_lparen), (char_eqb_sym c_rparen), H1, H2.
  repeat split; reflexivity.
Qed.

Lemma readable_show (v : value) :
  readable v = true ->
  v <> VStr [] /\ forallb token_ok (show v) = true /\
  exists t ts, show v = t :: ts /\ str_eqb t (lit ")") = false.
Proof.
  intros Hr. induction v as [l IH|v Hv] using value_nested_ind.
  - split; [discriminate|]. split.
    + cbn [show forallb readable] in *. change (token_ok (lit "(")) with true. cbn [andb].
      rewrite forallb_app. change (forallb token_ok [lit ")"]) with true. rewrite andb_true_r.
      induction l as [|a l IHl]; [reflexivity|]. cbn [flat_map forallb] in *.
      apply andb_true_iff in Hr as [Ha Hl]. inversion IH as [|? ? Pa Pl]; subst.
      rewrite forallb_app, (proj1 (proj2 (Pa Ha))), IHl by assumption. reflexivity.
    + eexists _, _. split; [reflexivity|reflexivity].
  - destruct (readable_atom v Hr Hv) as (t & -> & H1 & H2 & H3 & H4).
    split; [exact H4|]. split.
    + cbn [forallb]. unfold token_ok. rewrite H1, !orb_true_r. reflexivity.
    + exists t, []. split; [reflexivity|]. apply run_token_head, H1.
Qed.

Section ReadBack.
(** A reader that reads every item of [l] back: the loop of the parenthesis
    branch then reads the tokens of [l] up to the closing parenthesis. *)
Variable rd : M (list str) value.

Lemma read_list_show (l : list value) :
  forallb readable l = true ->
  Forall (fun v => forall rest, rd (show v ++ rest) = Ret v rest) l ->
  forall n acc rest, (length l < n)%nat ->
    read_list rd n acc (flat_map show l ++ lit ")" :: rest) = Ret (VList (acc ++ l)) rest.
Proof.
  induction l as [|v l IH]; intros Hr Hl n acc rest Hn.
  - destruct n as [|n]; [cbn in Hn; lia|]. cbn [flat_map app read_list].
    rewrite str_eqb_refl, app_nil_r. reflexivity.
  - cbn [forallb] in Hr. apply andb_true_iff in Hr as [Hv Hr].
    inversion Hl as [|? ? Pv Pl]; subst.
    destruct n as [|n]; [cbn in Hn; lia|]. cbn [length] in Hn.
    destruct (readable_show v Hv) as (Hne & _ & t & ts & Et & Ht).
    cbn [flat_map]. rewrite <- app_assoc. cbn [read_list].
    pose proof (Pv (flat_map show l ++ lit ")" :: rest)) as Ev.
    rewrite Et in Ev |- *. cbn [app] in Ev |- *. rewrite Ht.
    unfold bind. rewrite Ev.
    assert (Es : is_str v [] = false).
    { destruct v; try reflexivity. cbn [is_str].
      destruct (str_eqb s []) eqn:E; [|reflexivity].
      apply str_eqb_eq in E as ->. congruence. }
    rewrite Es, IH by (assumption || lia). rewrite <- app_assoc. reflexivity.
Qed.
End ReadBack.

Lemma read_from_tokens_show (v : value) :
  readable v = true ->
  forall fuel rest, (depth v + width v <= fuel)%nat ->
    read_from_tokens fuel (show v ++ rest) = Ret v rest.
Proof.
  induction v as [l IH|v Hv] using value_nested_ind; intros Hr fuel rest Hf.
  - destruct fuel as [|fuel]; [cbn in Hf; lia|].
    cbn [show app read_from_tokens read_step].
    change (quoted_re (lit "(")) with false. cbv iota. rewrite str_eqb_refl.
    rewrite <- app_assoc. cbn [app readable] in *.
    rewrite read_list_show; [reflexivity|assumption| |].
    + clear rest. induction l as [|a l IHl]; constructor.
      * cbn [forallb] in Hr. apply andb_true_iff in Hr as [Ha Hl].
        inversion IH; subst. intros rest. apply H1; [assumption|].
        cbn [depth width fold_right length] in Hf. cbn [depth width] in *. lia.
      * cbn [forallb] in Hr. apply andb_true_iff in Hr as [Ha Hl].
        inversion IH; subst. apply IHl; try assumption.
        cbn [depth width fold_right length] in Hf |- *.
        assert (forall m, (fold_right (fun a n => Nat.max (width a) n) m l
                           <= fold_right (fun a n => Nat.max (width a) n) (S m) l)%nat) as Hm.
        { intros m. clear. induction l; cbn [fold_right]; lia. }
        specialize (Hm (S (length l))). lia.
    + cbn [depth width] in Hf.
      assert (forall m, (m <= fold_right (fun a n => Nat.max (width a) n) m l)%nat) as Hm.
      { intros m. clear. induction l; cbn [fold_right]; lia. }
      specialize (Hm (S (length l))). lia.
  - destruct (readable_atom v Hr Hv) as (t & -> & H1 & H2 & H3 & H4).
    destruct fuel as [|fuel]; [destruct v; cbn in Hf; lia|].
    cbn [app read_from_tokens read_step].
    destruct (run_token_head t H1) as (Q1 & Q2 & Q3 & _). rewrite Q1, Q2, Q3, H3.
    destruct (str_eqb (lit ";") t) eqn:E; [|reflexivity].
    apply str_eqb_eq in E. congruence.
Qed.

Lemma scan_run_token (t x : str) :
  run_token t = true -> ends_run x -> scan (t ++ x) = t :: scan x.
Proof.
  destruct t as [|c w]; [discriminate|]. unfold run_token, no_delim. cbn [forallb].
  intros [Hc Hw]%andb_true_iff Hx. apply negb_true_iff in Hc.
  cbn [app]. rewrite scan_run by assumption.
  destruct x as [|d x].
  - rewrite app_nil_r, (take_run_all w Hw). reflexivity.
  - rewrite take_run_app by exact Hx. rewrite (take_run_all w Hw). reflexivity.
Qed.

Lemma scan_render (v : value) :
  readable v = true -> forall x, ends_run x -> scan (render v ++ x) = show v ++ scan x.
Proof.
  induction v as [l IH|v Hv] using value_nested_ind; intros Hr x Hx.
  - cbn [render show readable] in *. change (lit "(") with [c_lparen].
    change (lit ")") with [c_rparen]. cbn [app]. rewrite scan_lparen. f_equal.
    rewrite <- !app_assoc. cbn [app].
    induction l as [|a l IHl]; [cbn; apply scan_rparen|].
    cbn [forallb] in Hr. apply andb_true_iff in Hr as [Ha Hl].
    inversion IH as [|? ? Pa Pl]; subst. cbn [map flat_map]. rewrite <- app_assoc.
    destruct l as [|b l'].
    + cbn [map join flat_map app]. rewrite (Pa Ha) by reflexivity.
      rewrite scan_rparen. reflexivity.
    + change (join [c_space] (render a :: map render (b :: l')))
        with (render a ++ c_space :: join [c_space] (map render (b :: l'))).
      rewrite <- app_assoc. cbn [app]. rewrite (Pa Ha) by reflexivity.
      rewrite scan_space. f_equal. apply IHl; assumption.
  - destruct (readable_atom v Hr Hv) as (t & Et & H1 & _).
    assert (render v = t) as ->.
    { destruct v; try discriminate; cbn [show render] in *; congruence. }
    rewrite Et. apply scan_run_token; assumption.
Qed.

(** The text of a readable value parses to the value. *)
Lemma parse_render (v : value) :
  readable v = true -> escape_free (render v) = true -> parse (render v) = Ret v [].
Proof.
  intros Hr He.
  assert (Hs : read_from_tokens (S (length (show v))) (show v) = Ret v []).
  { eapply read_from_tokens_enough; [|apply Nat.lt_succ_diag_r].
    rewrite <- (app_nil_r (show v)) at 1. apply read_from_tokens_show; [exact Hr|reflexivity]. }
  unfold parse, tokenize. rewrite l_escape_absent by assumption.
  rewrite <- (app_nil_r (render v)), scan_render by (exact Hr || exact I).
  rewrite scan_nil, app_nil_r. exact Hs.
Qed.

(** X6.  The reader reads back what is written: for a value built from
    integers, symbols that [atom] reads as themselves and lists, the tokens
    of the value, whatever follows them, are read as the value and the rest is
    left; and the text of the value, with single spaces between the items of
    a list or between all the tokens, parses to the value, when the text
    holds no escape sequence. *)
Theorem read_back (v : value) :
  readable v = true ->
  (exists fuel0, forall fuel rest,
      (fuel0 <= fuel)%nat -> read_from_tokens fuel (show v ++ rest) = Ret v rest) /\
  (escape_free (join [c_space] (show v)) = true ->
   parse (join [c_space] (show v)) = Ret v []) /\
  (escape_free (render v) = true -> parse (render v) = Ret v []).
Proof.
  intros Hr.
  assert (Hs : read_from_tokens (S (length (show v))) (show v) = Ret v []).
  { eapply read_from_tokens_enough; [|apply Nat.lt_succ_diag_r].
    rewrite <- (app_nil_r (show v)) at 1. apply read_from_tokens_show; [exact Hr|reflexivity]. }
  split; [|split].
  - exists (depth v + width v)%nat. intros fuel rest Hf. apply read_from_tokens_show; assumption.
  - intros He. unfold parse, tokenize. rewrite l_escape_absent by assumption.
    rewrite scan_join by apply readable_show, Hr. exact Hs.
  - intros He. apply parse_render; assumption.
Qed.

Lemma read_back_witness :
  let v := VList [VStr (lit "define"); VStr (lit "x");
                  VList [VStr (lit "+"); VInt (-3); VList []]] in
  (exists fuel0, forall fuel rest,
      (fuel0 <= fuel)%nat -> read_from_tokens fuel (show v ++ rest) = Ret v rest) /\
  parse (lit "( define x ( + -3 ( ) ) )") = Ret v [] /\
  parse (lit "(define x (+ -3 ()))") = Ret v [].
Proof.
  intros v. destruct (read_back v eq_refl) as (H1 & H2 & H3). split; [exact H1|].
  split; [apply H2|apply H3]; reflexivity.
Defined.


(* ===================================================================== *)
(** ** Reader: the ways it fails *)

Section ReaderErrors.
Variable rd : M (list str) value.

Hypothesis Hrd : forall t ts e rest, rd (t :: ts) = Raise e rest -> inner_error e.

Lemma read_list_errors n l ts e rest : read_list rd n l ts = Raise e rest -> inner_error e.
Proof.
  revert l ts. induction n as [|n IH]; intros l ts; cbn [read_list]; [discriminate|].
  destruct ts as [|t0 ts'].
  - intros [= <- _]. right. left. reflexivity.
  - destruct (str_eqb t0 (lit ")")); [discriminate|].
    unfold bind. destruct (rd (t0 :: ts')) as [t r|e' r| |] eqn:E; try discriminate.
    + apply IH.
    + intros [= <- _]. eapply Hrd, E.
Qed.

Lemma join_items_errors i l e : join_items i l = inl e -> exn_cls e = TypeError.
Proof.
  revert i. induction l as [|v l IH]; intros i; cbn [join_items]; [discriminate|].
  destruct v; try (intros [= <-]; reflexivity).
  destruct (join_items (S i) l) eqn:E; [|discriminate].
  intros [= <-]. eapply IH, E.
Qed.

Lemma read_comment_errors n l ts e rest :
  read_comment rd n l ts = Raise e rest -> inner_error e.
Proof.
  revert l ts. induction n as [|n IH]; intros l ts; cbn [read_comment]; [discriminate|].
  destruct ts as [|t0 ts'].
  - intros [= <- _]. right. left. reflexivity.
  - destruct (str_eqb t0 [c_newline]).
    + destruct (join_items 0 (l ++ [VStr t0])) eqn:E; [|discriminate].
      intros [= <- _]. right. right. eapply join_items_errors, E.
    + unfold bind. destruct (rd (t0 :: ts')) as [t r|e' r| |] eqn:E; try discriminate.
      * apply IH.
      * intros [= <- _]. eapply Hrd, E.
Qed.

Lemma read_step_errors n t ts e rest :
  read_step rd n (t :: ts) = Raise e rest -> inner_error e.
Proof.
  unfold read_step. destruct (quoted_re t); [discriminate|].
  destruct (str_eqb (lit "(") t); [apply read_list_errors|].
  destruct (str_eqb (lit ";") t); [apply read_comment_errors|].
  destruct (str_eqb (lit ")") t); [intros [= <- _]; left; reflexivity|].
  destruct (atom (strip t)); discriminate.
Qed.
End ReaderErrors.

Lemma read_from_tokens_errors fuel t ts e rest :
  read_from_tokens fuel (t :: ts) = Raise e rest -> inner_error e.
Proof.
  revert t ts e rest. induction fuel as [|fuel IH]; intros t ts e rest; [discriminate|].
  cbn [read_from_tokens]. apply read_step_errors. exact IH.
Qed.

(** X7.  [parse] fails in four ways only.  It raises the unexpected-EOF error
    exactly when the text has no token; otherwise it raises the error on a
    closing parenthesis, the [IndexError] of [tokens[0]] on a list or
    comment that is not closed, or the [TypeError] of the join of a comment. *)
Theorem parse_errors (program : str) (e : exn) (rest : list str) :
  parse program = Raise e rest ->
  (e = unexpected_eof <-> tokenize program = []) /\
  (e = unexpected_eof \/ inner_error e).
Proof.
  unfold parse. destruct (tokenize program) as [|t ts] eqn:Et.
  - cbn. intros [= <- _]. split; [split; reflexivity|left; reflexivity].
  - intros H. apply read_from_tokens_errors in H. split; [|right; exact H].
    split; [|discriminate]. intros ->.
    destruct H as [H|[H|H]]; discriminate.
Qed.

Lemma parse_errors_witness :
  let e := Exn IndexError (lit "list index out of range") in
  (e = unexpected_eof <-> tokenize (lit "(print (+ 1 2)") = []) /\
  (e = unexpected_eof \/ inner_error e).
Proof.
  apply (parse_errors (lit "(print (+ 1 2)") (Exn IndexError (lit "list index out of range")) []).
  reflexivity.
Defined.

(* ===================================================================== *)
(** ** Reader: string literals *)

Lemma l_escape_nonempty (c : char) (s : str) : l_escape (c :: s) <> [].
Proof.
  destruct (N.eq_dec c c_backslash) as [->|Hc].
  - destruct s as [|d t]; [rewrite l_escape_last; discriminate|].
    destruct (N.eq_dec d c_backslash) as [->|H1]; [rewrite l_escape_backslash; discriminate|].
    destruct (N.eq_dec d c_dquote) as [->|H2]; [rewrite l_escape_dquote; discriminate|].
    destruct (N.eq_dec d c_n) as [->|H3]; [rewrite l_escape_n; discriminate|].
    rewrite l_escape_lone by assumption. discriminate.
  - rewrite l_escape_other by assumption. discriminate.
Qed.

Lemma last_cons_nonempty {A} (a : A) (l : list A) : l <> [] -> last (a :: l) = last l.
Proof. destruct l; [congruence|reflexivity]. Qed.

(** A closing quote after [s] is escaped with it only when the escaped text
    ends with a backslash. *)
Lemma l_escape_snoc_dquote (s : str) :
  last (l_escape s) <> Some c_backslash ->
  l_escape (s ++ [c_dquote]) = l_escape s ++ [c_dquote].
Proof.
  induction s as [| c | c d t IHt IHdt] using list_ind2; intros Hl.
  - reflexivity.
  - destruct (N.eq_dec c c_backslash) as [->|Hc].
    + rewrite l_escape_last in Hl. exfalso. apply Hl. reflexivity.
    + cbn [app]. rewrite !l_escape_other, l_escape_nil by (assumption || discriminate).
      reflexivity.
  - cbn [app] in *. destruct (N.eq_dec c c_backslash) as [->|Hc].
    + destruct (N.eq_dec d c_backslash) as [->|H1].
      { rewrite l_escape_backslash in Hl. rewrite !l_escape_backslash. cbn [app]. f_equal. apply IHt.
        destruct t as [|x t]; [rewrite l_escape_nil; discriminate|].
        rewrite last_cons_nonempty in Hl by apply l_escape_nonempty. exact Hl. }
      destruct (N.eq_dec d c_dquote) as [->|H2].
      { rewrite l_escape_dquote in Hl. rewrite !l_escape_dquote. cbn [app]. f_equal. apply IHt.
        destruct t as [|x t]; [rewrite l_escape_nil; discriminate|].
        rewrite last_cons_nonempty in Hl by apply l_escape_nonempty. exact Hl. }
      destruct (N.eq_dec d c_n) as [->|H3].
      { rewrite l_escape_n in Hl. rewrite !l_escape_n. cbn [app]. f_equal. apply IHt.
        destruct t as [|x t]; [rewrite l_escape_nil; discriminate|].
        rewrite last_cons_nonempty in Hl by apply l_escape_nonempty. exact Hl. }
      rewrite l_escape_lone in Hl by assumption.
      rewrite !l_escape_lone by assumption. cbn [app]. do 2 f_equal. apply IHt.
      destruct t as [|x t]; [rewrite l_escape_nil; discriminate|].
      rewrite !last_cons_nonempty in Hl by (discriminate || apply l_escape_nonempty). exact Hl.
    + rewrite (l_escape_other c) in Hl by assumption.
      rewrite !(l_escape_other c) by assumption. cbn [app]. f_equal. apply IHdt.
      rewrite last_cons_nonempty in Hl by apply l_escape_nonempty. exact Hl.
Qed.

Lemma tokenize_string_literal (s : str) :
  has_char c_dquote (l_escape s) = false -> last (l_escape s) <> Some c_backslash ->
  tokenize (c_dquote :: s ++ [c_dquote]) = [c_dquote :: l_escape s ++ [c_dquote]].
Proof.
  intros Hq Hl. unfold tokenize.
  rewrite l_escape_other, l_escape_snoc_dquote by (assumption || discriminate).
  rewrite scan_quote, until_quote_found, scan_nil by assumption. reflexivity.
Qed.




(* ===================================================================== *)
(** ** [get_args] *)

Lemma get_args_step_error (l : list value) (e : exn) :
  fold_right get_args_step (inl e) l = inl e.
Proof. induction l as [|a l IH]; [reflexivity|]. cbn [fold_right]. rewrite IH. reflexivity. Qed.

(** The loop, started on the enumeration of [pre] with the list [pre ++ l],
    does what the steps do from right to left. *)
Lemma get_args_loop_steps (pre l : list value) (d : odict) :
  get_args_loop (rev (imap pair pre)) (pre ++ l) d
  = fold_right get_args_step (inr (l, d)) pre.
Proof.
  revert l d. induction pre as [|a pre IH] using rev_ind; intros l d; [reflexivity|].
  rewrite imap_app, rev_app_distr, fold_right_app. cbn [imap rev app fold_right get_args_loop].
  rewrite Nat.add_0_r. cbn [get_args_step].
  destruct (supplied a) as [k|] eqn:Ea.
  - rewrite <- app_assoc. cbn [app].
    replace (length pre + 1)%nat with (length pre + 1)%nat by reflexivity.
    rewrite lookup_app_r by lia. replace (length pre + 1 - length pre)%nat with 1%nat by lia.
    cbn [lookup]. destruct l as [|v l'].
    + cbn. rewrite get_args_step_error. reflexivity.
    + change ((a :: v :: l') !! 1%nat) with (Some v).
      replace (delete (length pre + 1)%nat (pre ++ a :: v :: l')) with (pre ++ a :: l').
      * rewrite delete_middle. apply IH.
      * replace (length pre + 1)%nat with (length (pre ++ [a])) by (rewrite length_app; reflexivity).
        change (pre ++ a :: v :: l') with (pre ++ [a] ++ v :: l').
        rewrite (app_assoc pre [a]), delete_middle, <- app_assoc. reflexivity.
  - rewrite <- app_assoc. cbn [app]. apply IH.
Qed.

Lemma get_args_steps (args : list value) :
  get_args_loop (rev (imap pair args)) args [] = fold_right get_args_step (inr ([], [])) args.
Proof. rewrite <- (app_nil_r args) at 2. apply get_args_loop_steps. Qed.

Lemma get_args_fold (args : list value) :
  get_args args =
  match fold_right get_args_step (inr ([], [])) args with
  | inr (l, d) => inr (l, od_of (rev d))
  | inl e => inl e
  end.
Proof. unfold get_args. rewrite get_args_steps. reflexivity. Qed.

Lemma get_args_steps_positional (args l : list value) (d : odict) :
  fold_right get_args_step (inr ([], [])) args = inr (l, d) ->
  Forall (fun a => supplied a = None) l /\ sublist l args /\
  (length l + 2 * length (filter (fun a => is_Some (supplied a)) args) = length args)%nat.
Proof.
  revert l d. induction args as [|a args IH]; intros l d; cbn [fold_right].
  - intros [= <- <-]. repeat split; constructor.
  - destruct (fold_right get_args_step (inr ([], [])) args) as [e|[l0 d0]]; [discriminate|].
    destruct (IH l0 d0 eq_refl) as (H1 & H2 & H3). cbn [get_args_step].
    rewrite filter_cons. destruct (supplied a) as [k|] eqn:Ea.
    + destruct l0 as [|v l0']; [discriminate|]. intros [= <- <-].
      inversion H1; subst. split; [assumption|]. split.
      * apply sublist_cons. etrans; [apply sublist_cons|exact H2]. reflexivity.
      * rewrite decide_True by (eexists; reflexivity). cbn [length] in *. lia.
    + intros [= <- <-]. split; [constructor; assumption|]. split.
      * apply sublist_skip, H2.
      * rewrite decide_False by (intros [? ?]; discriminate). cbn [length] in *. lia.
Qed.

(** X9.  When [get_args] returns, no string that starts with a colon is left
    among the positional arguments; they are a subsequence of the arguments,
    and every such string of the arguments has taken one argument with it. *)
Theorem get_args_positional (args l : list value) (d : odict) :
  get_args args = inr (l, d) ->
  Forall (fun a => supplied a = None) l /\ sublist l args /\
  (length l + 2 * length (filter (fun a => is_Some (supplied a)) args) = length args)%nat.
Proof.
  rewrite get_args_fold.
  destruct (fold_right get_args_step (inr ([], [])) args) as [e|[l0 d0]] eqn:E; [discriminate|].
  intros [= <- _]. eapply get_args_steps_positional, E.
Qed.

Lemma get_args_positional_witness :
  let args := [VInt 1; VStr (lit ":sep"); VStr (lit ","); VInt 2] in
  Forall (fun a => supplied a = None) [VInt 1; VInt 2] /\ sublist [VInt 1; VInt 2] args /\
  (length [VInt 1; VInt 2] + 2 * length (filter (fun a => is_Some (supplied a)) args)
   = length args)%nat.
Proof.
  apply (get_args_positional [VInt 1; VStr (lit ":sep"); VStr (lit ","); VInt 2]
           [VInt 1; VInt 2] [(lit "sep", VStr (lit ","))]).
  reflexivity.
Defined.

Lemma od_set_fresh (k : str) (v : value) (d : odict) :
  k ∉ d.*1 -> od_set k v d = d ++ [(k, v)].
Proof.
  induction d as [|[k' v'] d IH]; [reflexivity|]. cbn [od_set fmap list_fmap fst app].
  rewrite not_elem_of_cons. intros [Hk Hd].
  destruct (str_eqb k' k) eqn:E; [apply str_eqb_eq in E; congruence|].
  rewrite IH by assumption. reflexivity.
Qed.

Lemma od_of_app (d : odict) (pairs : list (str * value)) :
  NoDup (d.*1 ++ pairs.*1) ->
  fold_left (fun d '(k, v) => od_set k v d) pairs d = d ++ pairs.
Proof.
  revert d. induction pairs as [|[k v] pairs IH]; intros d Hnd; cbn [fold_left].
  - rewrite app_nil_r. reflexivity.
  - cbn [fmap list_fmap fst] in Hnd. rewrite od_set_fresh.
    + rewrite IH; [rewrite <- app_assoc; reflexivity|].
      rewrite fmap_app. cbn [fmap list_fmap fst]. rewrite <- app_assoc. exact Hnd.
    + apply NoDup_app in Hnd as (_ & Hnd & _). intros Hin. apply (Hnd k Hin). left.
Qed.

Lemma od_of_NoDup (pairs : list (str * value)) : NoDup pairs.*1 -> od_of pairs = pairs.
Proof. intros H. unfold od_of. rewrite od_of_app; [reflexivity|exact H]. Qed.

Lemma get_args_steps_supply (kws : list (str * value)) :
  Forall (fun kv => supplied kv.2 = None) kws -> NoDup kws.*1 ->
  fold_right get_args_step (inr ([], [])) (supply kws) = inr ([], rev kws).
Proof.
  induction kws as [|[k v] kws IH]; intros Hv Hnd; [reflexivity|].
  inversion Hv as [|? ? Hv1 Hv2]; subst. inversion Hnd as [|? ? Hk Hnd']; subst.
  cbn [supply flat_map app fold_right fst snd] in *.
  fold (supply kws). rewrite IH by assumption. cbn [get_args_step].
  rewrite Hv1. cbn [get_args_step supplied]. change (char_eqb 58%N 58%N) with true. cbv iota.
  rewrite od_set_fresh; [reflexivity|].
  intros Hin. apply Hk. apply list_elem_of_fmap in Hin as (kv & E & Hin).
  apply list_elem_of_fmap. exists kv. split; [exact E|].
  apply list_elem_of_In, in_rev, list_elem_of_In. exact Hin.
Qed.

Lemma get_args_steps_plain (pos : list value) (l : list value) (d : odict) :
  Forall (fun a => supplied a = None) pos ->
  fold_right get_args_step (inr (l, d)) pos = inr (pos ++ l, d).
Proof.
  induction 1 as [|a pos Ha _ IH]; [reflexivity|].
  cbn [fold_right app]. rewrite IH. cbn [get_args_step]. rewrite Ha. reflexivity.
Qed.

Lemma get_args_step_plain (a : value) (l : list value) (d : odict) :
  supplied a = None -> get_args_step a (inr (l, d)) = inr (a :: l, d).
Proof. intros H. cbn [get_args_step]. rewrite H. reflexivity. Qed.

Lemma get_args_step_supplied (a : value) (k : str) (v : value) (l : list value) (d : odict) :
  supplied a = Some k -> get_args_step a (inr (v :: l, d)) = inr (l, od_set k v d).
Proof. intros H. cbn [get_args_step]. rewrite H. reflexivity. Qed.

(** X10.  Positional arguments followed by supplied ones: when no positional
    argument and no value is a string that starts with a colon and the names
    are distinct, [get_args] returns the positional arguments and the
    dictionary of the supplied ones, in the order they are written.  A name
    supplied twice keeps the value that comes first. *)
Theorem get_args_supply (pos : list value) (kws : list (str * value)) :
  Forall (fun a => supplied a = None) pos ->
  Forall (fun kv => supplied kv.2 = None) kws ->
  (NoDup kws.*1 -> get_args (pos ++ supply kws) = inr (pos, kws)) /\
  (forall k x y,
     supplied x = None -> supplied y = None ->
     get_args (pos ++ supply [(k, x); (k, y)]) = inr (pos, [(k, x)])).
Proof.
  intros Hpos Hkws. split.
  - intros Hnd. rewrite get_args_fold, fold_right_app, get_args_steps_supply by assumption.
    rewrite get_args_steps_plain by assumption. rewrite app_nil_r, rev_involutive.
    rewrite od_of_NoDup by assumption. reflexivity.
  - intros k x y Hx Hy. rewrite get_args_fold, fold_right_app.
    assert (Hk : supplied (VStr (58%N :: k)) = Some k) by reflexivity.
    cbn [supply flat_map app fold_right].
    rewrite (get_args_step_plain y), (get_args_step_supplied _ k), (get_args_step_plain x),
      (get_args_step_supplied _ k) by assumption.
    cbn [od_set]. rewrite str_eqb_refl.
    rewrite get_args_steps_plain by assumption. rewrite app_nil_r. reflexivity.
Qed.

Lemma get_args_supply_witness :
  get_args [VInt 1; VStr (lit "b"); VStr (lit ":sep"); VStr (lit ","); VStr (lit ":end"); VNone]
  = inr ([VInt 1; VStr (lit "b")], [(lit "sep", VStr (lit ",")); (lit "end", VNone)]) /\
  get_args [VInt 1; VStr (lit "b"); VStr (lit ":sep"); VInt 3; VStr (lit ":sep"); VInt 4]
  = inr ([VInt 1; VStr (lit "b")], [(lit "sep", VInt 3)]).
Proof.
  destruct (get_args_supply [VInt 1; VStr (lit "b")]
              [(lit "sep", VStr (lit ",")); (lit "end", VNone)]) as [H1 H2].
  - repeat constructor.
  - repeat constructor.
  - split.
    + apply H1. apply NoDup_cons. split; [|apply NoDup_singleton].
      intros H. apply list_elem_of_singleton in H. discriminate H.
    + apply (H2 (lit "sep") (VInt 3) (VInt 4)); reflexivity.
Defined.

(** X11.  A supplied argument needs a value that is not itself taken: when
    the arguments after a string that starts with a colon leave no positional
    argument, [get_args] fails with the error that names that string,
    whatever stands before it.  So it fails when such a string is the last
    argument, and when it is followed by another supplied argument only. *)
Theorem get_args_without_value (pre suf : list value) (a : value) (k : str) (d : odict) :
  supplied a = Some k -> get_args suf = inr ([], d) ->
  get_args (pre ++ a :: suf) = inl (without_value a).
Proof.
  intros Ha. rewrite !get_args_fold, fold_right_app. cbn [fold_right].
  destruct (fold_right get_args_step (inr ([], [])) suf) as [e|[l0 d0]]; [discriminate|].
  intros [= -> _]. cbn [get_args_step]. rewrite Ha, get_args_step_error. reflexivity.
Qed.

Lemma get_args_without_value_witness :
  get_args [VInt 1; VStr (lit ":a"); VStr (lit ":b"); VInt 2]
  = inl (Exn CustomCommandSyntaxError (lit "supplied argument :a given without value")) /\
  get_args [VInt 1; VStr (lit ":a")]
  = inl (Exn CustomCommandSyntaxError (lit "supplied argument :a given without value")).
Proof.
  split.
  - apply (get_args_without_value [VInt 1] [VStr (lit ":b"); VInt 2] (VStr (lit ":a")) (lit "a")
             [(lit "b", VInt 2)]); reflexivity.
  - apply (get_args_without_value [VInt 1] [] (VStr (lit ":a")) (lit "a") []); reflexivity.
Defined.


(* ===================================================================== *)
(** ** The standard library: lists *)

Lemma index_in_nat {A} (l : list A) (i : nat) :
  (i < length l)%nat -> index_in l (Z.of_nat i) = l !! i.
Proof.
  intros H. unfold index_in.
  replace (0 <=? Z.of_nat i) with true by (symmetry; apply Z.leb_le; lia).
  replace (Z.of_nat i <? Z.of_nat (length l)) with true by (symmetry; apply Z.ltb_lt; lia).
  cbn [andb]. rewrite Nat2Z.id. reflexivity.
Qed.

Lemma index_in_back {A} (l : list A) (i : nat) :
  (0 < i <= length l)%nat -> index_in l (- Z.of_nat i) = l !! (length l - i)%nat.
Proof.
  intros H. unfold index_in.
  replace (0 <=? - Z.of_nat i) with false by (symmetry; apply Z.leb_gt; lia).
  cbn [andb].
  replace (- Z.of_nat (length l) <=? - Z.of_nat i) with true by (symmetry; apply Z.leb_le; lia).
  replace (- Z.of_nat i <? 0) with true by (symmetry; apply Z.ltb_lt; lia).
  cbn [andb]. f_equal. lia.
Qed.

Lemma index_in_out {A} (l : list A) (z : Z) :
  z < - Z.of_nat (length l) \/ Z.of_nat (length l) <= z -> index_in l z = None.
Proof.
  intros H. unfold index_in.
  destruct (0 <=? z) eqn:E1, (z <? Z.of_nat (length l)) eqn:E2,
           (- Z.of_nat (length l) <=? z) eqn:E3, (z <? 0) eqn:E4; cbn [andb]; try reflexivity;
    try apply Z.leb_le in E1; try apply Z.ltb_lt in E2; try apply Z.leb_le in E3;
    try apply Z.ltb_lt in E4; try apply Z.leb_gt in E1; try apply Z.ltb_ge in E2; lia.
Qed.

Lemma slice_tail {A} (x : A) (l : list A) : slice (x :: l) (Some 1) None = l.
Proof.
  unfold slice, clamp. cbn [length]. change (1 <? 0) with false. cbv iota.
  rewrite Z.min_r, Z.max_r by lia. change (Z.to_nat 1) with 1%nat. cbn [drop].
  rewrite drop_0. replace (Z.to_nat (Z.of_nat (S (length l)) - 1)) with (length l) by lia.
  apply firstn_all.
Qed.

(** X12.  The list primitives: [car] and [cdr] take apart what [cons] puts
    together, and [len] counts it; on the empty list [car] raises
    [IndexError] while [cdr] returns the empty list. *)
Theorem cons_car_cdr {S : Type} (x : value) (l : list value) (st : S) :
  call_builtin BCons [x; VList l] st = Ret (VList (x :: l)) st /\
  call_builtin BCar [VList (x :: l)] st = Ret x st /\
  call_builtin BCdr [VList (x :: l)] st = Ret (VList l) st /\
  call_builtin BLen [VList (x :: l)] st = Ret (VInt (1 + Z.of_nat (length l))) st /\
  call_builtin BCar [VList []] st = Raise (Exn IndexError (lit "list index out of range")) st /\
  call_builtin BCdr [VList []] st = Ret (VList []) st.
Proof.
  repeat split; try reflexivity.
  - cbn [call_builtin py_slice slice_bound as_int]. rewrite slice_tail. reflexivity.
  - cbn [call_builtin py_len]. unfold bind, ret. cbn [length]. do 2 f_equal. lia.
Qed.

(* ===================================================================== *)
(** ** [transcode]: what the translation does to each character *)

Lemma assoc_app (c : char) (t1 t2 : list (char * char)) :
  assoc c (t1 ++ t2) = match assoc c t1 with Some d => Some d | None => assoc c t2 end.
Proof.
  induction t1 as [|[k v] t1 IH]; [reflexivity|]. cbn [app assoc].
  destruct (char_eqb c k); [reflexivity|exact IH].
Qed.

Lemma assoc_absent (c : char) (a b : str) : ~ In c a -> assoc c (maketrans a b) = None.
Proof.
  intros Hc. unfold maketrans. destruct (assoc c (rev (zip a b))) as [d|] eqn:E; [|reflexivity].
  exfalso. apply Hc. apply assoc_Some_In in E. rewrite <- in_rev in E. eapply In_zip_l, E.
Qed.

(** The table maps a character to the one that stands in [b] where the
    character stands last in [a]. *)
Lemma assoc_last (a b : str) (c d : char) (j : nat) :
  a !! j = Some c -> (forall j', (j < j')%nat -> a !! j' <> Some c) -> b !! j = Some d ->
  assoc c (maketrans a b) = Some d.
Proof.
  unfold maketrans. revert b j. induction a as [|x a IH]; intros [|y b] j Ha Hlast Hb;
    try discriminate.
  cbn [zip zip_with rev]. rewrite assoc_app. destruct j as [|j].
  - cbn in Ha, Hb. injection Ha as ->. injection Hb as ->.
    fold (maketrans a b). rewrite assoc_absent.
    + cbn [assoc]. rewrite char_eqb_refl. reflexivity.
    + intros Hin. apply list_elem_of_In, list_elem_of_lookup in Hin as [j' Hj'].
      apply (Hlast (Datatypes.S j')); [lia|exact Hj'].
  - cbn in Ha, Hb. rewrite (IH b j Ha); [reflexivity| |exact Hb].
    intros j' Hj'. apply (Hlast (Datatypes.S j')). lia.
Qed.

Lemma lookup_map {A B} (f : A -> B) (l : list A) (i : nat) : map f l !! i = f <$> l !! i.
Proof.
  revert i. induction l as [|a l IH]; intros [|i]; cbn; try reflexivity. apply IH.
Qed.

(** X13.  [transcode] with two mapping strings of the same length returns a
    string of the length of its input, in which every character that does
    not occur in the first mapping string is unchanged and every other
    character is replaced by the one that has, in the second mapping string,
    the position of its last occurrence in the first.  Arguments after the
    two mapping strings are not looked at. *)
Theorem transcode_characters {S : Type} (s a b : str) (more : list value) (st : S) :
  length a = length b ->
  exists t,
    transcode (VStr s) (VStr a :: VStr b :: more) st = Ret (VStr t) st /\
    length t = length s /\
    forall i c, s !! i = Some c ->
      (has_char c a = false -> t !! i = Some c) /\
      (forall j d,
         a !! j = Some c -> (forall j', (j < j')%nat -> a !! j' <> Some c) -> b !! j = Some d ->
         t !! i = Some d).
Proof.
  intros Hlen. exists (translate (maketrans a b) s). split; [|split].
  - cbn [transcode]. unfold transcode_with. rewrite Hlen, Nat.eqb_refl. reflexivity.
  - unfold translate. apply length_map.
  - intros i c Hi. unfold translate. rewrite lookup_map, Hi. cbn. split.
    + intros Hc. rewrite assoc_absent; [reflexivity|]. apply has_char_not_In, Hc.
    + intros j d Ha Hlast Hb. rewrite (assoc_last a b c d j); [reflexivity|assumption..].
Qed.

Lemma transcode_characters_witness :
  exists t,
    transcode (VStr (lit "banana")) [VStr (lit "ana"); VStr (lit "xyz")] tt = Ret (VStr t) tt /\
    length t = length (lit "banana") /\
    t !! 0%nat = Some 98%N /\ t !! 1%nat = Some 122%N.
Proof.
  destruct (transcode_characters (S := unit) (lit "banana") (lit "ana") (lit "xyz") [] tt eq_refl)
    as (t & H1 & H2 & H3).
  exists t. split; [exact H1|]. split; [exact H2|]. split.
  - apply (H3 0%nat 98%N); reflexivity.
  - apply (proj2 (H3 1%nat 97%N eq_refl) 2%nat 122%N); try reflexivity.
    intros j' Hj'. destruct j' as [|[|[|j']]]; try lia. discriminate.
Defined.

Lemma alt_code_length (name to : str) :
  lookup_name name alt_code = Some to -> length to = length def_code.
Proof.
  unfold alt_code. cbn [lookup_name].
  repeat match goal with
         | |- context [if str_eqb name ?k then _ else _] =>
           destruct (str_eqb name k); [intros [= <-]; reflexivity|]
         end.
  discriminate.
Qed.

(** X14.  A named transcoding never fails on a string: every alphabet of the
    table has the 52 characters that [maketrans] needs.  For a name of the
    table, in any case of its letters, the result has the length of the
    input and only the 52 ASCII letters are changed; any other name than
    help is refused with the error that shows it in lower case. *)
Theorem transcode_named {S : Type} (s a : str) (st : S) :
  forallb is_ascii a = true -> lower a <> lit "help" ->
  match lookup_name (lower a) alt_code with
  | Some to =>
    exists t,
      transcode (VStr s) [VStr a] st = Ret (VStr t) st /\ length t = length s /\
      forall i c, s !! i = Some c -> has_char c def_code = false -> t !! i = Some c
  | None =>
    transcode (VStr s) [VStr a] st
    = Raise (Exn CustomCommandSyntaxError (transcode_unknown (lower a))) st
  end.
Proof.
  intros Ha Hh. cbn [transcode]. rewrite Ha. cbn [negb].
  destruct (str_eqb (lower a) (lit "help")) eqn:E; [apply str_eqb_eq in E; congruence|].
  destruct (lookup_name (lower a) alt_code) as [to|] eqn:El; [|reflexivity].
  pose proof (alt_code_length _ _ El) as Hlen.
  exists (translate (maketrans def_code to) s). split; [|split].
  - unfold transcode_with. rewrite Hlen, Nat.eqb_refl. reflexivity.
  - apply length_map.
  - intros i c Hi Hc. unfold translate. rewrite lookup_map, Hi.
    unfold fmap, option_fmap, option_map.
    rewrite assoc_absent; [reflexivity|]. apply has_char_not_In, Hc.
Qed.

Lemma transcode_named_witness :
  (exists t,
     transcode (VStr (lit "Hi, you!")) [VStr (lit "Circled")] tt = Ret (VStr t) tt /\
     length t = length (lit "Hi, you!") /\
     forall i c, lit "Hi, you!" !! i = Some c -> has_char c def_code = false -> t !! i = Some c) /\
  transcode (VStr (lit "Hi, you!")) [VStr (lit "Morse")] tt
  = Raise (Exn CustomCommandSyntaxError (transcode_unknown (lit "morse"))) tt.
Proof.
  split.
  - apply (transcode_named (S := unit) (lit "Hi, you!") (lit "Circled") tt);
      [reflexivity|discriminate].
  - apply (transcode_named (S := unit) (lit "Hi, you!") (lit "Morse") tt);
      [reflexivity|discriminate].
Defined.

Lemma rot13_char (c : char) :
  let f := fun c => match assoc c rot13_table with Some d => d | None => c end in
  f (f c) = c.
Proof.
  cbn zeta. destruct (assoc c rot13_table) as [d|] eqn:E; rewrite !E.
  - apply assoc_Some_In in E. unfold rot13_table in E. cbn [In] in E.
    repeat (destruct E as [E|E]; [injection E as <- <-; reflexivity|]). destruct E.
  - reflexivity.
Qed.

(** X15.  The rot13 transcoding is its own inverse: applied twice to a
    string, under any spelling of its name, it gives the string back. *)
Theorem rot13_twice {S : Type} (s a b : str) (st : S) :
  forallb is_ascii a = true -> lower a = lit "rot13" ->
  forallb is_ascii b = true -> lower b = lit "rot13" ->
  exists t,
    transcode (VStr s) [VStr a] st = Ret (VStr t) st /\
    transcode (VStr t) [VStr b] st = Ret (VStr s) st.
Proof.
  intros Ha Ea Hb Eb. exists (translate rot13_table s). cbn [transcode].
  rewrite Ha, Hb, Ea, Eb. cbn [negb]. change (str_eqb (lit "rot13") (lit "help")) with false.
  cbv iota. change (lookup_name (lit "rot13") alt_code) with
    (Some [78; 79; 80; 81; 82; 83; 84; 85; 86; 87; 88; 89; 90; 110; 111; 112; 113; 114; 115; 116;
           117; 118; 119; 120; 121; 122; 65; 66; 67; 68; 69; 70; 71; 72; 73; 74; 75; 76; 77; 97;
           98; 99; 100; 101; 102; 103; 104; 105; 106; 107; 108; 109]%N).
  cbv iota. unfold transcode_with. cbn [length Nat.eqb negb].
  change (length def_code) with 52%nat. cbn [Nat.eqb negb].
  split; [reflexivity|]. unfold ret. do 2 f_equal.
  change (maketrans def_code _) with rot13_table.
  unfold translate. rewrite map_map. rewrite <- (map_id s) at 2.
  apply map_ext. intros c. apply rot13_char.
Qed.

Lemma rot13_twice_witness :
  exists t,
    transcode (VStr (lit "Hello, World!")) [VStr (lit "ROT13")] tt = Ret (VStr t) tt /\
    transcode (VStr t) [VStr (lit "rot13")] tt = Ret (VStr (lit "Hello, World!")) tt.
Proof.
  apply (rot13_twice (S := unit) (lit "Hello, World!") (lit "ROT13") (lit "rot13") tt);
    reflexivity.
Defined.


(* ===================================================================== *)
(** ** Evaluator: symbols with an index path *)

Lemma split_char_plain (sep : char) (s : str) :
  has_char sep s = false -> split_char sep s = [s].
Proof.
  induction s as [|c r IH]; [reflexivity|].
  rewrite has_char_cons. intros [Hc Hr]%orb_false_iff.
  cbn [split_char]. rewrite char_eqb_sym, Hc, (IH Hr). reflexivity.
Qed.

Lemma split_char_app (sep : char) (s r : str) :
  has_char sep s = false -> split_char sep (s ++ sep :: r) = s :: split_char sep r.
Proof.
  induction s as [|c s IH]; intros Hs.
  - cbn [app split_char]. rewrite char_eqb_refl. reflexivity.
  - rewrite has_char_cons in Hs. apply orb_false_iff in Hs as [Hc Hs].
    cbn [app split_char]. rewrite char_eqb_sym, Hc, (IH Hs). reflexivity.
Qed.

Lemma split_char_join (sep : char) (l : str) (ds : list str) :
  has_char sep l = false -> Forall (fun d => has_char sep d = false) ds ->
  split_char sep (join [sep] (l :: ds)) = l :: ds.
Proof.
  intros Hl Hds. revert l Hl. induction Hds as [|d ds Hd _ IH]; intros l Hl.
  - cbn [join]. apply split_char_plain, Hl.
  - change (join [sep] (l :: d :: ds)) with (l ++ sep :: join [sep] (d :: ds)).
    rewrite split_char_app, IH by assumption. reflexivity.
Qed.

Lemma str_of_nat_digits (i : nat) :
  isdigit (str_of_nat i) = true /\ has_char 58%N (str_of_nat i) = false.
Proof.
  unfold str_of_nat. destruct (Z.of_nat i) as [|p|p] eqn:E; [split; reflexivity| |lia].
  rewrite str_of_pos. pose proof (digits_ascii (Pos.to_uint p)) as Hd. split.
  - unfold isdigit. rewrite Hd.
    pose proof (to_uint_nonnil p). destruct (Pos.to_uint p); [congruence|..]; reflexivity.
  - apply has_char_not_In. intros Hin. rewrite forallb_forall in Hd.
    specialize (Hd _ Hin). discriminate.
Qed.

Section IndexPath.
Variable rec : value -> addr -> M state value.

Lemma eval_indexes_digits (ixs : list nat) (env : addr) (st : state) :
  Forall (fun i => (length (str_of_nat i) <= max_str_digits)%nat) ixs ->
  eval_indexes rec (map str_of_nat ixs) env st
  = Ret (map (fun i => VInt (Z.of_nat i)) ixs) st.
Proof.
  induction 1 as [|i ixs Hi _ IH]; [reflexivity|]. cbn [map eval_indexes].
  unfold str_of_nat at 1 2 3. rewrite str_of_Z_ascii. cbn [negb orb].
  apply Nat.ltb_ge in Hi. unfold str_of_nat in Hi. rewrite Hi.
  fold (str_of_nat i). rewrite (proj1 (str_of_nat_digits i)).
  unfold str_of_nat. rewrite py_int_str_of_Z. cbn [fmap option_fmap option_map lift_opt].
  unfold bind at 1. unfold ret at 1. unfold bind at 1. fold (str_of_nat) in IH.
  change (map (fun i => str_of_Z (Z.of_nat i)) ixs) with (map str_of_nat ixs).
  rewrite IH. reflexivity.
Qed.
End IndexPath.



(* ===================================================================== *)
(** ** Evaluator: special forms with the wrong number of items *)

Lemma unpack_error_msg (expected got : nat) (st : state) (A : Type) :
  @unpack_error A expected got st = Raise (Exn ValueError (unpack_msg expected got)) st.
Proof. unfold unpack_error, unpack_msg. destruct (got <? expected)%nat; reflexivity. Qed.

Lemma unpack_msg_short (expected got : nat) :
  (expected <= 4)%nat -> (length (unpack_msg expected got) <= 1500)%nat.
Proof.
  intros He. unfold unpack_msg. destruct (got <? expected)%nat eqn:E.
  - apply Nat.ltb_lt in E.
    destruct expected as [|[|[|[|[|?]]]]]; try lia;
      destruct got as [|[|[|[|?]]]]; try lia; apply Nat.leb_le; reflexivity.
  - destruct expected as [|[|[|[|[|?]]]]]; try lia; apply Nat.leb_le; reflexivity.
Qed.

Lemma arity_bound (f : form) (n : nat) : arity f = Some n -> (n <= 4)%nat.
Proof. destruct f; intros [= <-]; lia. Qed.

Lemma eval_form_arity rec loops (hs : str) (tl : list value) (env : addr) (st : state) (n : nat) :
  arity (classify (VStr hs)) = Some n -> length (VStr hs :: tl) <> n ->
  eval_form rec loops (VList (VStr hs :: tl)) env st
  = Raise (Exn ValueError (unpack_msg n (length (VStr hs :: tl)))) st.
Proof.
  intros Ha Hn. cbn [eval_form is_opaque].
  destruct (classify (VStr hs)); try discriminate; injection Ha as <-;
    destruct tl as [|a [|b [|c [|d tl]]]]; cbn [length] in Hn; try lia;
      try apply unpack_error_msg;
      destruct a; apply unpack_error_msg.
Qed.

(** X17.  A special form with the wrong number of items is refused before
    anything is evaluated: [quote] takes two items with its head, [if] and
    [check-within] four, [define], [def], [:=], [lambda], [check-expect],
    [member?] and [struct] three; any other number raises the error of the
    unpacking under the name of the form, and the state is unchanged.  So an
    [if] without alternative fails. *)
Theorem special_form_arity (fuel : nat) (hs : str) (tl : list value) (env : addr) (st : state)
    (n : nat) :
  unlimited st env ->
  arity (classify (VStr hs)) = Some n -> length (VStr hs :: tl) <> n ->
  lisp_eval (S fuel) (VList (VStr hs :: tl)) env st
  = Raise (Exn CustomCommandSyntaxError
             (lit "(" ++ hs ++ lit "): " ++ unpack_msg n (length (VStr hs :: tl)))) st.
Proof.
  intros Hu Ha Hn. cbn [lisp_eval]. rewrite eval_step_unlimited by assumption.
  rewrite (try_raise _ _ _ _ _ (eval_form_arity _ _ hs tl env st n Ha Hn)).
  apply reraise_short; [reflexivity|]. apply unpack_msg_short. eapply arity_bound, Ha.
Qed.

Lemma special_form_arity_witness :
  lisp_eval 1 (VList [VStr (lit "if"); VBool true; VInt 1]) global_env
    (initial_state (fun _ => 0))
  = Raise (Exn CustomCommandSyntaxError
             (lit "(if): not enough values to unpack (expected 4, got 3)"))
          (initial_state (fun _ => 0)).
Proof.
  apply (special_form_arity 0 (lit "if") [VBool true; VInt 1] global_env
           (initial_state (fun _ => 0)) 4).
  - eexists. split; reflexivity.
  - reflexivity.
  - discriminate.
Defined.

(* ===================================================================== *)
(** ** Evaluator: [args] *)

Lemma slice_nat {A} (l : list A) (a b : nat) :
  slice l (Some (Z.of_nat a)) (Some (Z.of_nat b)) = take (b - a) (drop a l).
Proof.
  unfold slice, clamp.
  replace (Z.of_nat a <? 0) with false by (symmetry; apply Z.ltb_ge; lia).
  replace (Z.of_nat b <? 0) with false by (symmetry; apply Z.ltb_ge; lia).
  destruct (le_lt_dec (length l) a) as [Ha|Ha].
  - rewrite !drop_ge by lia. rewrite !take_nil. reflexivity.
  - replace (Z.to_nat (Z.max 0 (Z.min (Z.of_nat (length l)) (Z.of_nat a)))) with a by lia.
    destruct (le_lt_dec b (length l)) as [Hb|Hb].
    + f_equal. lia.
    + rewrite !take_ge; [reflexivity|rewrite length_drop; lia|rewrite length_drop; lia].
Qed.

Lemma slice_from {A} (l : list A) (a : nat) : slice l (Some (Z.of_nat a)) None = drop a l.
Proof.
  unfold slice, clamp.
  replace (Z.of_nat a <? 0) with false by (symmetry; apply Z.ltb_ge; lia).
  destruct (le_lt_dec (length l) a) as [Ha|Ha].
  - rewrite !drop_ge by lia. apply take_nil.
  - replace (Z.to_nat (Z.max 0 (Z.min (Z.of_nat (length l)) (Z.of_nat a)))) with a by lia.
    apply take_ge. rewrite length_drop. lia.
Qed.

Lemma slice_upto {A} (l : list A) (b : nat) : slice l None (Some (Z.of_nat b)) = take b l.
Proof.
  unfold slice, clamp.
  replace (Z.of_nat b <? 0) with false by (symmetry; apply Z.ltb_ge; lia).
  change (Z.to_nat 0) with 0%nat. rewrite drop_0.
  destruct (le_lt_dec b (length l)) as [Hb|Hb].
  - f_equal. lia.
  - rewrite !take_ge by lia. reflexivity.
Qed.

Section ArgsForm.
Variables (fuel : nat) (env : addr) (st : state) (argstring : value) (arglist : list value).
Hypothesis Hu : unlimited st env.
Hypothesis Hs : lookup_var env (lit "argstring") st = Ret argstring st.
Hypothesis Hl : lookup_var env (lit "args") st = Ret (VList arglist) st.

Lemma eval_args_unfold (xs : list value) :
  lisp_eval (S fuel) (VList (VStr (lit "args") :: xs)) env st
  = try_except
      (fun st =>
         match VStr (lit "args") :: xs with
         | [_] => ret argstring st
         | [_; x1] =>
           if is_opaque x1 then unsupported st
           else if is_str x1 (lit "*") then ret (VList arglist) st
           else try_except_cls IndexError (py_getitem (VList arglist) x1) (ret VNone) st
         | _ :: x1 :: x2 :: _ =>
           if is_opaque x1 || is_opaque x2 then unsupported st
           else
             try_except_cls IndexError
               (if is_str x1 (lit "*") then py_slice (VList arglist) None (Some x2)
                else if is_str x2 (lit "*") then py_slice (VList arglist) (Some x1) None
                else py_slice (VList arglist) (Some x1) (Some x2))
               (ret (VList [])) st
         | [] => unsupported st
         end)
      (reraise (VList (VStr (lit "args") :: xs))) st.
Proof.
  cbn [lisp_eval]. rewrite eval_step_unlimited by assumption.
  unfold try_except. cbn [eval_form is_opaque].
  change (classify (VStr (lit "args"))) with FArgs. cbv iota. unfold eval_args.
  rewrite (bind_ret _ _ _ _ _ Hs), (bind_ret _ _ _ _ _ Hl).
  destruct xs as [|x1 [|x2 xs']]; [reflexivity|..];
    repeat match goal with
           | |- context [if ?b then _ else _] => destruct b
           end; reflexivity.
Qed.
End ArgsForm.

(** X18.  [args] reads the arguments of the command without evaluating its
    own items.  Alone it returns the argument string, with a star the
    argument list; with an integer the item at that index, and [None] when
    the index is out of range; with two bounds the slice between them, which
    never fails.  A symbol as index is not looked up: it raises the wrapped
    [TypeError] of the indexing. *)
Theorem args_form (fuel : nat) (env : addr) (st : state) (argstring : value)
    (arglist : list value) :
  unlimited st env ->
  lookup_var env (lit "argstring") st = Ret argstring st ->
  lookup_var env (lit "args") st = Ret (VList arglist) st ->
  let args := VStr (lit "args") in
  let star := VStr (lit "*") in
  let eval := fun xs => lisp_eval (S fuel) (VList (args :: xs)) env st in
  eval [] = Ret argstring st /\
  eval [star] = Ret (VList arglist) st /\
  (forall i v, arglist !! i = Some v -> eval [VInt (Z.of_nat i)] = Ret v st) /\
  (forall z, z < - Z.of_nat (length arglist) \/ Z.of_nat (length arglist) <= z ->
             eval [VInt z] = Ret VNone st) /\
  (forall a b, eval [VInt (Z.of_nat a); VInt (Z.of_nat b)]
               = Ret (VList (take (b - a) (drop a arglist))) st) /\
  (forall a, eval [VInt (Z.of_nat a); star] = Ret (VList (drop a arglist)) st) /\
  (forall b, eval [star; VInt (Z.of_nat b)] = Ret (VList (take b arglist)) st) /\
  (forall x, x <> lit "*" ->
             eval [VStr x]
             = Raise (Exn CustomCommandSyntaxError
                        (lit "(args): list indices must be integers or slices, not str")) st).
Proof.
  intros Hu Hs Hl args star eval. unfold eval, args, star.
  repeat split; intros; rewrite (eval_args_unfold fuel env st argstring arglist Hu Hs Hl).
  - reflexivity.
  - reflexivity.
  - cbn. unfold try_except_cls, try_except. cbn [py_getitem as_int].
    rewrite index_in_nat by (eapply lookup_lt_Some; eassumption).
    match goal with H : _ !! _ = Some _ |- _ => rewrite H end. reflexivity.
  - cbn. unfold try_except_cls, try_except. cbn [py_getitem as_int].
    rewrite index_in_out by assumption. reflexivity.
  - cbn. unfold try_except_cls, try_except. cbn [py_slice slice_bound as_int].
    rewrite slice_nat. reflexivity.
  - cbn. unfold try_except_cls, try_except. cbn [py_slice slice_bound as_int].
    rewrite slice_from. reflexivity.
  - cbn. unfold try_except_cls, try_except. cbn [py_slice slice_bound as_int].
    rewrite slice_upto. reflexivity.
  - cbn [is_opaque is_str].
    destruct (str_eqb x (lit "*")) eqn:E; [apply str_eqb_eq in E; congruence|].
    reflexivity.
Qed.

Lemma args_form_witness :
  let st := mkState [mkEnv {[ lit "argstring" := VStr (lit "a b"); 
                              lit "args" := VList [VStr (lit "a"); VStr (lit "b")] ]} None 0 0]
                    (fun _ => 0) 1 [] in
  lisp_eval 1 (VList [VStr (lit "args"); VInt 1]) 0%nat st = Ret (VStr (lit "b")) st /\
  lisp_eval 1 (VList [VStr (lit "args"); VInt 2]) 0%nat st = Ret VNone st /\
  lisp_eval 1 (VList [VStr (lit "args"); VStr (lit "n")]) 0%nat st
  = Raise (Exn CustomCommandSyntaxError
             (lit "(args): list indices must be integers or slices, not str")) st.
Proof.
  intros st.
  assert (Hu : unlimited st 0%nat) by (eexists; split; reflexivity).
  destruct (args_form 0 0%nat st (VStr (lit "a b")) [VStr (lit "a"); VStr (lit "b")] Hu)
    as (_ & _ & H3 & H4 & _ & _ & _ & H8); [vm_compute; reflexivity..|].
  split; [|split].
  - apply (H3 1%nat). reflexivity.
  - apply (H4 2). right. cbn. lia.
  - apply (H8 (lit "n")). discriminate.
Defined.


(* ===================================================================== *)
(** ** Evaluator: what an evaluation leaves in place *)

Lemma env_kept_refl (e : Env) : env_kept e e.
Proof. repeat split; auto. Qed.

Lemma env_kept_trans (e1 e2 e3 : Env) : env_kept e1 e2 -> env_kept e2 e3 -> env_kept e1 e3.
Proof.
  intros (H1 & H2 & H3 & H4) (G1 & G2 & G3 & G4). repeat split; try congruence. auto.
Qed.

Lemma env_kept_insert (k : str) (v : value) (e : Env) : env_kept e (env_insert k v e).
Proof.
  repeat split; try reflexivity. intros k' Hk'. cbn [env_insert vars].
  destruct (decide (k = k')) as [->|Hne].
  - rewrite lookup_insert_eq. eauto.
  - rewrite lookup_insert_ne by assumption. exact Hk'.
Qed.

Lemma continues_refl (st : state) : continues st st.
Proof.
  split; [reflexivity|]. split; [reflexivity|]. split.
  - exists []. rewrite app_nil_r. reflexivity.
  - intros a e He. exists e. split; [exact He|apply env_kept_refl].
Qed.

Lemma continues_trans (st1 st2 st3 : state) :
  continues st1 st2 -> continues st2 st3 -> continues st1 st3.
Proof.
  intros (H1 & H2 & [o1 H3] & H4) (G1 & G2 & [o2 G3] & G4).
  split; [congruence|]. split; [lia|]. split.
  - exists (o1 ++ o2). rewrite G3, H3, app_assoc. reflexivity.
  - intros a e He. destruct (H4 a e He) as (e' & He' & K1).
    destruct (G4 a e' He') as (e'' & He'' & K2). exists e''.
    split; [exact He''|eapply env_kept_trans; eassumption].
Qed.

Lemma continues_set_heap (st : state) (a : addr) (e e' : Env) :
  heap st !! a = Some e -> env_kept e e' -> continues st (set_heap (<[a := e']> (heap st)) st).
Proof.
  intros He Hk. split; [reflexivity|]. split; [reflexivity|]. split.
  - exists []. rewrite app_nil_r. reflexivity.
  - cbn [set_heap heap]. intros b eb Hb. destruct (decide (a = b)) as [->|Hne].
    + exists e'. rewrite list_lookup_insert_eq by (eapply lookup_lt_Some; eauto).
      split; [reflexivity|]. congruence.
    + exists eb. rewrite list_lookup_insert_ne by assumption.
      split; [exact Hb|apply env_kept_refl].
Qed.

Section Keeps.
Context {A B : Type}.

Lemma keeps_ret (a : A) : keeps (ret a).
Proof. intros st. apply continues_refl. Qed.

Lemma keeps_raise (e : exn) : keeps (@raise state A e).
Proof. intros st. apply continues_refl. Qed.

Lemma keeps_unsupported : keeps (@unsupported state A).
Proof. intros st. exact I. Qed.

Lemma keeps_out_of_fuel : keeps (@out_of_fuel state A).
Proof. intros st. exact I. Qed.

Lemma keeps_bind (m : M state A) (k : A -> M state B) :
  keeps m -> (forall a, keeps (k a)) -> keeps (bind m k).
Proof.
  intros Hm Hk st. specialize (Hm st). unfold bind.
  destruct (m st) as [a s|e s| |]; cbn in *; try exact I; [|exact Hm].
  specialize (Hk a s). destruct (k a s); cbn in *; try exact I;
    eapply continues_trans; eassumption.
Qed.

Lemma keeps_try (m : M state A) (h : exn -> M state A) :
  keeps m -> (forall e, keeps (h e)) -> keeps (try_except m h).
Proof.
  intros Hm Hh st. specialize (Hm st). unfold try_except.
  destruct (m st) as [a s|e s| |]; cbn in *; try exact I; [exact Hm|].
  specialize (Hh e s). destruct (h e s); cbn in *; try exact I;
    eapply continues_trans; eassumption.
Qed.

Lemma keeps_try_cls (cls : exn_class) (m h : M state A) :
  keeps m -> keeps h -> keeps (try_except_cls cls m h).
Proof.
  intros Hm Hh. apply keeps_try; [exact Hm|]. intros e.
  destruct (exn_class_eqb (exn_cls e) cls); [exact Hh|apply keeps_raise].
Qed.

Lemma keeps_lift_opt (o : option A) : keeps (lift_opt o).
Proof. destruct o; [apply keeps_ret|apply keeps_unsupported]. Qed.
End Keeps.

Ltac keeps_step :=
  first
    [ apply keeps_ret | apply keeps_raise | apply keeps_unsupported | apply keeps_out_of_fuel
    | apply keeps_lift_opt
    | apply keeps_bind; [|intros ?]
    | apply keeps_try; [|intros ?]
    | apply keeps_try_cls
    | assumption
    | match goal with
      | |- keeps (match ?x with _ => _ end) => destruct x
      | |- keeps (if ?b then _ else _) => destruct b
      | |- keeps (let '(_, _) := ?x in _) => destruct x
      end ].

Ltac keeps_tac := repeat keeps_step.

Lemma continues_same_heap (st st' : state) (out : list str) :
  clock st' = clock st -> (ticks st <= ticks st')%nat -> stdout st' = stdout st ++ out ->
  (forall a e, heap st !! a = Some e -> heap st' !! a = Some e) -> continues st st'.
Proof.
  intros H1 H2 H3 H4. split; [exact H1|]. split; [exact H2|]. split; [exists out; exact H3|].
  intros a e He. exists e. split; [apply H4, He|apply env_kept_refl].
Qed.

Lemma keeps_time : keeps time.
Proof.
  intros st. cbn. apply (continues_same_heap _ _ []); cbn; auto. rewrite app_nil_r. reflexivity.
Qed.

Lemma keeps_py_print (line : str) : keeps (py_print line).
Proof. intros st. cbn. apply (continues_same_heap _ _ [line]); cbn; auto. Qed.

Lemma keeps_get_env (a : addr) : keeps (get_env a).
Proof. intros st. unfold get_env. destruct (heap st !! a); [apply continues_refl|exact I]. Qed.

Lemma keeps_env_set (a : addr) (k : str) (v : value) : keeps (env_set a k v).
Proof.
  intros st. unfold env_set. destruct (heap st !! a) as [e|] eqn:E; [|exact I].
  cbn. eapply continues_set_heap; [exact E|apply env_kept_insert].
Qed.

Lemma keeps_set_item (a : addr) (key v : value) : keeps (set_item a key v).
Proof. unfold set_item. destruct key; keeps_tac. apply keeps_env_set. Qed.

Lemma update_kept (pairs : list (str * value)) (m : gmap str value) (k : str) :
  is_Some (m !! k) -> is_Some (update m pairs !! k).
Proof.
  revert m. induction pairs as [|[k' v'] pairs IH]; intros m Hk; [exact Hk|].
  cbn [update fold_left]. apply IH. destruct (decide (k' = k)) as [->|Hne].
  - rewrite lookup_insert_eq. eauto.
  - rewrite lookup_insert_ne by assumption. exact Hk.
Qed.

Lemma keeps_env_update (a : addr) (pairs : list (str * value)) : keeps (env_update a pairs).
Proof.
  intros st. unfold env_update. destruct (heap st !! a) as [e|] eqn:E; [|exact I].
  cbn. eapply continues_set_heap; [exact E|].
  repeat split; try reflexivity. intros k Hk. cbn [vars]. apply update_kept, Hk.
Qed.

Lemma keeps_find (self : addr) (var : str) : keeps (find self var).
Proof.
  intros st. unfold find.
  destruct (find_in _ _ _ _); cbn; try exact I; apply continues_refl.
Qed.

Lemma keeps_lookup_var (env : addr) (var : str) : keeps (lookup_var env var).
Proof. unfold lookup_var. keeps_tac; [apply keeps_find|apply keeps_get_env]. Qed.

Lemma keeps_new_env (pairs : list (str * value)) (o : addr) : keeps (new_env pairs o).
Proof.
  unfold new_env. apply keeps_bind; [apply keeps_time|]. intros t st. cbn.
  apply (continues_same_heap _ _ []); cbn; auto.
  - rewrite app_nil_r. reflexivity.
  - intros a e He. rewrite lookup_app_l by (eapply lookup_lt_Some; eauto). exact He.
Qed.

Lemma keeps_check_runtime (env : addr) : keeps (check_runtime env).
Proof.
  unfold check_runtime, ccse. keeps_tac; [apply keeps_get_env|apply keeps_time].
Qed.

Lemma keeps_type_error {A} (msg : str) : keeps (@type_error state A msg).
Proof. apply keeps_raise. Qed.

Lemma keeps_value_error {A} (msg : str) : keeps (@value_error state A msg).
Proof. apply keeps_raise. Qed.

Lemma keeps_index_error {A} : keeps (@index_error state A).
Proof. apply keeps_raise. Qed.

Lemma keeps_ccse {A} (msg : str) : keeps (@ccse state A msg).
Proof. apply keeps_raise. Qed.

Ltac keeps_more :=
  repeat first
    [ keeps_step
    | apply keeps_type_error | apply keeps_value_error | apply keeps_index_error
    | apply keeps_ccse ].

Lemma keeps_py_getitem (v i : value) : keeps (py_getitem v i).
Proof. unfold py_getitem. keeps_more. Qed.

Lemma keeps_py_slice (v : value) (lo hi : option value) : keeps (py_slice v lo hi).
Proof. unfold py_slice. keeps_more. Qed.

Lemma keeps_py_len (v : value) : keeps (py_len v).
Proof. unfold py_len. keeps_more. Qed.

Lemma keeps_compare f (a b : value) : keeps (compare f a b).
Proof. unfold compare. keeps_more. Qed.

Lemma keeps_arith f (a b : value) : keeps (arith f a b).
Proof. unfold arith. keeps_more. Qed.

Lemma keeps_transcode (string : value) (args : list value) : keeps (transcode string args).
Proof. unfold transcode, transcode_with. keeps_more. Qed.

Lemma keeps_call_builtin (f : builtin) (args : list value) : keeps (call_builtin f args).
Proof.
  unfold call_builtin.
  destruct f; destruct args as [|a [|b [|c args]]];
    try apply keeps_unsupported; try apply keeps_ret; try apply keeps_arith;
    try apply keeps_compare; try apply keeps_py_getitem; try apply keeps_py_slice;
    try apply keeps_transcode; try apply keeps_lift_opt;
    keeps_more;
    try apply keeps_arith; try apply keeps_py_len; try apply keeps_transcode.
Qed.

Lemma keeps_lget (lst : value) (indexes : list value) : keeps (_lget lst indexes).
Proof.
  revert lst. induction indexes as [|i rest IH]; intros lst; cbn [_lget].
  - apply keeps_ret.
  - apply keeps_bind; [apply keeps_py_getitem|]. intros v. apply IH.
Qed.

Lemma keeps_zip_keys (ps args : list value) : keeps (zip_keys ps args).
Proof.
  revert args. induction ps as [|p ps IH]; intros args; cbn [zip_keys]; [apply keeps_ret|].
  destruct args as [|a args]; [apply keeps_ret|].
  destruct p; keeps_more. apply IH.
Qed.

Lemma keeps_not_iterable {A} (v : value) : keeps (@not_iterable A v).
Proof. unfold not_iterable. keeps_more. Qed.

Lemma keeps_zip_parms (parms : value) (args : list value) : keeps (zip_parms parms args).
Proof.
  unfold zip_parms. destruct parms; try apply keeps_not_iterable;
    [apply keeps_ret|apply keeps_zip_keys].
Qed.

Lemma keeps_cannot_concatenate {A} (v : value) : keeps (@cannot_concatenate A v).
Proof. unfold cannot_concatenate. keeps_more. Qed.

Lemma keeps_key_array (name : str) (pars : list value) : keeps (key_array name pars).
Proof.
  induction pars as [|p pars IH]; cbn [key_array]; [apply keeps_ret|].
  destruct p; try apply keeps_cannot_concatenate. keeps_more.
Qed.

Lemma keeps_make_functions (name param : value) (env : addr) :
  keeps (make_functions name param env).
Proof.
  unfold make_functions. destruct name; try apply keeps_cannot_concatenate.
  apply keeps_bind.
  { destruct param; try apply keeps_not_iterable; apply keeps_ret. }
  intros pars. apply keeps_bind; [apply keeps_key_array|]. intros keys.
  repeat (apply keeps_bind; [first [apply keeps_env_update|apply keeps_env_set]|intros _]).
  apply keeps_env_set.
Qed.

Lemma keeps_reraise (x : value) (e : exn) : keeps (reraise x e).
Proof. unfold reraise. keeps_more. Qed.

Lemma keeps_unpack_error {A} (expected got : nat) : keeps (@unpack_error A expected got).
Proof. unfold unpack_error. keeps_more. Qed.

Lemma keeps_nth_item (xs : list value) (i : nat) : keeps (nth_item xs i).
Proof. unfold nth_item. keeps_more. Qed.

Section KeepsEval.
Variable rec : value -> addr -> M state value.
Variable loops : nat.
Hypothesis Hrec : forall x env, keeps (rec x env).

Lemma keeps_eval_list (l : list value) (env : addr) : keeps (eval_list rec l env).
Proof.
  induction l as [|a l IH]; cbn [eval_list]; [apply keeps_ret|].
  apply keeps_bind; [apply Hrec|]. intros v.
  apply keeps_bind; [exact IH|]. intros vs. apply keeps_ret.
Qed.

Lemma keeps_apply_value (proc : value) (args : list value) : keeps (apply_value rec proc args).
Proof.
  unfold apply_value. destruct proc; try apply keeps_type_error.
  - apply keeps_bind; [apply keeps_zip_parms|]. intros pairs.
    apply keeps_bind; [apply keeps_new_env|]. intros frame. apply Hrec.
  - apply keeps_call_builtin.
  - apply keeps_unsupported.
  - destruct args as [|arr [|index [|? ?]]]; try apply keeps_unsupported.
    apply keeps_py_getitem.
  - destruct args as [|arr [|? ?]]; try apply keeps_unsupported.
    apply keeps_bind; [apply keeps_py_len|]. intros n.
    apply keeps_bind; [apply Hrec|]. intros v. apply keeps_compare.
Qed.

Lemma keeps_eval_indexes (ind : list str) (env : addr) : keeps (eval_indexes rec ind env).
Proof.
  induction ind as [|x ind IH]; cbn [eval_indexes]; [apply keeps_ret|].
  apply keeps_bind; [keeps_more; apply Hrec|]. intros v.
  apply keeps_bind; [exact IH|]. intros vs. apply keeps_ret.
Qed.

Lemma keeps_eval_symbol (x : str) (env : addr) : keeps (eval_symbol rec x env).
Proof.
  unfold eval_symbol. destruct (split_char 58%N x); [apply keeps_unsupported|].
  apply keeps_bind; [apply keeps_eval_indexes|]. intros ind.
  apply keeps_bind; [apply keeps_lookup_var|]. intros v. apply keeps_lget.
Qed.

Lemma keeps_eval_args (xs : list value) (env : addr) : keeps (eval_args xs env).
Proof.
  unfold eval_args.
  apply keeps_bind; [apply keeps_lookup_var|]. intros argstring.
  apply keeps_bind; [apply keeps_lookup_var|]. intros arglist.
  destruct xs as [|x0 [|x1 [|x2 xs]]]; keeps_more;
    first [apply keeps_py_getitem|apply keeps_py_slice].
Qed.

Lemma keeps_while_loop (n : nat) (xs : list value) (env : addr) :
  keeps (while_loop rec n xs env).
Proof.
  induction n as [|n IH]; cbn [while_loop]; [apply keeps_out_of_fuel|].
  apply keeps_bind; [apply keeps_nth_item|]. intros test.
  apply keeps_bind; [apply Hrec|]. intros t.
  apply keeps_bind; [apply keeps_lift_opt|]. intros [|]; [|apply keeps_ret].
  apply keeps_bind; [apply keeps_nth_item|]. intros body.
  apply keeps_bind; [apply Hrec|]. intros _. exact IH.
Qed.

Lemma keeps_eval_strs (l : list value) (env : addr) : keeps (eval_strs rec l env).
Proof.
  induction l as [|y l IH]; cbn [eval_strs]; [apply keeps_ret|].
  apply keeps_bind; [apply Hrec|]. intros v.
  apply keeps_bind; [apply keeps_lift_opt|]. intros s.
  apply keeps_bind; [exact IH|]. intros ss. apply keeps_ret.
Qed.

Lemma keeps_append_output (env : addr) (rhs : M state str) :
  keeps rhs -> keeps (append_output env rhs).
Proof.
  intros Hr. unfold append_output.
  apply keeps_bind; [apply keeps_find|]. intros a.
  apply keeps_bind; [apply keeps_get_env|]. intros e.
  apply keeps_bind; [apply keeps_lift_opt|]. intros old.
  apply keeps_bind; [exact Hr|]. intros line.
  destruct old; try apply keeps_unsupported.
  apply keeps_bind; [apply keeps_env_set|]. intros _. apply keeps_ret.
Qed.

Lemma keeps_eval_call (h : value) (xs : list value) (env : addr) :
  keeps (eval_call rec h xs env).
Proof.
  unfold eval_call. apply keeps_bind; [apply Hrec|]. intros proc.
  assert (Hcall : keeps (args <- eval_list rec (tail xs) env ;; apply_value rec proc args)).
  { apply keeps_bind; [apply keeps_eval_list|]. intros args. apply keeps_apply_value. }
  destruct h; try exact Hcall.
  destruct (starts_with (lit "make-") s); [|exact Hcall].
  apply keeps_bind; [apply keeps_eval_list|]. intros args.
  apply keeps_bind; [apply keeps_lift_opt|]. intros same.
  destruct (negb same).
  - apply keeps_bind; [apply keeps_lift_opt|]. intros ps.
    apply keeps_bind; [apply keeps_py_print|]. intros _. apply keeps_ret.
  - apply keeps_bind; [apply keeps_nth_item|]. intros x1.
    apply keeps_bind; [apply keeps_set_item|]. intros _. apply keeps_ret.
Qed.

Lemma keeps_eval_form (x : value) (env : addr) : keeps (eval_form rec loops x env).
Proof.
  unfold eval_form. destruct x as [| | | |s|[|h xs]| | | | | |]; try apply keeps_ret;
    try apply keeps_unsupported.
  - apply keeps_eval_symbol.
  - apply keeps_index_error.
  - destruct (is_opaque h); [apply keeps_unsupported|].
    destruct (classify h).
    + apply keeps_eval_args.
    + destruct xs as [|a [|b xs]]; first [apply keeps_ret|apply keeps_unpack_error].
    + apply keeps_bind; [apply keeps_eval_list|]. intros a. keeps_more.
    + destruct xs as [|a [|b [|c [|d xs]]]]; try apply keeps_unpack_error.
      apply keeps_bind; [apply Hrec|]. intros t.
      apply keeps_bind; [apply keeps_lift_opt|]. intros b0. apply Hrec.
    + destruct xs as [|a [|b [|c xs]]]; try apply keeps_unpack_error.
      apply keeps_bind; [apply Hrec|]. intros v.
      apply keeps_bind; [apply keeps_set_item|]. intros _. apply keeps_ret.
    + destruct xs as [|a [|b [|c xs]]]; try apply keeps_unpack_error;
        try (destruct a; apply keeps_unpack_error).
      destruct a; try apply keeps_unsupported.
      destruct (has_char 58%N s); [apply keeps_unsupported|].
      apply keeps_bind; [apply Hrec|]. intros v.
      apply keeps_bind; [apply keeps_find|]. intros a.
      apply keeps_bind; [apply keeps_env_set|]. intros _. apply keeps_ret.
    + destruct xs as [|a [|b [|c xs]]]; first [apply keeps_ret|apply keeps_unpack_error].
    + destruct xs as [|a [|b [|c xs]]]; try apply keeps_unpack_error.
      apply keeps_bind; [apply Hrec|]. intros va.
      apply keeps_bind; [apply Hrec|]. intros vb. apply keeps_compare.
    + destruct xs as [|a [|b [|c [|d xs]]]]; try apply keeps_unpack_error.
      apply keeps_bind; [apply Hrec|]. intros va.
      apply keeps_bind; [apply Hrec|]. intros vu.
      apply keeps_bind; [apply keeps_lift_opt|]. intros [|]; [|apply keeps_ret].
      apply keeps_bind; [apply Hrec|]. intros va'.
      apply keeps_bind; [apply Hrec|]. intros vl. apply keeps_compare.
    + destruct xs as [|a [|b [|c xs]]]; try apply keeps_unpack_error.
      apply keeps_bind; [apply Hrec|]. intros va.
      apply keeps_bind; [apply Hrec|]. intros vc. keeps_more.
    + destruct xs as [|a [|b [|c xs]]]; try apply keeps_unpack_error.
      apply keeps_bind; [apply keeps_make_functions|]. intros _. apply keeps_ret.
    + apply keeps_while_loop.
    + apply keeps_try_cls; apply keeps_append_output; [|apply keeps_ret].
      apply keeps_bind; [apply keeps_eval_strs|]. intros ss. apply keeps_ret.
    + cbn [tail]. destruct xs as [|expr args]; [apply keeps_value_error|].
      apply keeps_try; [apply Hrec|]. intros e.
      destruct args; [apply keeps_ret|apply Hrec].
    + apply keeps_bind; [apply keeps_nth_item|]. intros x1.
      apply keeps_bind; [apply Hrec|]. intros v. apply Hrec.
    + apply keeps_eval_call.
Qed.

Lemma keeps_eval_step (x : value) (env : addr) : keeps (eval_step rec loops x env).
Proof.
  unfold eval_step. apply keeps_bind; [apply keeps_check_runtime|]. intros _.
  apply keeps_try; [apply keeps_eval_form|]. intros e. apply keeps_reraise.
Qed.
End KeepsEval.

Lemma keeps_lisp_eval (fuel : nat) (x : value) (env : addr) : keeps (lisp_eval fuel x env).
Proof.
  revert x env. induction fuel as [|fuel IH]; intros x env; cbn [lisp_eval].
  - apply keeps_out_of_fuel.
  - apply keeps_eval_step, IH.
Qed.



Lemma unlimited_continues (st st' : state) (env : addr) :
  unlimited st env -> continues st st' -> unlimited st' env.
Proof.
  intros (e & He & Hr) (_ & _ & _ & H). destruct (H env e He) as (e' & He' & _ & _ & Hm & _).
  exists e'. split; [exact He'|congruence].
Qed.

Lemma lisp_eval_unlimited fuel x env st v st1 env' :
  lisp_eval fuel x env st = Ret v st1 -> unlimited st env' -> unlimited st1 env'.
Proof.
  intros H Hu. eapply unlimited_continues; [exact Hu|].
  pose proof (keeps_lisp_eval fuel x env st) as K. rewrite H in K. exact K.
Qed.


(* ===================================================================== *)
(** ** Evaluator: bindings that are written are read back *)

Lemma unlimited_env (st : state) (env : addr) :
  unlimited st env -> exists e, heap st !! env = Some e /\ max_runtime e = 0.
Proof. intros H. exact H. Qed.

(** X20.  A definition is read back: after [define] or [def] of a name
    without colon, the name evaluates, in the same environment, to the value
    of the expression, whatever the outer environments bind; and no other
    environment has changed since the expression was evaluated. *)
Theorem define_lookup (fuel : nat) (s var : str) (exp : value) (env : addr) (st st1 : state)
    (v : value) :
  unlimited st env -> classify (VStr s) = FDefine -> has_char 58%N var = false ->
  lisp_eval fuel exp env st = Ret v st1 ->
  exists st2,
    lisp_eval (S fuel) (VList [VStr s; VStr var; exp]) env st = Ret VNone st2 /\
    (forall fuel', lisp_eval (S fuel') (VStr var) env st2 = Ret v st2) /\
    (forall a, a <> env -> heap st2 !! a = heap st1 !! a).
Proof.
  intros Hu Hc Hvar Hv.
  pose proof (lisp_eval_unlimited _ _ _ _ _ _ env Hv Hu) as Hu1.
  destruct (unlimited_env _ _ Hu1) as (e1 & He1 & Hr1).
  exists (set_heap (<[env := env_insert var v e1]> (heap st1)) st1). split; [|split].
  - apply lisp_eval_define; assumption.
  - intros fuel'.
    assert (Hl : (<[env := env_insert var v e1]> (heap st1)) !! env
                 = Some (env_insert var v e1)).
    { apply list_lookup_insert_eq. eapply lookup_lt_Some, He1. }
    apply lisp_eval_symbol; [|assumption|].
    + apply unlimited_set_heap_insert; assumption.
    + eapply lookup_var_found.
      * eapply find_here; [exact Hl|]. cbn [env_insert vars]. apply lookup_insert_eq.
      * exact Hl.
      * cbn [env_insert vars]. apply lookup_insert_eq.
  - intros a Ha. cbn [set_heap heap]. apply list_lookup_insert_ne. congruence.
Qed.

Lemma define_lookup_witness :
  let st := mkState [mkEnv {[ lit "x" := VInt 1 ]} None 0 0;
                     mkEnv {[ lit "y" := VInt 0 ]} (Some 0%nat) 0 0] (fun _ => 0) 1 [] in
  exists st2,
    lisp_eval 2 (VList [VStr (lit "def"); VStr (lit "x"); VInt 5]) 1%nat st = Ret VNone st2 /\
    (forall fuel', lisp_eval (S fuel') (VStr (lit "x")) 1%nat st2 = Ret (VInt 5) st2) /\
    (forall a, a <> 1%nat -> heap st2 !! a = heap st !! a).
Proof.
  intros st.
  apply (define_lookup 1 (lit "def") (lit "x") (VInt 5) 1%nat st st (VInt 5)).
  - eexists. split; reflexivity.
  - reflexivity.
  - reflexivity.
  - reflexivity.
Defined.

(** Where a name is found does not change when the environment in which it
    is found gets a new value for it. *)
Lemma find_in_insert_found n h self var a ea v :
  find_in n h self var = Found a -> h !! a = Some ea ->
  find_in n (<[a := env_insert var v ea]> h) self var = Found a.
Proof.
  intros Hf Ha. revert self Hf. induction n as [|n IH]; intros self; [discriminate|].
  cbn [find_in].
  assert (Hla : (<[a := env_insert var v ea]> h) !! a = Some (env_insert var v ea)).
  { apply list_lookup_insert_eq. eapply lookup_lt_Some, Ha. }
  destruct (decide (self = a)) as [->|Hne].
  - rewrite Ha, Hla. cbn [env_insert vars]. rewrite lookup_insert_eq. intros _. reflexivity.
  - rewrite list_lookup_insert_ne by congruence.
    destruct (h !! self) as [es|] eqn:Es; [|discriminate].
    destruct (vars es !! var); [auto|].
    destruct (outer es) as [o|]; [|discriminate].
    destruct (decide (o = a)) as [->|Hoa].
    + rewrite Ha, Hla, env_truthy_insert.
      destruct (env_truthy ea); [|discriminate]. apply IH.
    + rewrite list_lookup_insert_ne by congruence.
      destruct (h !! o) as [eo|]; [|discriminate].
      destruct (env_truthy eo); [|discriminate]. apply IH.
Qed.

Lemma find_inv (self : addr) (var : str) (st : state) :
  match find_in (S (length (heap st))) (heap st) self var with
  | Found a => find self var st = Ret a st
  | Undefined =>
    find self var st = Raise (Exn CustomCommandSyntaxError (lit "undefined var " ++ var)) st
  | Broken => find self var st = Unsupported
  end.
Proof. unfold find. destruct (find_in _ _ _ _); reflexivity. Qed.

(** X21.  An assignment changes the binding where the name is found and
    nowhere else: after [:=] the name evaluates to the new value, and no
    other environment has changed, so an assignment from a procedure leaves
    no binding in the frame of the call when the name is found further out.
    When the name is bound nowhere on the chain, the assignment fails with
    the undefined-variable error, after the evaluation of the expression,
    and binds nothing. *)
Theorem set_lookup (fuel : nat) (var : str) (exp : value) (env : addr) (st st1 : state)
    (v : value) :
  unlimited st env -> has_char 58%N var = false ->
  lisp_eval fuel exp env st = Ret v st1 ->
  let form := VList [VStr (lit ":="); VStr var; exp] in
  (forall a, find env var st1 = Ret a st1 ->
     exists st2,
       lisp_eval (S fuel) form env st = Ret VNone st2 /\
       (forall fuel', lisp_eval (S fuel') (VStr var) env st2 = Ret v st2) /\
       (forall b, b <> a -> heap st2 !! b = heap st1 !! b)) /\
  (find_in (S (length (heap st1))) (heap st1) env var = Undefined ->
   (length var <= 1400)%nat ->
   lisp_eval (S fuel) form env st
   = Raise (Exn CustomCommandSyntaxError (lit "(:=): undefined var " ++ var)) st1).
Proof.
  intros Hu Hvar Hv form.
  pose proof (lisp_eval_unlimited _ _ _ _ _ _ env Hv Hu) as Hu1. split.
  - intros a Hf.
    pose proof (find_inv env var st1) as Hi.
    destruct (find_in (S (length (heap st1))) (heap st1) env var) as [a'| |] eqn:Ef;
      rewrite Hf in Hi; try discriminate. injection Hi as ->.
    assert (exists ea, heap st1 !! a' = Some ea) as [ea Hea].
    { clear -Ef. revert Ef. generalize (S (length (heap st1))). intros n. revert env.
      induction n as [|n IH]; intros env; [discriminate|]. cbn [find_in].
      destruct (heap st1 !! env) as [e|] eqn:E; [|discriminate].
      destruct (vars e !! var); [intros [= <-]; eauto|].
      destruct (outer e) as [o|]; [|discriminate].
      destruct (heap st1 !! o); [|discriminate].
      destruct (env_truthy _); [apply IH|discriminate]. }
    exists (set_heap (<[a' := env_insert var v ea]> (heap st1)) st1). split; [|split].
    + apply lisp_eval_set; assumption.
    + intros fuel'.
      assert (Hl : (<[a' := env_insert var v ea]> (heap st1)) !! a'
                   = Some (env_insert var v ea)).
      { apply list_lookup_insert_eq. eapply lookup_lt_Some, Hea. }
      apply lisp_eval_symbol; [|assumption|].
      * apply unlimited_set_heap_insert; assumption.
      * eapply lookup_var_found; [|exact Hl|cbn [env_insert vars]; apply lookup_insert_eq].
        apply find_found. cbn [set_heap heap]. rewrite length_insert.
        apply find_in_insert_found; assumption.
    + intros b Hb. cbn [set_heap heap]. apply list_lookup_insert_ne. congruence.
  - intros Hundef Hlen. unfold form. cbn [lisp_eval].
    rewrite eval_step_unlimited by assumption.
    erewrite try_raise.
    2:{ cbn [eval_form is_opaque]. change (classify (VStr (lit ":="))) with FSet. cbv iota.
        rewrite Hvar. rewrite (bind_ret _ _ _ _ _ Hv).
        apply bind_raise. pose proof (find_inv env var st1) as Hi. rewrite Hundef in Hi.
        exact Hi. }
    rewrite (reraise_short _ _ _ _ (lit ":=")); [reflexivity|reflexivity|].
    cbn [exn_msg]. rewrite length_app. change (length (lit "undefined var ")) with 14%nat. lia.
Qed.

Lemma set_lookup_witness :
  let st := mkState [mkEnv {[ lit "count" := VInt 0 ]} None 0 0;
                     mkEnv {[ lit "a" := VInt 1 ]} (Some 0%nat) 0 0] (fun _ => 0) 1 [] in
  (exists st2,
     lisp_eval 2 (VList [VStr (lit ":="); VStr (lit "count"); VInt 5]) 1%nat st = Ret VNone st2 /\
     (forall fuel', lisp_eval (S fuel') (VStr (lit "count")) 1%nat st2 = Ret (VInt 5) st2) /\
     (forall b, b <> 0%nat -> heap st2 !! b = heap st !! b)) /\
  lisp_eval 2 (VList [VStr (lit ":="); VStr (lit "total"); VInt 5]) 1%nat st
  = Raise (Exn CustomCommandSyntaxError (lit "(:=): undefined var total")) st.
Proof.
  intros st.
  assert (Hu : unlimited st 1%nat) by (eexists; split; reflexivity).
  split.
  - apply (proj1 (set_lookup 1 (lit "count") (VInt 5) 1%nat st st (VInt 5) Hu eq_refl eq_refl)).
    reflexivity.
  - apply (proj2 (set_lookup 1 (lit "total") (VInt 5) 1%nat st st (VInt 5) Hu eq_refl eq_refl)).
    + reflexivity.
    + apply Nat.leb_le. reflexivity.
Defined.

(* ===================================================================== *)
(** ** Evaluator: [print] *)




(* ===================================================================== *)
(** ** Evaluator: the fields of a struct *)

Lemma classify_keyword (s : str) : classify (VStr s) = FCall \/ In s keywords.
Proof.
  unfold classify, is_str, keywords. cbn [map In].
  repeat match goal with
         | |- context [str_eqb s ?k] =>
           let E := fresh "E" in
           destruct (str_eqb s k) eqn:E;
           [apply str_eqb_eq in E; right; rewrite E; tauto|]
         end.
  cbn [orb]. left. reflexivity.
Qed.

Lemma classify_pos (nm : str) : classify (VStr (nm ++ lit "-pos")) = FCall.
Proof.
  destruct (classify_keyword (nm ++ lit "-pos")) as [H|H]; [exact H|].
  exfalso. unfold keywords in H. cbn [map In] in H.
  repeat (destruct H as [H|H];
          [apply (f_equal (@rev _)) in H; rewrite rev_app_distr in H; cbn in H; discriminate H|]).
  exact H.
Qed.

Lemma eval_list_literal (fuel : nat) (vs : list value) (env : addr) (st : state) :
  unlimited st env -> Forall (fun x => literal x = true) vs ->
  eval_list (lisp_eval (S fuel)) vs env st = Ret vs st.
Proof.
  intros Hu. induction 1 as [|x vs Hx _ IH]; [reflexivity|].
  cbn [eval_list]. rewrite (bind_ret _ _ _ _ _ (lisp_eval_literal_unlimited fuel x env st Hu Hx)).
  rewrite (bind_ret _ _ _ _ _ IH). reflexivity.
Qed.

Lemma update_lookup_notin (pairs : list (str * value)) (m : gmap str value) (k : str) :
  k ∉ pairs.*1 -> update m pairs !! k = m !! k.
Proof.
  revert m. induction pairs as [|[k' v'] pairs IH]; intros m Hk; [reflexivity|].
  cbn [fmap list_fmap fst] in Hk. apply not_elem_of_cons in Hk as [Hne Hk].
  cbn [update fold_left]. fold (update (<[k' := v']> m) pairs).
  rewrite IH by assumption. apply lookup_insert_ne. congruence.
Qed.

Lemma update_lookup_zip (ks : list str) (xs : list value) (m : gmap str value)
    (i : nat) (k : str) (x : value) :
  NoDup ks -> ks !! i = Some k -> xs !! i = Some x -> update m (zip ks xs) !! k = Some x.
Proof.
  intros Hnd. revert xs m i. induction Hnd as [|k0 ks Hk0 _ IH]; intros xs m i Hk Hx.
  - discriminate.
  - destruct xs as [|x0 xs]; [discriminate|]. cbn [zip zip_with update fold_left].
    fold (update (<[k0 := x0]> m) (zip ks xs)). destruct i as [|i].
    + cbn in Hk, Hx. injection Hk as ->. injection Hx as ->.
      rewrite update_lookup_notin; [apply lookup_insert_eq|].
      intros Hin. apply Hk0. apply list_elem_of_fmap in Hin as ([k' v'] & -> & Hin).
      cbn. apply elem_of_zip_l in Hin. exact Hin.
    + cbn in Hk, Hx. eapply IH; eassumption.
Qed.

Lemma field_key_inj (nm : str) : Inj eq eq (field_key nm).
Proof.
  intros f g E. unfold field_key in E.
  apply app_inv_head in E. apply app_inv_head in E. apply app_inv_tail in E. exact E.
Qed.

Lemma field_key_other (nm f : str) :
  f <> [] ->
  field_key nm f <> lit "make-" ++ nm /\ field_key nm f <> nm ++ lit "?" /\
  field_key nm f <> nm ++ lit "-pos".
Proof.
  intros Hf. unfold field_key. split; [|split].
  - intros E. apply (f_equal length) in E. rewrite !length_app in E. cbn in E.
    destruct f; [congruence|]. cbn in E. lia.
  - intros E. apply app_inv_head in E. discriminate.
  - intros E. apply app_inv_head in E. cbn in E. injection E as E.
    apply (f_equal length) in E. rewrite length_app in E. cbn in E. lia.
Qed.

(** The bindings of [struct_env] *)
Lemma struct_env_fields (nm : str) (ps : list str) (e : Env) (i : nat) (f : str) :
  NoDup ps -> ps !! i = Some f -> f <> [] ->
  vars (struct_env nm ps e) !! field_key nm f = Some (VInt (Z.of_nat i)) /\
  vars (struct_env nm ps e) !! (nm ++ lit "-pos") = Some VStructPos.
Proof.
  intros Hnd Hi Hf. destruct (field_key_other nm f Hf) as (H1 & H2 & H3).
  unfold struct_env, env_insert. cbn [vars]. split.
  - rewrite !lookup_insert_ne by congruence.
    apply (update_lookup_zip _ _ _ i).
    + change (map (fun p => nm ++ lit "-" ++ p ++ lit "-pos") ps) with (field_key nm <$> ps).
      apply NoDup_fmap_2; [apply field_key_inj|exact Hnd].
    + change (map (fun p => nm ++ lit "-" ++ p ++ lit "-pos") ps) with (field_key nm <$> ps).
      rewrite list_lookup_fmap, Hi. reflexivity.
    + rewrite lookup_map, lookup_seq_lt by (eapply lookup_lt_Some, Hi). reflexivity.
  - rewrite lookup_insert_ne.
    2:{ intros E. apply (f_equal length) in E. rewrite !length_app in E. cbn in E. lia. }
    rewrite lookup_insert_ne.
    2:{ intros E. apply app_inv_head in E. discriminate. }
    apply lookup_insert_eq.
Qed.

Section StructFields.
Variables (fuel : nat) (env : addr) (st : state) (e : Env) (nm inst : str) (ps : list str).
Variable vs : list value.
Hypothesis He : heap st !! env = Some e.
Hypothesis Hr : max_runtime e = 0.
Hypothesis Hcolon : has_char 58%N nm = false.
Hypothesis Hvs : Forall (fun x => literal x = true) vs.

Let create := lit "make-" ++ nm.
Let st1 := set_heap (<[env := struct_env nm ps e]> (heap st)) st.

Lemma struct_fields_st1 :
  heap st1 !! env = Some (struct_env nm ps e) /\ unlimited st1 env.
Proof.
  assert (heap st1 !! env = Some (struct_env nm ps e)) as H1.
  { apply list_lookup_insert_eq. eapply lookup_lt_Some, He. }
  split; [exact H1|]. exists (struct_env nm ps e). split; [exact H1|].
  rewrite (proj2 (proj2 (struct_env_lookup nm ps e))). exact Hr.
Qed.

Lemma constructor_head :
  lisp_eval (S fuel) (VStr create) env st1 = Ret (VInt (Z.of_nat (length ps))) st1.
Proof.
  destruct struct_fields_st1 as [H1 Hu].
  destruct (struct_env_lookup nm ps e) as (Hmk & _ & _).
  apply lisp_eval_symbol; [exact Hu| |].
  - unfold create. rewrite has_char_app, Hcolon. reflexivity.
  - eapply lookup_var_found; [eapply find_here; [exact H1|exact Hmk]|exact H1|exact Hmk].
Qed.

Lemma constructor_call (xs : list value) :
  lisp_eval (S (S fuel)) (VList (VStr create :: xs)) env st1
  = try_except
      (args <- eval_list (lisp_eval (S fuel)) (drop 1 xs) env ;;
       same <- lift_opt (py_eq (VInt (Z.of_nat (length args))) (VInt (Z.of_nat (length ps)))) ;;
       if negb same then
         py_print (constructor_msg create (length ps) (length args)) ;;; ret VNone
       else
         x1 <- nth_item (VStr create :: xs) 1 ;; set_item env x1 (VList args) ;;; ret VNone)
      (reraise (VList (VStr create :: xs))) st1.
Proof.
  destruct struct_fields_st1 as [H1 Hu].
  cbn [lisp_eval]. rewrite eval_step_unlimited by assumption.
  unfold try_except at 1 2. cbn [eval_form is_opaque].
  assert (classify (VStr create) = FCall) as -> by reflexivity.
  unfold eval_call. rewrite (bind_ret _ _ _ _ _ constructor_head).
  assert (starts_with (lit "make-") create = true) as -> by reflexivity.
  cbn [drop]. reflexivity.
Qed.

Lemma constructor_binds :
  length vs = length ps ->
  lisp_eval (S (S fuel)) (VList (VStr create :: VStr inst :: vs)) env st1
  = Ret VNone
        (set_heap (<[env := env_insert inst (VList vs) (struct_env nm ps e)]> (heap st1)) st1).
Proof.
  intros Hlen. destruct struct_fields_st1 as [H1 Hu].
  rewrite constructor_call. apply try_ret. cbn [drop].
  rewrite (bind_ret _ _ _ _ _ (eval_list_literal fuel vs env st1 Hu Hvs)).
  cbn [py_eq as_int lift_opt]. rewrite Hlen, Z.eqb_refl. unfold bind at 1. unfold ret at 1.
  cbn [negb]. change (nth_item (VStr create :: VStr inst :: vs) 1) with (@ret state _ (VStr inst)).
  unfold bind at 1. unfold ret at 1.
  unfold bind, set_item, env_set. rewrite H1. reflexivity.
Qed.

Lemma constructor_refuses :
  length vs <> length ps ->
  lisp_eval (S (S fuel)) (VList (VStr create :: VStr inst :: vs)) env st1
  = Ret VNone
        (mkState (heap st1) (clock st1) (ticks st1)
                 (stdout st1 ++ [constructor_msg create (length ps) (length vs)])).
Proof.
  intros Hlen. destruct struct_fields_st1 as [H1 Hu].
  rewrite constructor_call. apply try_ret. cbn [drop].
  rewrite (bind_ret _ _ _ _ _ (eval_list_literal fuel vs env st1 Hu Hvs)).
  cbn [py_eq as_int lift_opt].
  replace (Z.of_nat (length vs) =? Z.of_nat (length ps)) with false
    by (symmetry; apply Z.eqb_neq; lia).
  reflexivity.
Qed.
End StructFields.

(** X23.  The fields of a struct are read back.  After [(struct nm ps)] with
    distinct field names, the constructor [(make-nm inst v ...)], given as
    many values as there are fields, binds the name [inst], which it does
    not evaluate, to the list of the values, in the environment of the
    call; and [(nm-pos inst nm-f-pos)] is then the value given for the field
    [f]. *)
Theorem struct_fields (fuel : nat) (env : addr) (st : state) (e : Env) (nm inst f : str)
    (ps : list str) (vs : list value) (i : nat) (v : value) :
  heap st !! env = Some e -> max_runtime e = 0 ->
  has_char 58%N nm = false -> has_char 58%N inst = false -> has_char 58%N f = false ->
  starts_with (lit "make-") (nm ++ lit "-pos") = false ->
  inst <> nm ++ lit "-pos" -> inst <> field_key nm f -> f <> [] ->
  NoDup ps -> length vs = length ps -> Forall (fun x => literal x = true) vs ->
  ps !! i = Some f -> vs !! i = Some v ->
  exists st1 st2,
    lisp_eval (S fuel) (VList [VStr (lit "struct"); VStr nm; VList (VStr <$> ps)]) env st
    = Ret VNone st1 /\
    lisp_eval (S (S fuel)) (VList (VStr (lit "make-" ++ nm) :: VStr inst :: vs)) env st1
    = Ret VNone st2 /\
    lisp_eval (S fuel) (VStr inst) env st2 = Ret (VList vs) st2 /\
    lisp_eval (S (S fuel)) (VList [VStr (nm ++ lit "-pos"); VStr inst; VStr (field_key nm f)])
      env st2
    = Ret v st2.
Proof.
  intros He Hr Hnm Hinst Hf Hmake Hi1 Hi2 Hfne Hnd Hlen Hvs Hps Hv.
  destruct (struct_fields_st1 env st e nm ps He Hr) as [H1 Hu1].
  set (st1 := set_heap (<[env := struct_env nm ps e]> (heap st)) st) in *.
  set (e2 := env_insert inst (VList vs) (struct_env nm ps e)).
  set (st2 := set_heap (<[env := e2]> (heap st1)) st1).
  exists st1, st2.
  assert (H2 : heap st2 !! env = Some e2).
  { apply list_lookup_insert_eq. eapply lookup_lt_Some, H1. }
  assert (Hu2 : unlimited st2 env) by (apply unlimited_set_heap_insert; assumption).
  destruct (struct_env_fields nm ps e i f Hnd Hps Hfne) as [Hkey Hpos].
  assert (Hsym : forall x w, has_char 58%N x = false -> vars e2 !! x = Some w ->
                             lisp_eval (S fuel) (VStr x) env st2 = Ret w st2).
  { intros x w Hx Hw. apply lisp_eval_symbol; [exact Hu2|exact Hx|].
    eapply lookup_var_found; [eapply find_here; [exact H2|exact Hw]|exact H2|exact Hw]. }
  assert (Hinst2 : lisp_eval (S fuel) (VStr inst) env st2 = Ret (VList vs) st2).
  { apply Hsym; [exact Hinst|]. unfold e2, env_insert. cbn [vars]. apply lookup_insert_eq. }
  split; [apply lisp_eval_struct; assumption|].
  split; [apply constructor_binds; assumption|].
  split; [exact Hinst2|].
  cbn [lisp_eval]. rewrite eval_step_unlimited by assumption. apply try_ret.
  cbn [eval_form is_opaque]. rewrite classify_pos. unfold eval_call.
  erewrite bind_ret.
  2:{ apply Hsym.
      - rewrite has_char_app, Hnm. reflexivity.
      - unfold e2, env_insert. cbn [vars]. rewrite lookup_insert_ne by congruence. exact Hpos. }
  rewrite Hmake. cbn [tail].
  assert (Hk2 : lisp_eval (S fuel) (VStr (field_key nm f)) env st2 = Ret (VInt (Z.of_nat i)) st2).
  { apply Hsym.
    - unfold field_key. rewrite !has_char_app, Hnm, Hf. reflexivity.
    - unfold e2, env_insert. cbn [vars]. rewrite lookup_insert_ne by congruence. exact Hkey. }
  erewrite bind_ret.
  2:{ cbn [eval_list]. unfold bind.
      change (eval_step (lisp_eval fuel) fuel) with (lisp_eval (S fuel)).
      rewrite Hinst2, Hk2. reflexivity. }
  cbn [apply_value py_getitem as_int].
  rewrite index_in_nat by (eapply lookup_lt_Some, Hv). rewrite Hv. reflexivity.
Qed.

Lemma struct_fields_witness :
  let st := mkState [mkEnv ∅ None 0 0] (fun _ => 0) 1 [] in
  exists st1 st2,
    lisp_eval 1 (VList [VStr (lit "struct"); VStr (lit "pt");
                        VList [VStr (lit "x"); VStr (lit "y")]]) 0%nat st
    = Ret VNone st1 /\
    lisp_eval 2 (VList [VStr (lit "make-pt"); VStr (lit "p"); VInt 3; VInt 4]) 0%nat st1
    = Ret VNone st2 /\
    lisp_eval 1 (VStr (lit "p")) 0%nat st2 = Ret (VList [VInt 3; VInt 4]) st2 /\
    lisp_eval 2 (VList [VStr (lit "pt-pos"); VStr (lit "p"); VStr (lit "pt-y-pos")]) 0%nat st2
    = Ret (VInt 4) st2.
Proof.
  intros st.
  apply (struct_fields 0 0%nat st (mkEnv ∅ None 0 0) (lit "pt") (lit "p") (lit "y")
           [lit "x"; lit "y"] [VInt 3; VInt 4] 1%nat (VInt 4));
    try reflexivity; try discriminate.
  - apply NoDup_cons. split; [|apply NoDup_singleton].
    intros H. apply list_elem_of_singleton in H. discriminate H.
  - repeat constructor.
Defined.

(** X24.  The constructor of a struct checks the number of values and
    raises nothing: given another number of values than there are fields,
    [(make-nm inst v ...)] writes a line on the standard output of the
    process, binds nothing and returns [None]. *)
Theorem constructor_arity (fuel : nat) (env : addr) (st : state) (e : Env) (nm inst : str)
    (ps : list str) (vs : list value) :
  heap st !! env = Some e -> max_runtime e = 0 -> has_char 58%N nm = false ->
  Forall (fun x => literal x = true) vs -> length vs <> length ps ->
  exists st1,
    lisp_eval (S fuel) (VList [VStr (lit "struct"); VStr nm; VList (VStr <$> ps)]) env st
    = Ret VNone st1 /\
    lisp_eval (S (S fuel)) (VList (VStr (lit "make-" ++ nm) :: VStr inst :: vs)) env st1
    = Ret VNone
          (mkState (heap st1) (clock st1) (ticks st1)
                   (stdout st1
                    ++ [constructor_msg (lit "make-" ++ nm) (length ps) (length vs)])).
Proof.
  intros He Hr Hnm Hvs Hlen. eexists. split; [apply lisp_eval_struct; eassumption|].
  apply constructor_refuses; assumption.
Qed.

Lemma constructor_arity_witness :
  let st := mkState [mkEnv ∅ None 0 0] (fun _ => 0) 1 [] in
  exists st1,
    lisp_eval 1 (VList [VStr (lit "struct"); VStr (lit "pt");
                        VList [VStr (lit "x"); VStr (lit "y")]]) 0%nat st
    = Ret VNone st1 /\
    lisp_eval 2 (VList [VStr (lit "make-pt"); VStr (lit "p"); VInt 3]) 0%nat st1
    = Ret VNone
          (mkState (heap st1) (clock st1) (ticks st1)
                   (stdout st1 ++ [lit "TypeError: make-pt requires 2%d values, given 1"])).
Proof.
  intros st.
  apply (constructor_arity 0 0%nat st (mkEnv ∅ None 0 0) (lit "pt") (lit "p")
           [lit "x"; lit "y"] [VInt 3]); try reflexivity.
  - repeat constructor.
  - discriminate.
Defined.


(* ===================================================================== *)
(** ** Evaluator: the arguments of a procedure *)

Lemma zip_keys_take (ps : list str) (args : list value) :
  (zip ps args).*1 = take (length args) ps.
Proof.
  revert args. induction ps as [|p ps IH]; intros [|a args]; cbn; try reflexivity.
  f_equal. apply IH.
Qed.

Lemma update_zip_lookup (ps : list str) (args : list value) (i : nat) (p : str) :
  NoDup ps -> ps !! i = Some p -> update ∅ (zip ps args) !! p = args !! i.
Proof.
  intros Hnd Hp. destruct (args !! i) as [a|] eqn:Ea.
  - eapply update_lookup_zip; eassumption.
  - rewrite update_lookup_notin; [apply lookup_empty|].
    rewrite zip_keys_take. apply lookup_ge_None in Ea.
    intros Hin. apply list_elem_of_lookup in Hin as [j Hj].
    apply lookup_take_Some in Hj as [Hj Hlt].
    pose proof (NoDup_lookup _ _ _ _ Hnd Hp Hj). lia.
Qed.

(** X25.  A procedure does not check the number of its arguments.  The
    frame of a call, created with the outer environment the procedure was
    made in and without runtime budget, binds the parameter at each position
    to the argument at that position when there is one; a parameter without
    argument is left unbound in the frame, and arguments without parameter
    are dropped.  The body is evaluated in that frame. *)
Theorem procedure_arguments (fuel : nat) (ps : list str) (body : value) (penv : addr)
    (args : list value) (st : state) :
  let frame := mkEnv (update ∅ (zip ps args)) (Some penv) (clock st (ticks st)) 0 in
  let st' := mkState (heap st ++ [frame]) (clock st) (S (ticks st)) (stdout st) in
  apply_value (lisp_eval fuel) (VProc (VList (VStr <$> ps)) body penv) args st
  = lisp_eval fuel body (length (heap st)) st' /\
  heap st' !! length (heap st) = Some frame /\
  (NoDup ps -> forall i p, ps !! i = Some p -> vars frame !! p = args !! i).
Proof.
  intros frame st'. split; [apply procedure_call|]. split.
  - unfold st'. cbn [heap]. apply list_lookup_middle. reflexivity.
  - intros Hnd i p Hp. unfold frame. cbn [vars]. apply update_zip_lookup; assumption.
Qed.

Lemma procedure_arguments_witness :
  let st := initial_state (fun _ => 0) in
  let frame := mkEnv (update ∅ (zip [lit "a"; lit "b"] [VInt 1])) (Some 0%nat) 0 0 in
  vars frame !! lit "a" = Some (VInt 1) /\ vars frame !! lit "b" = None.
Proof.
  intros st frame.
  destruct (procedure_arguments 1 [lit "a"; lit "b"] (VStr (lit "b")) 0%nat [VInt 1] st)
    as (_ & _ & H).
  assert (Hnd : NoDup [lit "a"; lit "b"]).
  { apply NoDup_cons. split; [|apply NoDup_singleton].
    intros Hin. apply list_elem_of_singleton in Hin. discriminate Hin. }
  split.
  - apply (H Hnd 0%nat (lit "a")). reflexivity.
  - apply (H Hnd 1%nat (lit "b")). reflexivity.
Defined.

(* ===================================================================== *)
(** ** Environments: what [Env.find] returns *)

Lemma find_in_sound (n : nat) (h : list Env) (self a : addr) (var : str) :
  find_in n h self var = Found a ->
  (exists ea v, h !! a = Some ea /\ vars ea !! var = Some v) /\
  (forall e, h !! self = Some e -> is_Some (vars e !! var) -> a = self).
Proof.
  revert self. induction n as [|n IH]; intros self; [discriminate|]. cbn [find_in].
  destruct (h !! self) as [e|] eqn:E; [|discriminate].
  destruct (vars e !! var) as [v|] eqn:Ev.
  - intros [= <-]. split; [eauto|]. reflexivity.
  - destruct (outer e) as [o|]; [|discriminate].
    destruct (h !! o) as [eo|]; [|discriminate].
    destruct (env_truthy eo); [|discriminate].
    intros H. destruct (IH _ H) as [H1 _]. split; [exact H1|].
    intros e' [= <-] [v Hv]. congruence.
Qed.

(** X26.  [Env.find] changes nothing, and the environment it returns binds
    the name, so that the subscription that follows every use of it finds a
    value; when the environment it starts from binds the name, that is the
    environment it returns. *)
Theorem find_sound (self a : addr) (var : str) (st st' : state) :
  find self var st = Ret a st' ->
  st' = st /\
  (exists ea v, heap st !! a = Some ea /\ vars ea !! var = Some v /\
                lookup_var self var st = Ret v st) /\
  (forall e, heap st !! self = Some e -> is_Some (vars e !! var) -> a = self).
Proof.
  intros H. pose proof (find_inv self var st) as Hi.
  destruct (find_in (S (length (heap st))) (heap st) self var) as [a'| |] eqn:Ef;
    rewrite H in Hi; try discriminate. injection Hi as -> ->.
  destruct (find_in_sound _ _ _ _ _ Ef) as [(ea & v & Ha & Hv) Hinner].
  split; [reflexivity|]. split; [|exact Hinner].
  exists ea, v. split; [exact Ha|]. split; [exact Hv|].
  eapply lookup_var_found; eassumption.
Qed.

Lemma find_sound_witness :
  let st := mkState [mkEnv {[ lit "x" := VInt 1 ]} None 0 0;
                     mkEnv {[ lit "y" := VInt 2 ]} (Some 0%nat) 0 0] (fun _ => 0) 1 [] in
  st = st /\
  (exists ea v, heap st !! 0%nat = Some ea /\ vars ea !! lit "x" = Some v /\
                lookup_var 1%nat (lit "x") st = Ret v st) /\
  (forall e, heap st !! 1%nat = Some e -> is_Some (vars e !! lit "x") -> 0%nat = 1%nat).
Proof.
  intros st. apply (find_sound 1%nat 0%nat (lit "x") st st). reflexivity.
Defined.


(* ===================================================================== *)
(** ** Reader: comments *)

Lemma join_items_strs (i : nat) (ss : list str) : join_items i (map VStr ss) = inr ss.
Proof.
  revert i. induction ss as [|s ss IH]; intros i; [reflexivity|].
  cbn [map join_items]. rewrite IH. reflexivity.
Qed.

Lemma symbol_ok_not_newline (w : str) : symbol_ok w = true -> str_eqb w [c_newline] = false.
Proof.
  intros H. destruct (str_eqb w [c_newline]) eqn:E; [|reflexivity].
  apply str_eqb_eq in E. subst w. discriminate H.
Qed.

Section CommentWords.
Variable rd : M (list str) value.
Hypothesis Hrd : forall w rest, symbol_ok w = true -> rd (w :: rest) = Ret (VStr w) rest.

Lemma read_comment_words (ws : list str) :
  Forall (fun w => symbol_ok w = true) ws ->
  forall n acc rest, (length ws < n)%nat ->
    read_comment rd n (map VStr acc) (ws ++ [c_newline] :: rest)
    = Ret (VList [VStr (lit "quote");
                  VStr (l_restore (join [c_space] (acc ++ ws ++ [[c_newline]])))]) rest.
Proof.
  induction 1 as [|w ws Hw _ IH]; intros n acc rest Hn.
  - destruct n as [|n]; [cbn in Hn; lia|]. cbn [app read_comment].
    change (str_eqb [c_newline] [c_newline]) with true. cbv iota.
    change (map VStr acc ++ [VStr [c_newline]]) with (map VStr acc ++ map VStr [[c_newline]]).
    rewrite <- map_app, join_items_strs. reflexivity.
  - destruct n as [|n]; [cbn in Hn; lia|]. cbn [length] in Hn. cbn [app read_comment].
    rewrite (symbol_ok_not_newline w Hw). unfold bind. rewrite (Hrd w _ Hw).
    change (map VStr acc ++ [VStr w]) with (map VStr acc ++ map VStr [w]).
    rewrite <- map_app, IH by lia. rewrite <- app_assoc. reflexivity.
Qed.

Variable z : Z.
Hypothesis Hz : forall rest, rd (str_of_Z z :: rest) = Ret (VInt z) rest.

Lemma read_comment_number (ws : list str) :
  Forall (fun w => symbol_ok w = true) ws ->
  forall n acc rest, (length ws + 1 < n)%nat ->
    read_comment rd n (map VStr acc) (ws ++ str_of_Z z :: [c_newline] :: rest)
    = match join_items 0 (map VStr (acc ++ ws) ++ [VInt z; VStr [c_newline]]) with
      | inr ss =>
        Ret (VList [VStr (lit "quote"); VStr (l_restore (join [c_space] ss))]) rest
      | inl e => Raise e rest
      end.
Proof.
  induction 1 as [|w ws Hw _ IH]; intros n acc rest Hn.
  - destruct n as [|[|n]]; [cbn in Hn; lia..|]. cbn [app read_comment].
    assert (str_eqb (str_of_Z z) [c_newline] = false) as ->.
    { destruct (str_eqb (str_of_Z z) [c_newline]) eqn:E; [|reflexivity].
      apply str_eqb_eq in E. destruct (str_of_Z_chars z) as [_ Hc]. rewrite E in Hc.
      discriminate Hc. }
    unfold bind. rewrite Hz. cbn [read_comment].
    change (str_eqb [c_newline] [c_newline]) with true. cbv iota.
    rewrite app_nil_r, <- app_assoc. reflexivity.
  - destruct n as [|n]; [cbn in Hn; lia|]. cbn [length] in Hn. cbn [app read_comment].
    rewrite (symbol_ok_not_newline w Hw). unfold bind. rewrite (Hrd w _ Hw).
    change (map VStr acc ++ [VStr w]) with (map VStr acc ++ map VStr [w]).
    rewrite <- map_app, IH by lia. rewrite <- app_assoc. reflexivity.
Qed.
End CommentWords.

Lemma join_items_int (i : nat) (ss : list str) (z : Z) (more : list value) :
  join_items i (map VStr ss ++ VInt z :: more)
  = inl (Exn TypeError (lit "sequence item " ++ str_of_nat (i + length ss)
                        ++ lit ": expected str instance, int found")).
Proof.
  revert i. induction ss as [|s ss IH]; intros i.
  - cbn [map app join_items length]. rewrite Nat.add_0_r. reflexivity.
  - cbn [map app join_items length]. rewrite IH.
    replace (S i + length ss)%nat with (i + S (length ss))%nat by lia. reflexivity.
Qed.


Lemma read_from_tokens_word (fuel : nat) (w : str) (rest : list str) :
  symbol_ok w = true -> read_from_tokens (S fuel) (w :: rest) = Ret (VStr w) rest.
Proof.
  intros Hw. apply (read_from_tokens_show (VStr w) Hw (S fuel) rest). cbn. lia.
Qed.

(** X27.  A comment is not skipped: it is read as the quotation of its own
    text.  A semicolon, words that [atom] reads as themselves and a newline,
    all separated by spaces, parse to the quote form of that very text, when
    the text holds no escape sequence and no placeholder.  A number after the
    words makes the reader fail, at the newline, with the [TypeError] of the
    join. *)
Theorem comment_words (ws : list str) (z : Z) (fuel : nat) (rest : list str) :
  Forall (fun w => symbol_ok w = true) ws ->
  let text := join [c_space] (lit ";" :: ws ++ [[c_newline]]) in
  (escape_free text = true -> placeholder_free text = true ->
   parse text = Ret (VList [VStr (lit "quote"); VStr text]) []) /\
  ((length (str_of_Z z) <= max_str_digits)%nat -> (length ws + 1 < fuel)%nat ->
   read_from_tokens (S fuel) (lit ";" :: ws ++ str_of_Z z :: [c_newline] :: rest)
   = Raise (Exn TypeError
              (lit "sequence item " ++ str_of_nat (S (length ws))
               ++ lit ": expected str instance, int found")) rest).
Proof.
  intros Hws text. split.
  - intros He Hp. unfold parse, tokenize, text. rewrite l_escape_absent by exact He.
    rewrite scan_join.
    2:{ cbn [forallb]. change (token_ok (lit ";")) with true. cbn [andb].
        rewrite forallb_app. cbn [forallb]. change (token_ok [c_newline]) with true.
        rewrite !andb_true_r. apply forallb_forall. intros w Hw.
        rewrite Forall_forall in Hws. specialize (Hws w (proj2 (list_elem_of_In _ _) Hw)).
        unfold symbol_ok in Hws. apply andb_true_iff in Hws as [[H1 _]%andb_true_iff _].
        unfold token_ok. rewrite H1, !orb_true_r. reflexivity. }
    cbn [length read_from_tokens read_step].
    change (quoted_re (lit ";")) with false. change (str_eqb (lit "(") (lit ";")) with false.
    change (str_eqb (lit ";") (lit ";")) with true. cbv iota.
    change [VStr (lit ";")] with (map VStr [lit ";"]).
    erewrite read_comment_words.
    + change ([lit ";"] ++ ws ++ [[c_newline]]) with (lit ";" :: ws ++ [[c_newline]]).
      fold text. rewrite l_restore_absent by exact Hp. reflexivity.
    + intros w r Hw. apply (read_from_tokens_word (length (ws ++ [[c_newline]])) w r Hw).
    + exact Hws.
    + rewrite length_app. cbn [length]. lia.
  - intros Hz Hf. destruct fuel as [|fuel]; [lia|].
    change (read_from_tokens (S (S fuel))) with
      (read_step (read_from_tokens (S fuel)) (S fuel)). unfold read_step.
    change (quoted_re (lit ";")) with false. change (str_eqb (lit "(") (lit ";")) with false.
    change (str_eqb (lit ";") (lit ";")) with true. cbv iota.
    change [VStr (lit ";")] with (map VStr [lit ";"]).
    rewrite (read_comment_number (read_from_tokens (S fuel))); try assumption.
    + change (map VStr ([lit ";"] ++ ws)) with (map VStr (lit ";" :: ws)).
      rewrite join_items_int. cbn [length Nat.add]. reflexivity.
    + intros w r Hw. apply read_from_tokens_word, Hw.
    + intros r. apply (read_from_tokens_show (VInt z)); [|cbn; lia].
      cbn [readable]. apply Nat.leb_le, Hz.
Qed.

Lemma comment_words_witness :
  parse (lit "; to do " ++ [c_newline])
  = Ret (VList [VStr (lit "quote"); VStr (lit "; to do " ++ [c_newline])]) [] /\
  read_from_tokens 9 [lit ";"; lit "take"; lit "2"; [c_newline]]
  = Raise (Exn TypeError (lit "sequence item 2: expected str instance, int found")) [].
Proof.
  assert (Hws : forall ws, forallb symbol_ok ws = true ->
                           Forall (fun w => symbol_ok w = true) ws).
  { intros ws H. apply Forall_forall. intros w Hw. rewrite forallb_forall in H.
    apply H, list_elem_of_In, Hw. }
  split.
  - apply (proj1 (comment_words [lit "to"; lit "do"] 0 0 []
                    (Hws [lit "to"; lit "do"] eq_refl))); reflexivity.
  - apply (proj2 (comment_words [lit "take"] 2 8 [] (Hws [lit "take"] eq_refl))).
    + apply Nat.leb_le. vm_compute. reflexivity.
    + apply Nat.ltb_lt. reflexivity.
Defined.


(* ===================================================================== *)
(** ** Evaluator: a loop that counts *)

Lemma resolves_insert (st : state) (env : addr) (e : Env) (k var : str) (v w : value) :
  heap st !! env = Some e -> var <> k -> resolves st env var w ->
  resolves (set_heap (<[env := env_insert k v e]> (heap st)) st) env var w.
Proof.
  intros He Hne (a & ea & Hf & Ha & Hv). unfold resolves. cbn [heap set_heap].
  rewrite length_insert. exists a. destruct (decide (a = env)) as [->|Hae].
  - exists (env_insert k v e). split; [|split].
    + apply find_in_insert; assumption.
    + apply list_lookup_insert_eq. eapply lookup_lt_Some, He.
    + unfold env_insert. cbn [vars]. rewrite lookup_insert_ne by congruence. congruence.
  - exists ea. split; [|split].
    + apply find_in_insert; assumption.
    + rewrite list_lookup_insert_ne by congruence. exact Ha.
    + exact Hv.
Qed.

Lemma resolves_lookup (st : state) (env : addr) (var : str) (w : value) :
  resolves st env var w -> lookup_var env var st = Ret w st.
Proof.
  intros (a & ea & Hf & Ha & Hv). eapply lookup_var_found; [apply find_found, Hf|exact Ha|exact Hv].
Qed.

Lemma state_insert_id (st : state) (env : addr) (e : Env) (var : str) (v : value) :
  heap st !! env = Some e -> vars e !! var = Some v ->
  set_heap (<[env := env_insert var v e]> (heap st)) st = st.
Proof.
  intros He Hv. assert (env_insert var v e = e) as ->.
  { destruct e as [m o t r]. unfold env_insert. cbn [vars outer timestamp max_runtime] in *.
    rewrite insert_id by exact Hv. reflexivity. }
  rewrite list_insert_id by exact He. destruct st. reflexivity.
Qed.

Section CountingLoop.
Variables (env : addr) (st : state) (e : Env) (var : str) (n : Z).
Hypothesis He : heap st !! env = Some e.
Hypothesis Hr : max_runtime e = 0.
Hypothesis Hvar : has_char 58%N var = false.
Hypothesis Hv1 : var <> lit "<".
Hypothesis Hv2 : var <> lit "+".
Hypothesis Hlt : resolves st env (lit "<") (VBuiltin BLt).
Hypothesis Hplus : resolves st env (lit "+") (VBuiltin BAdd).

Let at_ (k : Z) : state := set_heap (<[env := env_insert var (VInt k) e]> (heap st)) st.
Let test : value := VList [VStr (lit "<"); VStr var; VInt n].
Let body : value := VList [VStr (lit ":="); VStr var; VList [VStr (lit "+"); VStr var; VInt 1]].

Lemma counting_state (k : Z) :
  heap (at_ k) !! env = Some (env_insert var (VInt k) e) /\ unlimited (at_ k) env /\
  resolves (at_ k) env (lit "<") (VBuiltin BLt) /\
  resolves (at_ k) env (lit "+") (VBuiltin BAdd) /\
  lookup_var env var (at_ k) = Ret (VInt k) (at_ k).
Proof.
  assert (H1 : heap (at_ k) !! env = Some (env_insert var (VInt k) e)).
  { apply list_lookup_insert_eq. eapply lookup_lt_Some, He. }
  split; [exact H1|]. split; [|split; [|split]].
  - apply unlimited_set_heap_insert; [exists e; auto|exact He].
  - apply resolves_insert; [exact He|congruence|exact Hlt].
  - apply resolves_insert; [exact He|congruence|exact Hplus].
  - eapply lookup_var_found; [eapply find_here; [exact H1|]|exact H1|];
      apply lookup_insert_eq.
Qed.

Lemma counting_test (fuel : nat) (k : Z) :
  lisp_eval (S (S fuel)) test env (at_ k) = Ret (VBool (k <? n)) (at_ k).
Proof.
  destruct (counting_state k) as (H1 & Hu & Rlt & _ & Hx).
  eapply lisp_eval_call_builtin with (f := BLt) (vs := [VInt k; VInt n]);
    [reflexivity|reflexivity|exact Hu| | |reflexivity].
  - apply lisp_eval_symbol; [exact Hu|reflexivity|apply resolves_lookup, Rlt].
  - cbn [eval_list].
    rewrite (bind_ret _ _ _ _ _ (lisp_eval_symbol fuel var env (at_ k) (VInt k) Hu Hvar Hx)).
    unfold bind. rewrite (lisp_eval_int fuel n env (at_ k) Hu). reflexivity.
Qed.

Lemma counting_body (fuel : nat) (k : Z) :
  lisp_eval (S (S (S fuel))) body env (at_ k) = Ret VNone (at_ (k + 1)).
Proof.
  destruct (counting_state k) as (H1 & Hu & _ & Rplus & Hx).
  unfold body.
  rewrite (lisp_eval_set _ _ _ _ _ (VInt (k + 1)) (at_ k) env (env_insert var (VInt k) e));
    auto.
  - unfold at_. cbn [heap set_heap]. rewrite list_insert_insert_eq.
    unfold env_insert. cbn [vars outer timestamp max_runtime].
    rewrite insert_insert_eq. reflexivity.
  - eapply lisp_eval_call_builtin with (f := BAdd) (vs := [VInt k; VInt 1]);
      [reflexivity|reflexivity|exact Hu| | |reflexivity].
    + apply lisp_eval_symbol; [exact Hu|reflexivity|apply resolves_lookup, Rplus].
    + cbn [eval_list].
      rewrite (bind_ret _ _ _ _ _ (lisp_eval_symbol fuel var env (at_ k) (VInt k) Hu Hvar Hx)).
      unfold bind. rewrite (lisp_eval_int fuel 1 env (at_ k) Hu). reflexivity.
  - eapply find_here; [exact H1|apply lookup_insert_eq].
Qed.

Lemma counting_while (fuel d : nat) :
  forall (m : nat) (k : Z),
    k <= n -> Z.to_nat (n - k) = d -> (d < m)%nat ->
    while_loop (lisp_eval (S (S (S fuel)))) m [VStr (lit "while"); test; body] env (at_ k)
    = Ret VNone (at_ n).
Proof.
  induction d as [|d IH]; intros m k Hk Hd Hm.
  - assert (k = n) as -> by lia. destruct m as [|m]; [lia|]. cbn [while_loop].
    change (nth_item [VStr (lit "while"); test; body] 1) with (@ret state _ test).
    unfold bind at 1. unfold ret at 1.
    rewrite (bind_ret _ _ _ _ _ (counting_test (S fuel) n)). rewrite Z.ltb_irrefl. reflexivity.
  - destruct m as [|m]; [lia|]. cbn [while_loop].
    change (nth_item [VStr (lit "while"); test; body] 1) with (@ret state _ test).
    unfold bind at 1. unfold ret at 1.
    rewrite (bind_ret _ _ _ _ _ (counting_test (S fuel) k)).
    replace (k <? n) with true by (symmetry; apply Z.ltb_lt; lia).
    cbn [truthy lift_opt]. unfold bind at 1. unfold ret at 1.
    change (nth_item [VStr (lit "while"); test; body] 2) with (@ret state _ body).
    unfold bind at 1. unfold ret at 1.
    rewrite (bind_ret _ _ _ _ _ (counting_body fuel k)).
    apply IH; lia.
Qed.
End CountingLoop.

(** X28.  A loop that counts ends where it should.  In an environment
    without runtime budget that binds a name to an integer [k] and from which
    the comparison and the addition are found, the form
    [(while (< var n) (:= var (+ var 1)))] with [k <= n] returns [None] and
    leaves the name bound to [n], everything else being as before, as soon
    as the fuel covers the [n - k] rounds. *)
Theorem counting_loop (fuel : nat) (env : addr) (st : state) (e : Env) (var : str) (k n : Z) :
  heap st !! env = Some e -> max_runtime e = 0 -> vars e !! var = Some (VInt k) ->
  has_char 58%N var = false -> var <> lit "<" -> var <> lit "+" ->
  resolves st env (lit "<") (VBuiltin BLt) -> resolves st env (lit "+") (VBuiltin BAdd) ->
  k <= n -> (Z.to_nat (n - k) < S (S (S fuel)))%nat ->
  lisp_eval (S (S (S (S fuel))))
    (VList [VStr (lit "while"); VList [VStr (lit "<"); VStr var; VInt n];
            VList [VStr (lit ":="); VStr var; VList [VStr (lit "+"); VStr var; VInt 1]]])
    env st
  = Ret VNone (set_heap (<[env := env_insert var (VInt n) e]> (heap st)) st).
Proof.
  intros He Hr Hk Hvar Hv1 Hv2 Hlt Hplus Hkn Hf.
  rewrite <- (state_insert_id st env e var (VInt k) He Hk) at 1.
  change (lisp_eval (S (S (S (S fuel))))) with
    (eval_step (lisp_eval (S (S (S fuel)))) (S (S (S fuel)))).
  rewrite eval_step_unlimited.
  2:{ apply unlimited_set_heap_insert; [exists e; auto|exact He]. }
  apply try_ret. cbn [eval_form is_opaque].
  change (classify (VStr (lit "while"))) with FWhile. cbv iota.
  apply (counting_while env st e var n He Hr Hvar Hv1 Hv2 Hlt Hplus fuel (Z.to_nat (n - k)));
    [exact Hkn|reflexivity|exact Hf].
Qed.

Lemma counting_loop_witness :
  let g := mkEnv {[ lit "i" := VInt 2; lit "<" := VBuiltin BLt; lit "+" := VBuiltin BAdd ]}
                 None 0 0 in
  let st := mkState [g] (fun _ => 0) 1 [] in
  lisp_eval 7 (VList [VStr (lit "while"); VList [VStr (lit "<"); VStr (lit "i"); VInt 7];
                      VList [VStr (lit ":="); VStr (lit "i");
                             VList [VStr (lit "+"); VStr (lit "i"); VInt 1]]]) 0%nat st
  = Ret VNone (set_heap (<[0%nat := env_insert (lit "i") (VInt 7) g]> (heap st)) st).
Proof.
  intros g st.
  apply (counting_loop 3 0%nat st g (lit "i") 2 7); try reflexivity; try discriminate.
  - exists 0%nat, g. repeat split; reflexivity.
  - exists 0%nat, g. repeat split; reflexivity.
  - apply Nat.ltb_lt. reflexivity.
Defined.


(* ===================================================================== *)
(** ** From the text of an arithmetic expression to its value *)

Section Arithmetic.
Variables (env : addr) (st : state).
Hypothesis Hu : unlimited st env.
Hypothesis Hadd : resolves st env (lit "+") (VBuiltin BAdd).
Hypothesis Hsub : resolves st env (lit "-") (VBuiltin BSub).
Hypothesis Hmul : resolves st env (lit "*") (VBuiltin BMul).

Lemma lisp_eval_binary (fuel : nat) (s : str) (f : builtin) (x y : value) (a b : Z)
    (op : Z -> Z -> Z) :
  classify (VStr s) = FCall -> starts_with (lit "make-") s = false ->
  has_char 58%N s = false -> resolves st env s (VBuiltin f) ->
  (forall st1 : state, call_builtin f [VInt a; VInt b] st1 = Ret (VInt (op a b)) st1) ->
  lisp_eval (S fuel) x env st = Ret (VInt a) st ->
  lisp_eval (S fuel) y env st = Ret (VInt b) st ->
  lisp_eval (S (S fuel)) (VList [VStr s; x; y]) env st = Ret (VInt (op a b)) st.
Proof.
  intros Hc Hm Hs Hr Hf Hx Hy.
  eapply lisp_eval_call_builtin with (f := f) (vs := [VInt a; VInt b]);
    [exact Hc|exact Hm|exact Hu| | |apply Hf].
  - apply lisp_eval_symbol; [exact Hu|exact Hs|apply resolves_lookup, Hr].
  - cbn [eval_list]. rewrite (bind_ret _ _ _ _ _ Hx). unfold bind. rewrite Hy. reflexivity.
Qed.

Lemma lisp_eval_aexp (a : aexp) :
  forall fuel, (height a < fuel)%nat ->
  lisp_eval fuel (form_of a) env st = Ret (VInt (denote a)) st.
Proof.
  induction a as [z|a IHa b IHb|a IHa b IHb|a IHa b IHb]; intros fuel Hf.
  - destruct fuel as [|fuel]; [lia|]. apply lisp_eval_int, Hu.
  - destruct fuel as [|[|fuel]]; cbn [height] in Hf; try lia. cbn [form_of denote].
    apply (lisp_eval_binary fuel (lit "+") BAdd _ _ _ _ Z.add); try reflexivity;
      [exact Hadd|apply IHa; lia|apply IHb; lia].
  - destruct fuel as [|[|fuel]]; cbn [height] in Hf; try lia. cbn [form_of denote].
    apply (lisp_eval_binary fuel (lit "-") BSub _ _ _ _ Z.sub); try reflexivity;
      [exact Hsub|apply IHa; lia|apply IHb; lia].
  - destruct fuel as [|[|fuel]]; cbn [height] in Hf; try lia. cbn [form_of denote].
    apply (lisp_eval_binary fuel (lit "*") BMul _ _ _ _ Z.mul); try reflexivity;
      [exact Hmul|apply IHa; lia|apply IHb; lia].
Qed.
End Arithmetic.

Lemma str_of_Z_no_backslash (z : Z) : has_char c_backslash (str_of_Z z) = false.
Proof.
  apply has_char_not_In. intros Hin. destruct (str_of_Z_chars z) as [_ Hc].
  rewrite forallb_forall in Hc. specialize (Hc _ Hin). discriminate Hc.
Qed.

Lemma text_no_backslash (a : aexp) : has_char c_backslash (text_of a) = false.
Proof.
  unfold text_of.
  induction a as [z|a IHa b IHb|a IHa b IHb|a IHa b IHb]; cbn [form_of render map join];
    [apply str_of_Z_no_backslash|..];
    rewrite !has_char_app, IHa, !has_char_cons, IHb; reflexivity.
Qed.

Lemma standard_resolves (clock : nat -> Z) :
  unlimited (initial_state clock) global_env /\
  resolves (initial_state clock) global_env (lit "+") (VBuiltin BAdd) /\
  resolves (initial_state clock) global_env (lit "-") (VBuiltin BSub) /\
  resolves (initial_state clock) global_env (lit "*") (VBuiltin BMul).
Proof.
  split; [eexists; split; reflexivity|].
  repeat split; exists 0%nat, (standard_env (clock 0%nat) 0);
    (split; [|split]); try reflexivity; vm_compute; reflexivity.
Qed.

(** X29.  From the text to the value.  An arithmetic expression over the
    integers, written in prefix form with [+], [-] and [*], parses to the
    form of the expression; and in the
    standard environment [lisp_eval] of that parse returns the value of the
    expression and changes nothing, as soon as the fuel exceeds the height of
    the expression.  The integers are those whose decimal text has at most
    4300 characters. *)
Theorem arithmetic (a : aexp) (fuel : nat) (clock : nat -> Z) :
  readable (form_of a) = true -> (height a < fuel)%nat ->
  parse (text_of a) = Ret (form_of a) [] /\
  eval_program fuel (text_of a) global_env (initial_state clock)
  = Ret (VInt (denote a)) (initial_state clock).
Proof.
  intros Hr Hf.
  assert (Hp : parse (text_of a) = Ret (form_of a) []).
  { apply parse_render; [exact Hr|]. apply no_backslash_escape_free, text_no_backslash. }
  split; [exact Hp|]. unfold eval_program. rewrite Hp.
  destruct (standard_resolves clock) as (Hu & H1 & H2 & H3).
  apply lisp_eval_aexp; assumption.
Qed.

Lemma arithmetic_witness :
  parse (lit "(* (+ 1 2) (- 10 -4))")
  = Ret (form_of (Mul (Add (Num 1) (Num 2)) (Sub (Num 10) (Num (-4))))) [] /\
  eval_program 3 (lit "(* (+ 1 2) (- 10 -4))") global_env (initial_state (fun _ => 0))
  = Ret (VInt 42) (initial_state (fun _ => 0)).
Proof.
  apply (arithmetic (Mul (Add (Num 1) (Num 2)) (Sub (Num 10) (Num (-4)))) 3 (fun _ => 0)).
  - vm_compute. reflexivity.
  - apply Nat.ltb_lt. reflexivity.
Defined.

(* ===================================================================== *)
(** ** Reader: line breaks *)

Lemma symbol_ok_inv (s : str) :
  symbol_ok s = true ->
  run_token s = true /\ s <> lit ";" /\ atom (strip s) = Some (VStr s).
Proof.
  unfold symbol_ok. intros [[H1 H2]%andb_true_iff H3]%andb_true_iff.
  split; [exact H1|]. split.
  - apply negb_true_iff in H2. intros ->. rewrite str_eqb_refl in H2. discriminate.
  - destruct (atom (strip s)) as [[| | | |s'| | | | | | |]|]; try discriminate.
    apply str_eqb_eq in H3 as ->. reflexivity.
Qed.

Lemma lstrip_length (s : str) : (length (lstrip s) <= length s)%nat.
Proof. induction s as [|c s IH]; cbn [lstrip]; [lia|]. destruct (is_ascii_space c); cbn; lia. Qed.

Lemma strip_length (s : str) : (length (strip s) <= length s)%nat.
Proof.
  unfold strip. rewrite length_rev.
  etrans; [apply lstrip_length|]. rewrite length_rev. apply lstrip_length.
Qed.

Lemma lstrip_fixed (s : str) : length (lstrip s) = length s -> lstrip s = s.
Proof.
  destruct s as [|c s]; [reflexivity|]. cbn [lstrip].
  destruct (is_ascii_space c); [|reflexivity].
  intros H. pose proof (lstrip_length s). cbn in H. lia.
Qed.

Lemma atom_length (s : str) (t : str) : atom s = Some (VStr t) -> length t = length s.
Proof.
  unfold atom. destruct (_ || _); [discriminate|].
  destruct (py_int s); [discriminate|]. destruct (py_float_ok s); [discriminate|].
  destruct (is_positive s); [discriminate|].
  intros [= <-]. unfold lower. apply length_map.
Qed.

(** A symbol that [atom] reads as itself has no white space at its ends. *)
Lemma symbol_ok_stripped (s : str) :
  symbol_ok s = true -> lstrip s = s /\ lstrip (rev s) = rev s.
Proof.
  intros (_ & _ & Ha)%symbol_ok_inv. apply atom_length in Ha.
  pose proof (lstrip_length s) as H1. pose proof (lstrip_length (rev (lstrip s))) as H2.
  unfold strip in Ha. rewrite !length_rev in *.
  assert (E1 : lstrip s = s) by (apply lstrip_fixed; lia).
  split; [exact E1|]. rewrite E1 in Ha, H2. apply lstrip_fixed. rewrite length_rev. lia.
Qed.

Lemma strip_padded (s : str) (w : char) :
  symbol_ok s = true -> is_ascii_space w = true ->
  strip (s ++ [w]) = strip s /\ strip (w :: s) = strip s.
Proof.
  intros Hs Hw. destruct (symbol_ok_stripped s Hs) as [E1 E2].
  destruct (symbol_ok_inv s Hs) as (Hr & _ & _).
  destruct s as [|c s']; [discriminate|].
  assert (Hc : is_ascii_space c = false).
  { cbn [lstrip] in E1. destruct (is_ascii_space c); [|reflexivity].
    pose proof (lstrip_length s') as Hl. rewrite E1 in Hl. cbn in Hl. lia. }
  assert (Lw : forall x, lstrip (w :: x) = lstrip x).
  { intros x. cbn [lstrip]. rewrite Hw. reflexivity. }
  split.
  - unfold strip.
    assert (L : lstrip ((c :: s') ++ [w]) = (c :: s') ++ [w]).
    { cbn [app lstrip]. rewrite Hc. reflexivity. }
    rewrite L, rev_app_distr. change (rev [w] ++ rev (c :: s')) with (w :: rev (c :: s')).
    rewrite Lw, E1, !E2. reflexivity.
  - unfold strip. rewrite Lw. reflexivity.
Qed.

Lemma run_token_app (s t : str) : run_token s = true -> no_delim t = true -> run_token (s ++ t) = true.
Proof.
  destruct s as [|c s]; [discriminate|]. unfold run_token, no_delim. cbn [app forallb].
  rewrite forallb_app. intros [-> ->]%andb_true_iff ->. reflexivity.
Qed.

Lemma blank_no_delim (w : char) :
  is_ascii_space w = true -> w <> c_space -> is_delim w = false.
Proof.
  unfold is_ascii_space, is_delim, char_eqb, c_lparen, c_rparen, c_dquote, c_space.
  intros H Hw.
  destruct (N.eqb_spec w 40) as [->|H1]; [discriminate|].
  destruct (N.eqb_spec w 41) as [->|H2]; [discriminate|].
  destruct (N.eqb_spec w 34) as [->|H3]; [discriminate|].
  destruct (N.eqb_spec w 32) as [->|H4]; [congruence|]. reflexivity.
Qed.

(** The reading of a list of run tokens between parentheses *)
Lemma read_atoms (fuel : nat) (ts : list str) (vs : list value) :
  Forall2 (fun tk v => run_token tk = true /\ tk <> lit ";" /\
                       atom (strip tk) = Some v /\ is_str v [] = false) ts vs ->
  (length ts < fuel)%nat ->
  read_from_tokens (S fuel) (lit "(" :: ts ++ [lit ")"]) = Ret (VList vs) [].
Proof.
  intros H Hf. cbn [read_from_tokens read_step].
  change (quoted_re (lit "(")) with false. cbv iota. rewrite str_eqb_refl.
  assert (G : forall n acc,
             (length ts < n)%nat ->
             read_list (read_from_tokens fuel) n acc (ts ++ [lit ")"])
             = Ret (VList (acc ++ vs)) []).
  { revert Hf. induction H as [|tk v ts vs (H1 & H2 & H3 & H4) _ IH]; intros Hf n acc Hn.
    - destruct n as [|n]; [cbn in Hn; lia|]. cbn [app read_list].
      rewrite str_eqb_refl, app_nil_r. reflexivity.
    - destruct n as [|n]; [cbn in Hn; lia|]. cbn [length] in Hn, Hf. cbn [app read_list].
      destruct (run_token_head tk H1) as (Q1 & Q2 & Q3 & Q4). rewrite Q4.
      assert (E : read_from_tokens fuel (tk :: ts ++ [lit ")"]) = Ret v (ts ++ [lit ")"])).
      { destruct fuel as [|fuel']; [lia|]. cbn [read_from_tokens read_step].
        rewrite Q1, Q2, Q3, H3.
        destruct (str_eqb (lit ";") tk) eqn:E; [|reflexivity].
        apply str_eqb_eq in E. congruence. }
      unfold bind. rewrite E, H4. rewrite IH by lia.
      rewrite <- app_assoc. reflexivity. }
  rewrite (G fuel []) by exact Hf. reflexivity.
Qed.

Lemma symbol_ok_atom (s tk : str) :
  symbol_ok s = true -> run_token tk = true -> strip tk = strip s ->
  run_token tk = true /\ tk <> lit ";" /\
  atom (strip tk) = Some (VStr s) /\ is_str (VStr s) [] = false.
Proof.
  intros Hs Hr E. destruct (symbol_ok_inv s Hs) as (Rs & Hn & Ha).
  split; [exact Hr|]. split; [|split].
  - intros ->. rewrite <- E in Ha. vm_compute in Ha.
    injection Ha as <-. apply Hn. reflexivity.
  - rewrite E. exact Ha.
  - destruct s; [discriminate|reflexivity].
Qed.

(** X30.  A line break or a tab does not separate atoms: the pattern of
    [tokenize] ends a run of characters only at a parenthesis, a double quote
    or a space.  For two symbols [s] and [t] and a blank character [w] other
    than the space, the text "(s w t)" written without a space is a list of
    ONE symbol, the characters of [s], [w] and [t] (when [atom] reads them as
    a symbol); with a space after or before [w] the list has the two symbols
    [s] and [t], since [read_from_tokens] strips the blank ends of a token. *)
Theorem line_breaks (s t : str) (w : char) :
  symbol_ok s = true -> symbol_ok t = true ->
  is_ascii_space w = true -> w <> c_space ->
  has_char c_backslash (s ++ t) = false ->
  (symbol_ok (s ++ [w] ++ t) = true ->
   parse (lit "(" ++ s ++ [w] ++ t ++ lit ")") = Ret (VList [VStr (s ++ [w] ++ t)]) []) /\
  parse (lit "(" ++ s ++ [w; c_space] ++ t ++ lit ")") = Ret (VList [VStr s; VStr t]) [] /\
  parse (lit "(" ++ s ++ [c_space; w] ++ t ++ lit ")") = Ret (VList [VStr s; VStr t]) [].
Proof.
  intros Hs Ht Hw Hsp Hb.
  destruct (symbol_ok_inv s Hs) as (Rs & _ & _). destruct (symbol_ok_inv t Ht) as (Rt & _ & _).
  pose proof (blank_no_delim w Hw Hsp) as Hd.
  assert (Nt : no_delim t = true) by (destruct t; [discriminate|exact Rt]).
  assert (Rsw : run_token (s ++ [w]) = true).
  { apply run_token_app; [exact Rs|]. unfold no_delim. cbn [forallb]. rewrite Hd. reflexivity. }
  assert (Rwt : run_token (w :: t) = true).
  { unfold run_token, no_delim in *. cbn [forallb]. rewrite Hd. exact Nt. }
  rewrite has_char_app in Hb. apply orb_false_iff in Hb as [Hbs Hbt].
  assert (Hbw : has_char c_backslash [w] = false).
  { unfold has_char. cbn [existsb]. rewrite orb_false_r.
    destruct (char_eqb c_backslash w) eqn:E; [|reflexivity].
    apply char_eqb_eq in E as <-. discriminate. }
  assert (Fr : forall x, has_char c_backslash x = false -> l_escape x = x).
  { intros x Hx. apply l_escape_absent, no_backslash_escape_free, Hx. }
  assert (Rd : forall ts vs,
             Forall2 (fun tk v => run_token tk = true /\ tk <> lit ";" /\
                                  atom (strip tk) = Some v /\ is_str v [] = false) ts vs ->
             read_from_tokens (S (length (lit "(" :: ts ++ [lit ")"]))) (lit "(" :: ts ++ [lit ")"])
             = Ret (VList vs) []).
  { intros ts vs F. apply read_atoms; [exact F|]. cbn [length]. rewrite length_app. cbn. lia. }
  split; [|split].
  - intros Hst. destruct (symbol_ok_inv _ Hst) as (Rst & _ & _).
    unfold parse, tokenize. rewrite Fr.
    2:{ rewrite !has_char_app, Hbs, Hbt, Hbw. reflexivity. }
    change (lit "(" ++ s ++ [w] ++ t ++ lit ")")
      with (c_lparen :: (s ++ [w] ++ t ++ [c_rparen])).
    rewrite scan_lparen.
    replace (s ++ [w] ++ t ++ [c_rparen]) with ((s ++ [w] ++ t) ++ [c_rparen])
      by (rewrite <- !app_assoc; reflexivity).
    rewrite scan_run_token by (exact Rst || reflexivity).
    rewrite scan_rparen, scan_nil.
    apply (Rd [s ++ [w] ++ t] [VStr (s ++ [w] ++ t)]).
    constructor; [|constructor]. apply symbol_ok_atom; [exact Hst|exact Rst|reflexivity].
  - unfold parse, tokenize. rewrite Fr.
    2:{ rewrite !has_char_app, Hbs, Hbt. cbn [app]. unfold has_char in *. cbn [existsb] in *.
        rewrite orb_false_r in Hbw. rewrite Hbw. reflexivity. }
    change (lit "(" ++ s ++ [w; c_space] ++ t ++ lit ")")
      with (c_lparen :: (s ++ [w] ++ c_space :: t ++ [c_rparen])).
    rewrite scan_lparen, app_assoc.
    rewrite scan_run_token by (exact Rsw || reflexivity).
    rewrite scan_space, scan_run_token by (exact Rt || reflexivity).
    rewrite scan_rparen, scan_nil.
    apply (Rd [s ++ [w]; t] [VStr s; VStr t]).
    constructor; [|constructor; [|constructor]].
    + apply symbol_ok_atom; [exact Hs|exact Rsw|]. apply strip_padded; assumption.
    + apply symbol_ok_atom; [exact Ht|exact Rt|reflexivity].
  - unfold parse, tokenize. rewrite Fr.
    2:{ rewrite !has_char_app, Hbs, Hbt. cbn [app]. unfold has_char in *. cbn [existsb] in *.
        rewrite orb_false_r in Hbw. rewrite Hbw. reflexivity. }
    change (lit "(" ++ s ++ [c_space; w] ++ t ++ lit ")")
      with (c_lparen :: (s ++ c_space :: (w :: t) ++ [c_rparen])).
    rewrite scan_lparen.
    rewrite scan_run_token by (exact Rs || reflexivity).
    rewrite scan_space, scan_run_token by (exact Rwt || reflexivity).
    rewrite scan_rparen, scan_nil.
    apply (Rd [s; w :: t] [VStr s; VStr t]).
    constructor; [|constructor; [|constructor]].
    + apply symbol_ok_atom; [exact Hs|exact Rs|reflexivity].
    + apply symbol_ok_atom; [exact Ht|exact Rwt|]. apply strip_padded; assumption.
Qed.

Lemma line_breaks_witness :
  parse (lit "(" ++ lit "a" ++ [c_newline] ++ lit "b" ++ lit ")")
  = Ret (VList [VStr (lit "a" ++ [c_newline] ++ lit "b")]) [] /\
  parse (lit "(" ++ lit "a" ++ [c_newline; c_space] ++ lit "b" ++ lit ")")
  = Ret (VList [VStr (lit "a"); VStr (lit "b")]) [] /\
  parse (lit "(" ++ lit "a" ++ [c_space; c_newline] ++ lit "b" ++ lit ")")
  = Ret (VList [VStr (lit "a"); VStr (lit "b")]) [].
Proof.
  destruct (line_breaks (lit "a") (lit "b") c_newline) as (H1 & H2 & H3);
    try reflexivity; [discriminate|].
  split; [apply H1; reflexivity|]. split; [exact H2|exact H3].
Defined.

(* ===================================================================== *)
(** ** Evaluator: the runtime budget in a loop *)

(** The try block of a call and its handler leave in place what an
    evaluation leaves in place. *)
Lemma keeps_try_block (fuel : nat) (x : value) (env : addr) :
  keeps (try_except (eval_form (lisp_eval fuel) fuel x env) (reraise x)).
Proof.
  apply keeps_try; [|intros e0; apply keeps_reraise].
  apply keeps_eval_form. intros y a. apply keeps_lisp_eval.
Qed.

(** A call in an environment with a budget, when the reading of the clock
    is within the budget, goes on to the try block, one reading later. *)
Lemma lisp_eval_within fuel x env st e :
  heap st !! env = Some e -> max_runtime e <> 0 -> ~ expired st e (ticks st) ->
  lisp_eval (S fuel) x env st
  = try_except (eval_form (lisp_eval fuel) fuel x env) (reraise x) (tick st).
Proof.
  intros He Hr Hx. cbn [lisp_eval]. unfold eval_step.
  rewrite (bind_ret _ _ _ _ _ (check_runtime_within _ _ _ He Hr Hx)). reflexivity.
Qed.

(** A call that returns, in an environment with a budget, has read the
    clock within the budget, and the clock has been read at least once. *)
Lemma lisp_eval_returns_within fuel x env st e v st' :
  heap st !! env = Some e -> max_runtime e <> 0 ->
  lisp_eval fuel x env st = Ret v st' ->
  ~ expired st e (ticks st) /\ (ticks st < ticks st')%nat.
Proof.
  intros He Hr H. destruct fuel as [|fuel]; [discriminate|].
  destruct (expired_dec st e (ticks st)) as [Hx|Hx].
  { rewrite (lisp_eval_expired fuel x env st e He Hr Hx) in H. discriminate. }
  split; [exact Hx|].
  rewrite (lisp_eval_within fuel x env st e He Hr Hx) in H.
  pose proof (keeps_try_block fuel x env (tick st)) as K. rewrite H in K.
  destruct K as (_ & K & _). cbn in K. lia.
Qed.

Lemma expired_continues (st s : state) (e e' : Env) (n : nat) :
  continues st s -> env_kept e e' -> expired s e' n <-> expired st e n.
Proof.
  intros (Hc & _) (_ & Ht & Hm & _). unfold expired. rewrite Hc, Ht, Hm. reflexivity.
Qed.

Lemma continues_tick (st : state) : continues st (tick st).
Proof.
  split; [reflexivity|]. split; [cbn; lia|]. split; [exists []; cbn; rewrite app_nil_r; reflexivity|].
  intros a e He. exists e. split; [exact He|apply env_kept_refl].
Qed.

Section TimedLoop.
(** A loop in an environment with a budget, in a state whose clock stays
    beyond the budget from the reading [n] on; the test, each time it is
    evaluated, returns a true value or fails with the timeout, and the
    body returns or fails with the timeout. *)
Variables (env : addr) (e : Env) (st : state) (test body : value) (n fuel : nat).
Variable Inv : list Env -> Prop.
Hypothesis He : heap st !! env = Some e.
Hypothesis Hr : max_runtime e <> 0.
Hypothesis Hn : forall m, (n <= m)%nat -> expired st e m.
Hypothesis Htest : forall s, Inv (heap s) -> continues st s ->
  runs_or_times_out (lisp_eval fuel) Inv (fun v => truthy v = Some true) test env s.
Hypothesis Hbody : forall s, Inv (heap s) -> continues st s ->
  runs_or_times_out (lisp_eval fuel) Inv (fun _ => True) body env s.

Let xs : list value := [VStr (lit "while"); test; body].

Lemma returns_before s x v s' :
  continues st s -> lisp_eval fuel x env s = Ret v s' ->
  (ticks s < n)%nat /\ (ticks s < ticks s')%nat /\ continues st s'.
Proof.
  intros Hs H. destruct (proj2 (proj2 (proj2 Hs)) env e He) as (e' & He' & Hk).
  assert (Hr' : max_runtime e' <> 0) by (destruct Hk as (_ & _ & -> & _); exact Hr).
  destruct (lisp_eval_returns_within fuel x env s e' v s' He' Hr' H) as [Hx Ht].
  split; [|split; [exact Ht|]].
  - destruct (le_lt_dec n (ticks s)) as [Hle|Hlt]; [|exact Hlt].
    exfalso. apply Hx. apply (expired_continues st s e e'); [exact Hs|exact Hk|]. apply Hn, Hle.
  - eapply continues_trans; [exact Hs|].
    pose proof (keeps_lisp_eval fuel x env s) as K. rewrite H in K. exact K.
Qed.

Lemma timed_loop d :
  forall s loops,
    Inv (heap s) -> continues st s -> (n - ticks s <= d)%nat -> (d < loops)%nat ->
    timed_out (while_loop (lisp_eval fuel) loops xs env s).
Proof.
  induction d as [d IH] using lt_wf_ind. intros s loops HI Hs Hd Hl.
  destruct loops as [|loops]; [lia|]. cbn [while_loop].
  unfold xs at 1. cbn [nth_item lookup list_lookup].
  unfold bind at 1. unfold ret at 1.
  destruct (Htest s HI Hs) as [(v & s1 & Ht & Hv & HI1) | (msg & s1 & Ht & Hc)].
  2:{ exists msg, s1. split; [|exact Hc]. apply bind_raise, Ht. }
  destruct (returns_before s test v s1 Hs Ht) as (Hlt & Hlt1 & Hs1).
  rewrite (bind_ret _ _ _ _ _ Ht). unfold lift_opt. rewrite Hv.
  unfold bind at 1. unfold ret at 1.
  unfold xs at 1. cbn [nth_item lookup list_lookup].
  unfold bind at 1. unfold ret at 1.
  destruct (Hbody s1 HI1 Hs1) as [(v2 & s2 & Hb & _ & HI2) | (msg & s2 & Hb & Hc)].
  2:{ exists msg, s2. split; [|exact Hc]. apply bind_raise, Hb. }
  destruct (returns_before s1 body v2 s2 Hs1 Hb) as (_ & Hlt2 & Hs2).
  rewrite (bind_ret _ _ _ _ _ Hb).
  apply (IH (d - 1)%nat); [lia|exact HI2|exact Hs2|lia|lia].
Qed.

Lemma while_times_out :
  Inv (heap st) -> (n - ticks st < fuel)%nat ->
  exists msg st',
    lisp_eval (S fuel) (VList xs) env st = Raise (Exn CustomCommandSyntaxError msg) st' /\
    timeout_chain msg.
Proof.
  intros HI Hf.
  destruct (expired_dec st e (ticks st)) as [Hx|Hx].
  { exists timeout_msg, (tick st). split; [|constructor].
    apply (lisp_eval_expired _ _ _ _ e); assumption. }
  destruct (timed_loop (n - ticks st) (tick st) fuel HI (continues_tick st))
    as (msg & st' & Hw & Hc & Hlen); [cbn; lia|exact Hf|].
  exists (lit "(while): " ++ msg), st'. split.
  - rewrite (lisp_eval_within fuel _ env st e He Hr Hx).
    assert (eval_form (lisp_eval fuel) fuel (VList xs) env (tick st)
            = Raise (Exn CustomCommandSyntaxError msg) st') as Hform by exact Hw.
    rewrite (try_raise _ _ _ _ _ Hform). unfold xs.
    rewrite (reraise_short (VStr (lit "while")) _ _ _ (lit "while") eq_refl) by exact Hlen.
    reflexivity.
  - apply (chain_under (lit "while") msg Hc).
Qed.
End TimedLoop.

(** Two evaluations that return or fail with the timeout in every state *)
Lemma literal_runs_or_times_out fuel (Inv : list Env -> Prop) (P : value -> Prop)
    (x : value) env s e :
  heap s !! env = Some e -> max_runtime e <> 0 -> literal x = true -> P x -> Inv (heap s) ->
  runs_or_times_out (lisp_eval (S fuel)) Inv P x env s.
Proof.
  intros He Hr Hl HP HI. destruct (expired_dec s e (ticks s)) as [Hx|Hx].
  - right. exists timeout_msg, (tick s). split; [|split; [constructor|vm_compute; lia]].
    apply (lisp_eval_expired _ _ _ _ e); assumption.
  - left. exists x, (tick s). split; [|split; [exact HP|exact HI]].
    apply (lisp_eval_literal_within _ _ _ _ e); assumption.
Qed.

Lemma define_runs_or_times_out fuel (Inv : list Env -> Prop) (var : str) (x : value) env s e :
  heap s !! env = Some e -> max_runtime e <> 0 -> literal x = true ->
  (forall h e', h !! env = Some e' -> Inv h -> Inv (<[env := env_insert var x e']> h)) ->
  Inv (heap s) ->
  runs_or_times_out (lisp_eval (S (S fuel))) Inv (fun _ => True)
    (VList [VStr (lit "define"); VStr var; x]) env s.
Proof.
  intros He Hr Hl Hins HI. destruct (expired_dec s e (ticks s)) as [Hx|Hx].
  { right. exists timeout_msg, (tick s). split; [|split; [constructor|vm_compute; lia]].
    apply (lisp_eval_expired _ _ _ _ e); assumption. }
  unfold runs_or_times_out. rewrite (lisp_eval_within _ _ env s e He Hr Hx).
  unfold try_except. cbn [eval_form is_opaque].
  change (classify (VStr (lit "define"))) with FDefine. cbv iota.
  destruct (expired_dec (tick s) e (ticks (tick s))) as [Hy|Hy].
  - right. unfold bind at 1.
    rewrite (lisp_eval_expired fuel x env (tick s) e He Hr Hy).
    rewrite (reraise_short (VStr (lit "define")) _ _ _ (lit "define") eq_refl)
      by (vm_compute; lia).
    exists (lit "(define): " ++ timeout_msg), (tick (tick s)).
    split; [reflexivity|]. split; [|vm_compute; lia].
    apply (chain_under (lit "define") timeout_msg), chain_here.
  - left. unfold bind at 1.
    rewrite (lisp_eval_literal_within fuel x env (tick s) e He Hr Hy Hl).
    unfold bind, set_item, env_set. cbn [heap tick]. rewrite He.
    eexists _, _. split; [reflexivity|]. split; [exact I|].
    cbn [heap set_heap tick]. apply Hins; assumption.
Qed.

(** The variable that the environment of the call binds *)
Lemma lookup_var_here st env var e v :
  heap st !! env = Some e -> vars e !! var = Some v -> lookup_var env var st = Ret v st.
Proof.
  intros He Hv. eapply lookup_var_found; [|exact He|exact Hv].
  apply (find_here st env var e v); assumption.
Qed.

(** The arguments of a call that are constants, in an environment with a
    budget: each one costs a reading of the clock. *)
Lemma eval_list_literals fuel (vs : list value) env e :
  max_runtime e <> 0 -> Forall (fun x => literal x = true) vs ->
  forall s, heap s !! env = Some e ->
    (exists s', eval_list (lisp_eval (S fuel)) vs env s = Ret vs s' /\ heap s' = heap s) \/
    (exists s', eval_list (lisp_eval (S fuel)) vs env s
                = Raise (Exn CustomCommandSyntaxError timeout_msg) s').
Proof.
  intros Hr. induction 1 as [|x vs Hx _ IH]; intros s He.
  - left. exists s. split; reflexivity.
  - cbn [eval_list]. destruct (expired_dec s e (ticks s)) as [Hx0|Hx0].
    { right. exists (tick s). apply bind_raise, (lisp_eval_expired _ _ _ _ e); assumption. }
    rewrite (bind_ret _ _ _ _ _ (lisp_eval_literal_within fuel x env s e He Hr Hx0 Hx)).
    destruct (IH (tick s) He) as [(s' & Hl & Hh) | (s' & Hl)].
    + left. exists s'. rewrite (bind_ret _ _ _ _ _ Hl). split; [reflexivity|exact Hh].
    + right. exists s'. apply bind_raise, Hl.
Qed.

(** The call of a library procedure that the environment of the call binds,
    on constants: it returns what the procedure returns, or one of the
    readings of the clock was beyond the budget. *)
Lemma call_runs_or_times_out fuel (Inv : list Env -> Prop) (f : str) (b : builtin)
    (args : list value) (v : value) env s e :
  heap s !! env = Some e -> max_runtime e <> 0 ->
  vars e !! f = Some (VBuiltin b) ->
  classify (VStr f) = FCall -> starts_with (lit "make-") f = false ->
  has_char 58%N f = false -> (length f <= 1400)%nat ->
  Forall (fun x => literal x = true) args ->
  (forall s0 : state, call_builtin b args s0 = Ret v s0) ->
  Inv (heap s) ->
  runs_or_times_out (lisp_eval (S (S fuel))) Inv (fun r => r = v) (VList (VStr f :: args)) env s.
Proof.
  intros He Hr Hf Hc Hm Hcolon Hlen Hargs Hcall HI.
  assert (Hwrap : forall s', timed_out (Raise (Exn CustomCommandSyntaxError
                                                (lit "(" ++ f ++ lit "): " ++ timeout_msg)) s')).
  { intros s'. eexists _, s'. split; [reflexivity|]. split.
    - apply (chain_under f timeout_msg), chain_here.
    - rewrite !length_app. change (length (lit "(")) with 1%nat.
      change (length (lit "): ")) with 3%nat. change (length timeout_msg) with 25%nat. lia. }
  assert (Hshort : forall t s',
             reraise (VList (VStr f :: t)) (Exn CustomCommandSyntaxError timeout_msg) s'
             = Raise (Exn CustomCommandSyntaxError (lit "(" ++ f ++ lit "): " ++ timeout_msg)) s').
  { intros t s'. apply reraise_short; [reflexivity|vm_compute; lia]. }
  unfold runs_or_times_out.
  destruct (expired_dec s e (ticks s)) as [Hx|Hx].
  { right. exists timeout_msg, (tick s). split; [|split; [constructor|vm_compute; lia]].
    apply (lisp_eval_expired _ _ _ _ e); assumption. }
  rewrite (lisp_eval_within _ _ env s e He Hr Hx).
  unfold try_except. cbn [eval_form is_opaque]. rewrite Hc. unfold eval_call.
  destruct (expired_dec (tick s) e (ticks (tick s))) as [Hy|Hy].
  { right. unfold bind at 1.
    rewrite (lisp_eval_expired fuel (VStr f) env (tick s) e He Hr Hy), Hshort. apply Hwrap. }
  assert (Hhead : lisp_eval (S fuel) (VStr f) env (tick s) = Ret (VBuiltin b) (tick (tick s))).
  { rewrite (lisp_eval_within _ _ env (tick s) e He Hr Hy).
    apply try_ret. cbn [eval_form]. apply eval_symbol_plain; [exact Hcolon|].
    apply (lookup_var_here _ _ _ e); assumption. }
  rewrite (bind_ret _ _ _ _ _ Hhead), Hm. cbn [tail].
  destruct (eval_list_literals fuel args env e Hr Hargs (tick (tick s)) He)
    as [(s' & Hl & Hh) | (s' & Hl)].
  - left. rewrite (bind_ret _ _ _ _ _ Hl). cbn [apply_value]. rewrite Hcall.
    exists v, s'. split; [reflexivity|]. split; [reflexivity|]. rewrite Hh. exact HI.
  - right. unfold bind at 1. rewrite Hl, Hshort. apply Hwrap.
Qed.


